(** * JNIWeakGlobalRefLocker.criticalNative and AccessBridge's getTimeStamp

    A shallow embedding of two native routines of the JDK sources:

    - [Java_nsk_share_gc_lock_jniref_JNIWeakGlobalRefLocker_criticalNative]
      (test/hotspot/jtreg/vmTestbase/nsk/share/gc/lock/jniref/
      JNIWeakGlobalRefLocker.cpp), modelled in [Module Locker];
    - [getTimeStamp] (src/jdk.accessibility/windows/native/common/
      AccessBridgeDebug.cpp), modelled in [Module AccessBridgeDebug].

    The JNI environment, the wall clock and standard output are explicit
    components of a [World]; every JNI call, sleep, clock reading and
    [printf] is also appended to an event log, so that statements about
    "every instant" of a call can be phrased over the log. *)

From stdpp Require Import gmap strings list fin_maps pretty.
From Stdlib Require Import ZArith Lia Ascii.

Local Open Scope Z_scope.

(** ** Machine integers *)

(** [wrap bits x] is the two's-complement value of [x] in a signed integer
    of [bits] bits. *)
Definition wrap (bits : Z) (x : Z) : Z :=
  (x + 2 ^ (bits - 1)) `mod` 2 ^ bits - 2 ^ (bits - 1).

(** [jlong] and (on the 64-bit targets of the test) [time_t] are signed
    64-bit integers. *)
Definition wrap64 : Z → Z := wrap 64.

Definition in_int64 (x : Z) : Prop := - 2 ^ 63 ≤ x < 2 ^ 63.

(** ** AccessBridgeDebug.cpp: the time stamp of a log line *)
Module AccessBridgeDebug.

Section Chrono.

(** The tick period of [std::chrono::steady_clock] is fixed by the C++
    library in use (a nanosecond for libstdc++, libc++ and current MSVC, 100
    nanoseconds for older MSVC): [ticks_per_ms] ticks make a millisecond. *)
Variable ticks_per_ms : Z.

(** [duration_cast<milliseconds>]: the conversion factor is
    [1 / ticks_per_ms], so the cast is one division, which truncates
    towards zero. *)
Definition duration_cast_milliseconds (ticks : Z) : Z :=
  ticks `quot` ticks_per_ms.

(** Lines 85-90.  [steady_now] is the tick count of
    [steady_clock::now().time_since_epoch()]; the value is the [count()] of
    the cast duration, as a [long long]. *)
Definition getTimeStamp (steady_now : Z) : Z :=
  let timeNow := duration_cast_milliseconds steady_now in
  wrap64 timeNow.

End Chrono.

End AccessBridgeDebug.

(** ** JNIWeakGlobalRefLocker.cpp *)
Module Locker.

(** ** JNI handles *)

(** Non-null references are identities; a nullable C pointer of the source
    is an [option], [None] being [NULL]. *)
Definition jobject := positive.
Definition jclass := positive.
Definition jfieldID := positive.
Definition jweak := positive.

(** ** Observable events, one per external call of the routine *)
Inductive Event : Type :=
| EvGetObjectClass (o : jobject) (r : option jclass)
| EvGetFieldID (k : jclass) (name sig : string) (r : option jfieldID)
| EvGetObjectField (o : jobject) (f : option jfieldID) (r : option jobject)
| EvSetObjectField (o : jobject) (f : option jfieldID) (v : option jobject)
| EvNewWeakGlobalRef (obj : jobject) (g : jweak)
| EvDeleteWeakGlobalRef (g : jweak)
| EvSleep (ms : Z)
| EvTime (t : Z)
| EvPrintf (s : string).

(** ** The world the routine runs in *)
Record World : Type := mkWorld {
  (** object fields that hold a non-null reference *)
  fields : gmap (jobject * jfieldID) jobject;
  (** what [GetObjectClass] answers; an absent object gets [NULL] *)
  classes : gmap jobject jclass;
  (** what [GetFieldID] answers; an absent field gets [NULL] *)
  field_ids : gmap (jclass * string * string) jfieldID;
  (** [static jfieldID objFieldId] (line 32) *)
  objFieldId : option jfieldID;
  (** the live weak global references and their referents *)
  weak_refs : gmap jweak jobject;
  (** the wall clock, in milliseconds since the epoch *)
  now : Z;
  (** the events so far, newest first *)
  log : list Event
}.

Definition emit (e : Event) (w : World) : World :=
  mkWorld (fields w) (classes w) (field_ids w) (objFieldId w) (weak_refs w)
          (now w) (e :: log w).

Definition with_fields (h : gmap (jobject * jfieldID) jobject) (w : World) : World :=
  mkWorld h (classes w) (field_ids w) (objFieldId w) (weak_refs w) (now w) (log w).

Definition with_objFieldId (f : option jfieldID) (w : World) : World :=
  mkWorld (fields w) (classes w) (field_ids w) f (weak_refs w) (now w) (log w).

Definition with_weak_refs (r : gmap jweak jobject) (w : World) : World :=
  mkWorld (fields w) (classes w) (field_ids w) (objFieldId w) r (now w) (log w).

Definition with_now (t : Z) (w : World) : World :=
  mkWorld (fields w) (classes w) (field_ids w) (objFieldId w) (weak_refs w) t (log w).

(** The value of slot [f] of object [o]. *)
Definition slot (o : jobject) (f : jfieldID) (w : World) : option jobject :=
  fields w !! (o, f).

(** ** A monad for C statements: state, early [return], and fuel *)

Inductive Result (A : Type) : Type :=
| Normal (a : A) (w : World)   (** control reaches the next statement *)
| Returned (w : World)         (** a [return;] was executed *)
| OutOfFuel (w : World).       (** the loop was cut off by the fuel *)
Arguments Normal {A} a w.
Arguments Returned {A} w.
Arguments OutOfFuel {A} w.

Definition M (A : Type) : Type := World → Result A.

Definition ret {A} (a : A) : M A := λ w, Normal a w.

Definition bind {A B} (m : M A) (k : A → M B) : M B :=
  λ w, match m w with
       | Normal a w' => k a w'
       | Returned w' => Returned w'
       | OutOfFuel w' => OutOfFuel w'
       end.

Notation "x <- m ;; k" := (bind m (λ x, k))
  (at level 100, m at next level, right associativity).
Notation "m ;;; k" := (bind m (λ _, k))
  (at level 100, right associativity).

Definition return_ {A} : M A := λ w, Returned w.
Definition out_of_fuel {A} : M A := λ w, OutOfFuel w.

Definition result_world {A} (r : Result A) : World :=
  match r with Normal _ w | Returned w | OutOfFuel w => w end.

(** The call came back to its caller (by falling off the end or by an
    early [return]). *)
Definition came_back {A} (r : Result A) : bool :=
  match r with OutOfFuel _ => false | _ => true end.

(** ** The collaborators *)

Definition printf (s : string) : M unit :=
  λ w, Normal tt (emit (EvPrintf s) w).

Definition get_objFieldId : M (option jfieldID) :=
  λ w, Normal (objFieldId w) w.

Definition set_objFieldId (f : option jfieldID) : M unit :=
  λ w, Normal tt (with_objFieldId f w).

Definition GetObjectClass (o : jobject) : M (option jclass) :=
  λ w, let r := classes w !! o in Normal r (emit (EvGetObjectClass o r) w).

Definition GetFieldID (k : jclass) (name sig : string) : M (option jfieldID) :=
  λ w, let r := field_ids w !! (k, name, sig) in
       Normal r (emit (EvGetFieldID k name sig r) w).

(** Reading through a [NULL] field id is undefined in JNI; the routine never
    does it, and the model answers [NULL]. *)
Definition GetObjectField (o : jobject) (f : option jfieldID) : M (option jobject) :=
  λ w, let r := f ≫= λ f', fields w !! (o, f') in
       Normal r (emit (EvGetObjectField o f r) w).

Definition SetObjectField (o : jobject) (f : option jfieldID) (v : option jobject)
  : M unit :=
  λ w, let h := match f, v with
                | Some f', Some x => <[(o, f') := x]> (fields w)
                | Some f', None => delete (o, f') (fields w)
                | None, _ => fields w
                end in
       Normal tt (emit (EvSetObjectField o f v) (with_fields h w)).

(** The virtual machine hands out a handle that is not in use.  (It is
    taken to have room for the handle: the routine does not look at the
    result, and a [NULL] result is not modelled.) *)
Definition NewWeakGlobalRef (obj : jobject) : M jweak :=
  λ w, let g := fresh (dom (weak_refs w)) in
       Normal g (emit (EvNewWeakGlobalRef obj g)
                      (with_weak_refs (<[g := obj]> (weak_refs w)) w)).

Definition DeleteWeakGlobalRef (g : jweak) : M unit :=
  λ w, Normal tt (emit (EvDeleteWeakGlobalRef g)
                       (with_weak_refs (delete g (weak_refs w)) w)).

(** [time(NULL)]: the clock in whole seconds, as a [time_t]. *)
Definition time_reading (w : World) : Z := wrap64 (now w `div` 1000).

Definition time : M Z :=
  λ w, let t := time_reading w in Normal t (emit (EvTime t) w).

(** [current_time - start_time], computed in 64 bits. *)
Definition time_sub (a b : Z) : Z := wrap64 (a - b).

(** The three diagnostics of the routine (lines 48, 53 and 59); each ends
    in a line feed. *)
Definition newline : string := String (Ascii.ascii_of_nat 10) EmptyString.
Definition msg_GetObjectClass : string :=
  "Error: GetObjectClass returned NULL" +:+ newline.
Definition msg_GetFieldID : string :=
  "Error: GetFieldID returned NULL" +:+ newline.
Definition msg_GetObjectField : string :=
  "Error: GetObjectField returned NULL" +:+ newline.

Section Routine.

(** The width of C's [long] (64 on LP64 targets, 32 on Windows). *)
Variable long_bits : Z.

(** What a sleep of [ms] milliseconds started at clock value [t] does to
    the clock is left to the platform and its scheduler:
    [mssleep_clock ms t] is the clock value at wake-up. *)
Variable mssleep_clock : Z → Z → Z.

(** The cast [(long) sleepTime] of lines 68 and 70. *)
Definition to_long (x : Z) : Z := wrap long_bits x.

(** Modelled from the spec: [mssleep] is defined in jni_tools, which is not
    among the sources at hand; the spec has it as "a
    millisecond-granularity blocking sleep for pacing".  The thread is
    blocked until the clock shows [mssleep_clock ms] of its value at the
    call; nothing else changes. *)
Definition mssleep (ms : Z) : M unit :=
  λ w, Normal tt (emit (EvSleep ms) (with_now (mssleep_clock ms (now w)) w)).

(** Lines 67-71: the body of the [while] loop; its value is the new
    [current_time]. *)
Definition loop_body (obj : jobject) (sleepTime : Z) : M Z :=
  gref <- NewWeakGlobalRef obj ;;
  mssleep (to_long sleepTime) ;;;
  DeleteWeakGlobalRef gref ;;;
  mssleep (to_long sleepTime) ;;;
  time.

(** Lines 66-72: [while (current_time - start_time < enterTime) { ... }].
    Each evaluation of the loop test costs one unit of fuel; the value is
    [current_time] at loop exit. *)
Fixpoint while_loop (fuel : nat) (obj : jobject) (sleepTime : Z)
    (start_time enterTime current_time : Z) : M Z :=
  match fuel with
  | O => out_of_fuel
  | S fuel' =>
      if time_sub current_time start_time <? enterTime then
        current_time' <- loop_body obj sleepTime ;;
        while_loop fuel' obj sleepTime start_time enterTime current_time'
      else ret current_time
  end.

(** Lines 45-56: resolve the field id of [obj] unless it is cached. *)
Definition resolve_objFieldId (o : jobject) : M unit :=
  cached <- get_objFieldId ;;
  if cached is None then
    klass <- GetObjectClass o ;;
    match klass with
    | None => printf msg_GetObjectClass ;;; return_
    | Some klass' =>
        fid <- GetFieldID klass' "obj" "Ljava/lang/Object;" ;;
        set_objFieldId fid ;;;
        if fid is None then printf msg_GetFieldID ;;; return_ else ret tt
    end
  else ret tt.

(** Lines 39-74. *)
Definition criticalNative (fuel : nat) (o : jobject) (enterTime sleepTime : Z)
  : M unit :=
  resolve_objFieldId o ;;;
  fid <- get_objFieldId ;;
  obj <- GetObjectField o fid ;;
  match obj with
  | None => printf msg_GetObjectField ;;; return_
  | Some obj' =>
      SetObjectField o fid None ;;;
      start_time <- time ;;
      let enterTime := enterTime `quot` 1000 in
      let current_time := 0 in
      current_time <-
        while_loop fuel obj' sleepTime start_time enterTime current_time ;;
      SetObjectField o fid (Some obj')
  end.

End Routine.

(** ** Reading the event log *)

(** The events of one pass through the loop body, newest first: the weak
    reference [g] is created, the thread sleeps, [g] is deleted, the thread
    sleeps again, and the clock is read as [t]. *)
Definition iteration_log (obj : jobject) (ms : Z) (it : jweak * Z) : list Event :=
  [EvTime it.2; EvSleep ms; EvDeleteWeakGlobalRef it.1; EvSleep ms;
   EvNewWeakGlobalRef obj it.1].

(** The events of several passes, the newest pass first. *)
Fixpoint iterations_log (obj : jobject) (ms : Z) (its : list (jweak * Z))
  : list Event :=
  match its with
  | [] => []
  | it :: its' => iteration_log obj ms it ++ iterations_log obj ms its'
  end.

Definition is_create (e : Event) : bool :=
  match e with EvNewWeakGlobalRef _ _ => true | _ => false end.

Definition is_delete (e : Event) : bool :=
  match e with EvDeleteWeakGlobalRef _ => true | _ => false end.

Definition is_slot_write (e : Event) : bool :=
  match e with EvSetObjectField _ _ _ => true | _ => false end.

Definition is_slot_access (e : Event) : bool :=
  match e with
  | EvSetObjectField _ _ _ | EvGetObjectField _ _ _ => true
  | _ => false
  end.

(** The lookups of lines 46 and 51. *)
Definition is_resolution (e : Event) : bool :=
  match e with
  | EvGetObjectClass _ _ | EvGetFieldID _ _ _ _ => true
  | _ => false
  end.

(** A [GetFieldID] that found the field. *)
Definition is_resolved (e : Event) : bool :=
  match e with EvGetFieldID _ _ _ (Some _) => true | _ => false end.

Definition count (p : Event → bool) (l : list Event) : nat :=
  length (List.filter p l).

(** How many weak references a log creates, and how many it deletes. *)
Definition creations : list Event → nat := count is_create.
Definition deletions : list Event → nat := count is_delete.

(** The weak references created by a log (newest event first) and not yet
    deleted by it. *)
Fixpoint weak_alive (l : list Event) : list jweak :=
  match l with
  | [] => []
  | EvNewWeakGlobalRef _ g :: l' => g :: weak_alive l'
  | EvDeleteWeakGlobalRef g :: l' =>
      List.filter (λ g', negb (Pos.eqb g' g)) (weak_alive l')
  | _ :: l' => weak_alive l'
  end.

(** The field id the routine will work with: the cached one, or else the
    one the two lookups of lines 46-51 find ([NULL] when either fails). *)
Definition resolution (o : jobject) (w : World) : option jfieldID :=
  match objFieldId w with
  | Some f => Some f
  | None =>
      k ← classes w !! o; field_ids w !! (k, "obj"%string, "Ljava/lang/Object;"%string)
  end.

(** What lines 45-56 add to the log: nothing when the field id is cached,
    else the lookup of the class and, when that succeeds, of the field. *)
Definition resolution_log (o : jobject) (w : World) : list Event :=
  match objFieldId w with
  | Some _ => []
  | None =>
      match classes w !! o with
      | None => [EvGetObjectClass o None]
      | Some k =>
          [EvGetFieldID k "obj" "Ljava/lang/Object;"
             (field_ids w !! (k, "obj"%string, "Ljava/lang/Object;"%string));
           EvGetObjectClass o (Some k)]
      end
  end.

(** The world after lines 45-56, up to the diagnostic of a failure. *)
Definition after_resolution (o : jobject) (w : World) : World :=
  mkWorld (fields w) (classes w) (field_ids w) (resolution o w) (weak_refs w)
          (now w) (resolution_log o w ++ log w).

(** The diagnostic of a failed resolution. *)
Definition resolution_msg (o : jobject) (w : World) : string :=
  if classes w !! o is None then msg_GetObjectClass else msg_GetFieldID.

(** [w'] differs from [w] at most in the clock and the log. *)
Definition preserved (w w' : World) : Prop :=
  fields w' = fields w ∧ classes w' = classes w ∧ field_ids w' = field_ids w ∧
  objFieldId w' = objFieldId w ∧ weak_refs w' = weak_refs w.

(** The value of [current_time] after the passes [its] of the loop, when it
    was [cur] before them. *)
Definition last_reading (its : list (jweak * Z)) (cur : Z) : Z :=
  match its with [] => cur | it :: _ => it.2 end.

(** The world in which the loop starts: the slot has been read (it held
    [x]) and cleared, and the start time has been taken. *)
Definition armed (o : jobject) (f : jfieldID) (x : jobject) (w : World) : World :=
  emit (EvTime (time_reading w))
    (emit (EvSetObjectField o (Some f) None)
       (with_fields (delete (o, f) (fields w))
          (emit (EvGetObjectField o (Some f) (Some x)) w))).

(** What a stretch of the process with events [new] may do to the cache:
    keep a resolved id without looking anything up, or resolve it, once. *)
Definition cache_step (w w' : World) (new : list Event) : Prop :=
  log w' = new ++ log w ∧
  (∀ f, objFieldId w = Some f →
        objFieldId w' = Some f ∧ count is_resolution new = 0%nat) ∧
  (objFieldId w = None →
   count is_resolved new = if objFieldId w' is Some _ then 1%nat else 0%nat).

(** A number of loop tests that is enough for a call with budget
    [e / 1000] started in [w], when every sleep advances the clock: one
    test per millisecond up to the deadline, and two more. *)
Definition enough_fuel (e : Z) (w : World) : nat :=
  Z.to_nat ((now w `div` 1000 + e `quot` 1000) * 1000 - now w) + 2.

(** ** Sequences of calls in one process *)

Record Call : Type := mkCall {
  call_fuel : nat;
  call_this : jobject;
  call_enterTime : Z;
  call_sleepTime : Z
}.

(** The calls are made one after the other; a call that does not come back
    keeps the later ones from happening. *)
Fixpoint run_calls (long_bits : Z) (mssleep_clock : Z → Z → Z)
    (cs : list Call) : M unit :=
  match cs with
  | [] => ret tt
  | c :: cs' =>
      λ w, match criticalNative long_bits mssleep_clock (call_fuel c)
                   (call_this c) (call_enterTime c) (call_sleepTime c) w with
           | OutOfFuel w' => OutOfFuel w'
           | Normal _ w' | Returned w' => run_calls long_bits mssleep_clock cs' w'
           end
  end.

(** ** More readings of the log *)

Definition is_sleep (e : Event) : bool :=
  match e with EvSleep _ => true | _ => false end.

(** A sleep of exactly [ms] milliseconds. *)
Definition is_sleep_of (ms : Z) (e : Event) : bool :=
  match e with EvSleep m => Z.eqb m ms | _ => false end.

Definition is_time (e : Event) : bool :=
  match e with EvTime _ => true | _ => false end.

Definition is_printf (e : Event) : bool :=
  match e with EvPrintf _ => true | _ => false end.

(** The referent the loop works on: what the slot holds, when the field
    is resolved and the slot is not null.  A call reaches the loop exactly
    when there is one. *)
Definition referent (o : jobject) (w : World) : option jobject :=
  f ← resolution o w; slot o f w.

(** The test of line 66 succeeded before each of the passes [its] (newest
    first): [current_time] is [cur] before the oldest pass, and after a
    pass it is the reading that pass took. *)
Fixpoint every_pass_tested (start enter cur : Z) (its : list (jweak * Z)) : bool :=
  match its with
  | [] => true
  | _ :: its' =>
      (time_sub (last_reading its' cur) start <? enter)
      && every_pass_tested start enter cur its'
  end.

(** ** Sample worlds *)

(** A sleep that takes exactly the time asked for. *)
Definition exact_sleep (ms t : Z) : Z := t + ms.

(** A sleep that takes the time asked for, but a millisecond at least and a
    minute at most. *)
Definition capped_sleep (ms t : Z) : Z := t + Z.max 1 (Z.min ms 60000).

(** Object 1 is a locker of class 3, whose field [obj] has id 7 and holds
    object 9; nothing is cached yet. *)
Definition sample_world : World :=
  mkWorld {[ (1%positive, 7%positive) := 9%positive ]}
          {[ 1%positive := 3%positive ]}
          {[ (3%positive, "obj"%string, "Ljava/lang/Object;"%string) := 7%positive ]}
          None ∅ 1700000000123 [].

(** The same, with an empty slot. *)
Definition sample_world_null : World := with_fields ∅ sample_world.

(** The same, in a virtual machine that does not know the field. *)
Definition sample_world_no_field : World :=
  mkWorld (fields sample_world) (classes sample_world) ∅ None ∅
          (now sample_world) [].

(** The same, in a virtual machine that does not know the class. *)
Definition sample_world_no_class : World :=
  mkWorld (fields sample_world) ∅ (field_ids sample_world) None ∅
          (now sample_world) [].

End Locker.

(** ** AccessBridgeDebug.cpp: the file logger and [printError] *)
Module DebugLog.

(** *** Characters and C strings *)

Definition NUL : ascii := Ascii.zero.
Definition CR : ascii := Ascii.ascii_of_nat 13.
Definition LF : ascii := Ascii.ascii_of_nat 10.
Definition dot : ascii := Ascii.ascii_of_nat 46.
Definition percent : ascii := Ascii.ascii_of_nat 37.

(** The characters of a string literal of the source. *)
Definition chars (s : string) : list ascii := String.list_ascii_of_string s.

(** The characters written by the literal of lines 152, 180, 209 and 239. *)
Definition crlf : list ascii := [CR; LF].

(** The C string that starts at [p]: the characters before the first
    [NUL].  A string handed to the functions below is given by its
    characters, the terminator being implied. *)
Fixpoint c_str (p : list ascii) : list ascii :=
  match p with
  | [] => []
  | c :: p' => if Ascii.eqb c NUL then [] else c :: c_str p'
  end.

(** [strlen] of a string given by its characters. *)
Definition strlen (s : list ascii) : nat := length (c_str s).

(** [strlen] of the string in a buffer; reading past the end of the buffer
    is undefined. *)
Fixpoint strlen_buf (buf : list ascii) : option nat :=
  match buf with
  | [] => None
  | c :: buf' => if Ascii.eqb c NUL then Some 0%nat else S <$> strlen_buf buf'
  end.

(** [strrchr (s, c)]: the offset of the last [c] in the string, if any. *)
Fixpoint strrchr (s : list ascii) (c : ascii) : option nat :=
  match s with
  | [] => None
  | a :: s' =>
      match strrchr s' c with
      | Some i => Some (S i)
      | None => if Ascii.eqb a c then Some 0%nat else None
      end
  end.

(** [new char[n]] followed by [memset (.., 0, n)]. *)
Definition new_zeroed (n : nat) : list ascii := replicate n NUL.

(** [memcpy (dst + off, src, n)]; a copy that leaves [dst] or reads more
    than [src] has is undefined. *)
Definition memcpy (dst : list ascii) (off : nat) (src : list ascii) (n : nat)
  : option (list ascii) :=
  if decide (off + n ≤ length dst ∧ n ≤ length src)%nat
  then Some (take off dst ++ take n src ++ drop (off + n) dst)
  else None.

(** [buf[i] = c]. *)
Definition store (buf : list ascii) (i : nat) (c : ascii) : option (list ascii) :=
  if decide (i < length buf)%nat then Some (<[i := c]> buf) else None.

(** [strncpy (dst, src, n)]: [n] characters are written, those of [src]
    first and [NUL]s for the rest. *)
Definition strncpy (dst src : list ascii) (n : nat) : option (list ascii) :=
  if decide (n ≤ length dst)%nat
  then Some (take n (c_str src ++ replicate n NUL) ++ drop n dst)
  else None.

(** [strncat (dst, src, n)]: at most [n] characters of [src] and a [NUL]
    are written at the end of the string in [dst]. *)
Definition strncat (dst src : list ascii) (n : nat) : option (list ascii) :=
  k ← strlen_buf dst;
  let t := take n (c_str src) in
  if decide (k + length t + 1 ≤ length dst)%nat
  then Some (take k dst ++ t ++ NUL :: drop (k + length t + 1) dst)
  else None.

(** *** Formatting *)

(** An argument of a variadic call. *)
Inductive Arg : Type :=
| ArgStr (s : option (list ascii))   (** a [char *], possibly null *)
| ArgInt (v : Z).

(** [printf] formats as far as the literals of the source need them:
    plain characters, [%%], and [%lld] and [%llu] applied to a
    [long long].  Anything else is left undefined here. *)
Fixpoint cformat (fmt : list ascii) (args : list Z) : option (list ascii) :=
  match fmt with
  | [] => Some []
  | c :: fmt1 =>
      if Ascii.eqb c percent then
        match fmt1 with
        | c1 :: fmt2 =>
            if Ascii.eqb c1 percent then (percent ::.) <$> cformat fmt2 args
            else
              match fmt2 with
              | c2 :: c3 :: fmt4 =>
                  if Ascii.eqb c1 "l" && Ascii.eqb c2 "l" then
                    match args with
                    | v :: args' =>
                        if Ascii.eqb c3 "d" then
                          (chars (pretty (wrap64 v)) ++.) <$> cformat fmt4 args'
                        else if Ascii.eqb c3 "u" then
                          (chars (pretty (v `mod` 2 ^ 64)) ++.) <$> cformat fmt4 args'
                        else None
                    | [] => None
                    end
                  else None
              | _ => None
              end
        | [] => None
        end
      else (c ::.) <$> cformat fmt1 args
  end.

(** *** The process *)

Record Process : Type := mkProcess {
  (** the environment variables *)
  environ : gmap (list ascii) (list ascii);
  (** the paths that cannot be opened for writing *)
  read_only : gset (list ascii);
  (** the files, by path: the characters handed to their streams *)
  files : gmap (list ascii) (list ascii);
  (** the open streams and the paths they write to *)
  streams : gmap positive (list ascii);
  (** [static FILE* logFP] (line 42) *)
  logFP : option positive;
  (** the tick count of [steady_clock] *)
  steady : Z;
  (** the system's text for [GetLastError ()], if [FormatMessage] finds one *)
  last_error_text : option (list ascii);
  (** [static char retbuf[256]] of [printError] (line 97) *)
  retbuf : list ascii;
  (** the strings given to [OutputDebugString], newest first *)
  debugger : list (list ascii);
  (** the characters written to standard output *)
  console : list ascii
}.

Definition with_files (f : gmap (list ascii) (list ascii)) (p : Process) : Process :=
  mkProcess (environ p) (read_only p) f (streams p) (logFP p) (steady p)
            (last_error_text p) (retbuf p) (debugger p) (console p).

Definition with_streams (s : gmap positive (list ascii)) (p : Process) : Process :=
  mkProcess (environ p) (read_only p) (files p) s (logFP p) (steady p)
            (last_error_text p) (retbuf p) (debugger p) (console p).

Definition with_logFP (fp : option positive) (p : Process) : Process :=
  mkProcess (environ p) (read_only p) (files p) (streams p) fp (steady p)
            (last_error_text p) (retbuf p) (debugger p) (console p).

Definition with_steady (t : Z) (p : Process) : Process :=
  mkProcess (environ p) (read_only p) (files p) (streams p) (logFP p) t
            (last_error_text p) (retbuf p) (debugger p) (console p).

Definition with_retbuf (b : list ascii) (p : Process) : Process :=
  mkProcess (environ p) (read_only p) (files p) (streams p) (logFP p) (steady p)
            (last_error_text p) b (debugger p) (console p).

Definition with_debugger (d : list (list ascii)) (p : Process) : Process :=
  mkProcess (environ p) (read_only p) (files p) (streams p) (logFP p) (steady p)
            (last_error_text p) (retbuf p) d (console p).

Definition with_console (c : list ascii) (p : Process) : Process :=
  mkProcess (environ p) (read_only p) (files p) (streams p) (logFP p) (steady p)
            (last_error_text p) (retbuf p) (debugger p) c.

(** A process at its start: nothing is open, [logFP] is null and [retbuf]
    is zeroed. *)
Definition start (env : gmap (list ascii) (list ascii)) (ro : gset (list ascii))
    (fs : gmap (list ascii) (list ascii)) (t : Z) (err : option (list ascii))
  : Process :=
  mkProcess env ro fs ∅ None t err (replicate 256 NUL) [] [].

(** *** Statements: state, and [None] for undefined behaviour *)

Definition P (A : Type) : Type := Process → option (A * Process).

Definition ret {A} (a : A) : P A := λ p, Some (a, p).

Definition bind {A B} (m : P A) (k : A → P B) : P B :=
  λ p, match m p with
       | Some (a, p') => k a p'
       | None => None
       end.

Notation "x <- m ;; k" := (bind m (λ x, k))
  (at level 100, m at next level, right associativity).
Notation "m ;;; k" := (bind m (λ _, k))
  (at level 100, right associativity).

Definition lift {A} (o : option A) : P A :=
  λ p, match o with Some a => Some (a, p) | None => None end.

Definition get {A} (f : Process → A) : P A := λ p, Some (f p, p).

Definition modify (f : Process → Process) : P unit := λ p, Some (tt, f p).

(** *** The library calls *)

Definition getenv (name : list ascii) : P (option (list ascii)) :=
  get (λ p, environ p !! name).

(** [fopen (path, "w")]: the file is created or emptied; the stream is one
    that is not in use. *)
Definition fopen_w (path : list ascii) : P (option positive) :=
  λ p, if decide (path ∈ read_only p) then Some (None, p)
       else let fp := fresh (dom (streams p)) in
            Some (Some fp,
                  with_streams (<[fp := path]> (streams p))
                    (with_files (<[path := []]> (files p)) p)).

(** [fclose]; closing a stream that is not open is undefined. *)
Definition fclose (fp : positive) : P unit :=
  λ p, match streams p !! fp with
       | Some _ => Some (tt, with_streams (delete fp (streams p)) p)
       | None => None
       end.

(** Characters written to a stream go to the end of its file; writing to
    a stream that is not open is undefined. *)
Definition fwrite (fp : positive) (text : list ascii) : P unit :=
  λ p, match streams p !! fp with
       | Some path =>
           Some (tt, with_files (<[path := default [] (files p !! path) ++ text]>
                                   (files p)) p)
       | None => None
       end.

Definition fprintf (fp : positive) (fmt : list ascii) (args : list Z) : P unit :=
  text <- lift (cformat fmt args) ;; fwrite fp text.

Definition printf (fmt : list ascii) : P unit :=
  text <- lift (cformat fmt []) ;;
  modify (λ p, with_console (console p ++ text) p).

Definition OutputDebugString (s : list ascii) : P unit :=
  modify (λ p, with_debugger (s :: debugger p) p).

(** [FormatMessage] with [FORMAT_MESSAGE_ALLOCATE_BUFFER]: the buffer it
    allocates, or null when it fails. *)
Definition FormatMessage : P (option (list ascii)) := get last_error_text.

Section Logger.

(** [steady_clock] ticks per millisecond, as for [getTimeStamp]. *)
Variable ticks_per_ms : Z.

(** The macros of AccessBridgeDebug.h that the file is compiled with. *)
Variable DEBUGGING_ON : bool.
Variable JAVA_DEBUGGING_ON : bool.
Variable SEND_TO_OUTPUT_DEBUG_STRING : bool.
Variable SEND_TO_CONSOLE : bool.

(** What the C library makes of a format and its arguments ([vsprintf],
    [vfprintf]), of a wide format and its arguments ([vfwprintf]), and of
    a wide string printed with [%ls]. *)
Variable vformat : list ascii → list Arg → list ascii.
Variable vwformat : list N → list Arg → list ascii.
Variable wcs_to_mbs : list N → list ascii.

(** [vsprintf] into [char buf[size]]: the text and its [NUL] must fit. *)
Definition vsprintf (size : nat) (fmt : list ascii) (args : list Arg)
  : P (list ascii) :=
  let text := vformat fmt args in
  if decide (length text < size)%nat then ret (c_str text) else lift None.

(** [sprintf (charmsg, "%ls", msg)] into [char charmsg[size]]. *)
Definition sprintf_ls (size : nat) (msg : list N) : P (list ascii) :=
  let text := wcs_to_mbs msg in
  if decide (length text < size)%nat then ret (c_str text) else lift None.

(** Lines 138-144 (and 166-172, 195-201, 228-232). *)
Definition send (buf : list ascii) : P unit :=
  (if SEND_TO_OUTPUT_DEBUG_STRING then OutputDebugString buf else ret tt) ;;;
  (if SEND_TO_CONSOLE then printf buf ;;; printf crlf else ret tt).

(** The time stamp of lines 147, 175, 204 and 234. *)
Definition timestamp : P Z :=
  get (λ p, AccessBridgeDebug.getTimeStamp ticks_per_ms (steady p)).

(** Lines 131-154. *)
Definition PrintDebugString (msg : list ascii) (args : list Arg) : P unit :=
  (if DEBUGGING_ON then buf <- vsprintf 1024 msg args ;; send buf else ret tt) ;;;
  fp <- get logFP ;;
  match fp with
  | Some fp =>
      ts <- timestamp ;;
      fprintf fp (chars "[%lldu] ") [ts] ;;;
      fwrite fp (vformat msg args) ;;;
      fprintf fp crlf []
  | None => ret tt
  end.

(** Lines 159-182. *)
Definition PrintJavaDebugString2 (msg : list ascii) (args : list Arg) : P unit :=
  (if JAVA_DEBUGGING_ON then buf <- vsprintf 1024 msg args ;; send buf
   else ret tt) ;;;
  fp <- get logFP ;;
  match fp with
  | Some fp =>
      ts <- timestamp ;;
      fprintf fp (chars "[%llu] ") [ts] ;;;
      fwrite fp (vformat msg args) ;;;
      fprintf fp crlf []
  | None => ret tt
  end.

(** Lines 186-211. *)
Definition wPrintDebugString (msg : list N) (args : list Arg) : P unit :=
  (if DEBUGGING_ON then
     charmsg <- sprintf_ls 256 msg ;;
     buf <- vsprintf 1024 charmsg args ;;
     send buf
   else ret tt) ;;;
  fp <- get logFP ;;
  match fp with
  | Some fp =>
      ts <- timestamp ;;
      fprintf fp (chars "[%llu] ") [ts] ;;;
      fwrite fp (vwformat msg args) ;;;
      fprintf fp crlf []
  | None => ret tt
  end.

(** Lines 216-241. *)
Definition wPrintJavaDebugString (msg : list N) (args : list Arg) : P unit :=
  (if JAVA_DEBUGGING_ON then
     charmsg <- sprintf_ls 256 msg ;;
     buf <- vsprintf 1024 charmsg args ;;
     send buf
   else ret tt) ;;;
  fp <- get logFP ;;
  match fp with
  | Some fp =>
      ts <- timestamp ;;
      fprintf fp (chars "[%llu] ") [ts] ;;;
      fwrite fp (vwformat msg args) ;;;
      fprintf fp crlf []
  | None => ret tt
  end.

(** Lines 44-76. *)
Definition initializeFileLogger (suffix : option (list ascii)) : P unit :=
  let var := chars "JAVA_ACCESSBRIDGE_LOGFILE" in
  envfilePath <- getenv var ;;
  match envfilePath with
  | Some envfilePath =>
      let ext := strrchr (c_str envfilePath) dot in
      let len := strlen envfilePath in
      let suffixlen := match suffix with Some s => strlen s | None => 0%nat end in
      let suffix_chars := match suffix with Some s => c_str s | None => [] end in
      filePath <-
        match ext with
        | None =>
            let filePath := new_zeroed (len + suffixlen + 5) in
            filePath <- lift (memcpy filePath 0 (c_str envfilePath) len) ;;
            filePath <- lift (memcpy filePath len suffix_chars suffixlen) ;;
            lift (memcpy filePath (len + suffixlen) (chars ".log") 4)
        | Some i =>
            let ext := drop i (c_str envfilePath) in
            let extLen := strlen ext in
            let filePath := new_zeroed (len + suffixlen + 1) in
            filePath <-
              lift (memcpy filePath 0 (c_str envfilePath) (len - extLen)) ;;
            filePath <-
              lift (memcpy filePath (len - extLen) suffix_chars suffixlen) ;;
            lift (memcpy filePath (len + suffixlen - extLen) ext extLen)
        end ;;
      n <- lift (strlen_buf filePath) ;;
      fp <- fopen_w (take n filePath) ;;
      modify (with_logFP fp) ;;;
      if fp is None then
        PrintDebugString (chars "couldnot open file %s")
          [ArgStr (Some (take n filePath))]
      else ret tt
  | None => ret tt
  end.

(** Lines 78-83. *)
Definition finalizeFileLogger : P unit :=
  fp <- get logFP ;;
  match fp with
  | Some fp => fclose fp ;;; modify (with_logFP None)
  | None => ret tt
  end.

(** Lines 95-125; the value is the string in [retbuf]. *)
Definition printError (msg : option (list ascii)) : P (list ascii) :=
  match msg with
  | Some m =>
      buf <- get retbuf ;;
      buf <- lift (strncpy buf m 256) ;;
      buf <- lift (store buf 255 NUL) ;;
      modify (with_retbuf buf)
  | None => ret tt
  end ;;;
  lpMsgBuf <- FormatMessage ;;
  match lpMsgBuf with
  | None => PrintDebugString (chars "  %s: FormatMessage failed") [ArgStr msg]
  | Some text =>
      PrintDebugString (chars "  %s: %s") [ArgStr msg; ArgStr (Some text)]
  end ;;;
  match lpMsgBuf with
  | Some text =>
      buf <- get retbuf ;;
      n <- lift (strlen_buf buf) ;;
      buf <- lift (strncat buf (chars ": ") (256 - n - 1)) ;;
      modify (with_retbuf buf) ;;;
      buf <- get retbuf ;;
      n <- lift (strlen_buf buf) ;;
      buf <- lift (strncat buf text (256 - n - 1)) ;;
      modify (with_retbuf buf)
  | None => ret tt
  end ;;;
  buf <- get retbuf ;;
  n <- lift (strlen_buf buf) ;;
  ret (take n buf).

(** *** What a program does with the logger *)

Inductive Op : Type :=
| OpInitialize (suffix : option (list ascii))
| OpFinalize
| OpPrint (msg : list ascii) (args : list Arg)
| OpPrintJava (msg : list ascii) (args : list Arg)
| OpWPrint (msg : list N) (args : list Arg)
| OpWPrintJava (msg : list N) (args : list Arg)
| OpPrintError (msg : option (list ascii))
| OpTick (d : N).     (** time passes: the steady clock advances *)

Definition run_op (op : Op) : P unit :=
  match op with
  | OpInitialize suffix => initializeFileLogger suffix
  | OpFinalize => finalizeFileLogger
  | OpPrint msg args => PrintDebugString msg args
  | OpPrintJava msg args => PrintJavaDebugString2 msg args
  | OpWPrint msg args => wPrintDebugString msg args
  | OpWPrintJava msg args => wPrintJavaDebugString msg args
  | OpPrintError msg => printError msg ;;; ret tt
  | OpTick d => modify (λ p, with_steady (steady p + Z.of_N d) p)
  end.

Fixpoint run_ops (ops : list Op) : P unit :=
  match ops with
  | [] => ret tt
  | op :: ops' => run_op op ;;; run_ops ops'
  end.

End Logger.

(** The name the log file gets, said directly: the suffix goes before the
    last dot of the path, or, when the path has no dot, after the path and
    before [.log]. *)
Definition log_file_name (path sfx : list ascii) : list ascii :=
  match strrchr path dot with
  | None => path ++ sfx ++ chars ".log"
  | Some i => take i path ++ sfx ++ drop i path
  end.

(** The characters of the suffix argument, none for a null pointer. *)
Definition suffix_chars (suffix : option (list ascii)) : list ascii :=
  match suffix with Some s => c_str s | None => [] end.

(** *** Notions for the statements *)

(** A list of characters without a [NUL] is its own C string. *)
Definition clean (s : list ascii) : Prop := NUL ∉ s.

(** The file of an open stream after [text] has been written to it. *)
Definition appended (path text : list ascii) (p : Process) : Process :=
  with_files (<[path := default [] (files p !! path) ++ text]> (files p)) p.

(** [buf] is a buffer of 256 characters that holds the string [s]. *)
Definition holds (buf s : list ascii) : Prop :=
  ∃ rest, buf = s ++ NUL :: rest ∧ clean s ∧ length buf = 256%nat.

(** The time stamp field as [PrintDebugString] writes it, and as the other
    three functions do. *)
Definition stamp_lldu (ts : Z) : list ascii :=
  chars "[" ++ chars (pretty ts) ++ chars "u] ".
Definition stamp_llu (ts : Z) : list ascii :=
  chars "[" ++ chars (pretty (ts `mod` 2 ^ 64)) ++ chars "] ".

(** [q] is [p] with some text written to the file of the log, or is [p]. *)
Definition logged (p q : Process) : Prop :=
  q = p ∨
  ∃ fp path text, logFP p = Some fp ∧ streams p !! fp = Some path ∧
                  q = appended path text p.

(** The string [retbuf] holds when the system's text is looked up: the
    message cut to 255 characters, or what was there before for a null
    message. *)
Definition error_base (msg : option (list ascii)) (p : Process) : list ascii :=
  match msg with Some m => take 255 (c_str m) | None => c_str (retbuf p) end.

(** What is appended to it: a colon, a space and the system's text, or
    nothing when [FormatMessage] fails. *)
Definition error_tail (p : Process) : list ascii :=
  match last_error_text p with
  | Some text => chars ": " ++ c_str text
  | None => []
  end.

(** Every file keeps what it has: its content only gets longer. *)
Definition grows (p q : Process) : Prop :=
  ∀ path old, files p !! path = Some old →
              ∃ extra, files q !! path = Some (old ++ extra).

(** What no operation of a build without the debugging macros changes. *)
Definition untouched (p q : Process) : Prop :=
  environ q = environ p ∧ read_only q = read_only p ∧
  last_error_text q = last_error_text p ∧
  debugger q = debugger p ∧ console q = console p.

(** What a build with a debugging macro sends out before it turns to the
    log (lines 138-144, 166-172, 195-201 and 228-232): [text] goes to the
    debugger with [SEND_TO_OUTPUT_DEBUG_STRING], and to standard output,
    followed by a carriage return and a line feed, with [SEND_TO_CONSOLE]. *)
Definition echoed (to_debugger to_console : bool) (text : list ascii)
    (p : Process) : Process :=
  with_console (if to_console then console p ++ text ++ crlf else console p)
    (with_debugger (if to_debugger then text :: debugger p else debugger p) p).

(** A text that [vsprintf] can put into [char buf[1024]] with its [NUL],
    and that [printf (buf)] prints as it stands, there being no percent
    sign in it for [printf] to read as a conversion. *)
Definition fits (to_console : bool) (text : list ascii) : Prop :=
  (length text < 1024)%nat ∧ (to_console = true → percent ∉ c_str text).

(** The text [printError] reports through [PrintDebugString] (lines 104-118). *)
Definition error_report (vformat : list ascii → list Arg → list ascii)
    (msg : option (list ascii)) (p : Process) : list ascii :=
  match last_error_text p with
  | Some text => vformat (chars "  %s: %s") [ArgStr msg; ArgStr (Some text)]
  | None => vformat (chars "  %s: FormatMessage failed") [ArgStr msg]
  end.

(** The process after [fopen] has opened [name] and [logFP] has been set. *)
Definition opened (name : list ascii) (p : Process) : Process :=
  let fp := fresh (dom (streams p)) in
  with_logFP (Some fp)
    (with_streams (<[fp := name]> (streams p))
       (with_files (<[name := []]> (files p)) p)).

(** *** Sample processes *)

(** A formatter for formats without conversions: the text is the format. *)
Definition plain_format (fmt : list ascii) (args : list Arg) : list ascii := fmt.

Definition plain_wformat (fmt : list N) (args : list Arg) : list ascii :=
  Ascii.ascii_of_N <$> fmt.

(** A formatter that knows [%s]: each one is replaced by the next string
    argument, [(null)] standing for a null pointer; every other character
    is kept. *)
Fixpoint string_format (fmt : list ascii) (args : list Arg) : list ascii :=
  match fmt with
  | [] => []
  | c1 :: fmt1 =>
      match fmt1 with
      | c2 :: fmt2 =>
          if Ascii.eqb c1 percent && Ascii.eqb c2 "s" then
            match args with
            | ArgStr (Some s) :: args' => c_str s ++ string_format fmt2 args'
            | ArgStr None :: args' => chars "(null)" ++ string_format fmt2 args'
            | _ => string_format fmt2 args
            end
          else c1 :: string_format fmt1 args
      | [] => [c1]
      end
  end.

(** A conversion of wide strings that keeps the low byte of each
    character. *)
Definition plain_narrow (w : list N) : list ascii := Ascii.ascii_of_N <$> w.

Definition logfile_variable : list ascii := chars "JAVA_ACCESSBRIDGE_LOGFILE".

(** A process whose log is to go to a path with a dot in a directory name,
    and for which the system has a text for the last error. *)
Definition sample_process : Process :=
  start {[ logfile_variable := chars "C:\logs.d\bridge.txt" ]} ∅ ∅ 1999999
        (Some (chars "Access is denied.")).

(** The same with a path without any dot. *)
Definition sample_process_no_dot : Process :=
  start {[ logfile_variable := chars "bridge" ]} ∅ ∅ 1999999
        (Some (chars "Access is denied.")).


(** A process that is logging to [bridge.log]. *)
Definition sample_logging : Process :=
  mkProcess {[ logfile_variable := chars "bridge" ]} ∅
            {[ chars "bridge.log" := chars "started" ]}
            {[ 1%positive := chars "bridge.log" ]} (Some 1%positive) 1999999
            (Some (chars "Access is denied.")) (replicate 256 NUL) [] [].

(** The state the functions rely on: [logFP] is null or an open stream,
    and [retbuf] has its 256 characters, one of them a [NUL]. *)
Definition consistent (p : Process) : Prop :=
  (∀ fp, logFP p = Some fp → is_Some (streams p !! fp)) ∧
  length (retbuf p) = 256%nat ∧
  is_Some (strlen_buf (retbuf p)).

End DebugLog.

Import Locker.

(** * Facts about machine integers *)

Lemma wrap64_id (x : Z) : in_int64 x → wrap64 x = x.
Proof.
  unfold in_int64, wrap64, wrap. intros Hx.
  rewrite Z.mod_small; lia.
Qed.

Lemma wrap64_range (x : Z) : in_int64 (wrap64 x).
Proof.
  unfold in_int64, wrap64, wrap.
  pose proof (Z.mod_pos_bound (x + 2 ^ (64 - 1)) (2 ^ 64)). lia.
Qed.

Lemma time_sub_exact (a b : Z) :
  0 ≤ a < 2 ^ 63 → 0 ≤ b < 2 ^ 63 → time_sub a b = a - b.
Proof. intros Ha Hb. apply wrap64_id. unfold in_int64. lia. Qed.

(** * Facts about the event log *)

Lemma count_app (p : Event → bool) (l1 l2 : list Event) :
  count p (l1 ++ l2) = (count p l1 + count p l2)%nat.
Proof. unfold count. by rewrite List.filter_app, length_app. Qed.

Lemma count_cons (p : Event → bool) (e : Event) (l : list Event) :
  count p (e :: l) = ((if p e then 1 else 0) + count p l)%nat.
Proof. unfold count. cbn. by destruct (p e). Qed.

(** The lookups of the resolution are neither slot accesses nor weak
    reference operations. *)
Lemma resolution_log_quiet (o : jobject) (w : World) :
  count is_slot_access (resolution_log o w) = 0%nat ∧
  count is_slot_write (resolution_log o w) = 0%nat ∧
  count is_create (resolution_log o w) = 0%nat ∧
  count is_delete (resolution_log o w) = 0%nat.
Proof.
  unfold resolution_log. destruct (objFieldId w); [done|].
  by destruct (classes w !! o).
Qed.

Lemma iterations_log_app obj ms (its1 its2 : list (jweak * Z)) :
  iterations_log obj ms (its1 ++ its2)
  = iterations_log obj ms its1 ++ iterations_log obj ms its2.
Proof.
  induction its1 as [|it its1 IH]; [done|].
  cbn [iterations_log app]. by rewrite IH, <- !app_assoc.
Qed.

Lemma creations_iterations obj ms (its : list (jweak * Z)) :
  creations (iterations_log obj ms its) = length its.
Proof.
  induction its as [|it its IH]; [done|].
  cbn [iterations_log]. unfold creations in *. rewrite count_app, IH.
  by destruct it.
Qed.

Lemma deletions_iterations obj ms (its : list (jweak * Z)) :
  deletions (iterations_log obj ms its) = length its.
Proof.
  induction its as [|it its IH]; [done|].
  cbn [iterations_log]. unfold deletions in *. rewrite count_app, IH.
  by destruct it.
Qed.

Lemma resolutions_iterations obj ms (its : list (jweak * Z)) :
  count is_resolution (iterations_log obj ms its) = 0%nat.
Proof.
  induction its as [|it its IH]; [done|].
  cbn [iterations_log]. rewrite count_app, IH. by destruct it.
Qed.

Lemma weak_alive_iterations obj ms (its : list (jweak * Z)) :
  weak_alive (iterations_log obj ms its) = [].
Proof.
  induction its as [|[g t] its IH]; [done|].
  cbn. rewrite IH. cbn. by rewrite Pos.eqb_refl.
Qed.

Lemma suffix_cons_cases {A} (s l : list A) (x : A) :
  s `suffix_of` x :: l → s = x :: l ∨ s `suffix_of` l.
Proof.
  intros [[|y k] E]; [left; by rewrite E|].
  right. injection E as -> ->. by exists k.
Qed.

(** Between two events of the loop at most one weak reference is alive. *)
Lemma weak_alive_iterations_suffix obj ms (its : list (jweak * Z)) (s : list Event) :
  s `suffix_of` iterations_log obj ms its → (length (weak_alive s) ≤ 1)%nat.
Proof.
  induction its as [|[g t] its IH]; intros Hs.
  - apply suffix_nil_inv in Hs as ->. cbn. lia.
  - cbn [iterations_log iteration_log fst snd app] in Hs.
    pose proof (weak_alive_iterations obj ms its) as Hnil.
    repeat (apply suffix_cons_cases in Hs as [-> | Hs];
            [cbn; rewrite Hnil; cbn; rewrite ?Pos.eqb_refl; cbn; lia|]).
    by apply IH.
Qed.

(** * The loop *)

Section Loop.

Variable long_bits : Z.
Variable mssleep_clock : Z → Z → Z.

Abbreviation to_long := (to_long long_bits).
Abbreviation loop_body := (loop_body long_bits mssleep_clock).
Abbreviation while_loop := (while_loop long_bits mssleep_clock).
Abbreviation criticalNative := (criticalNative long_bits mssleep_clock).

Lemma preserved_refl (w : World) : preserved w w.
Proof. by unfold preserved. Qed.

Lemma preserved_trans (w1 w2 w3 : World) :
  preserved w1 w2 → preserved w2 w3 → preserved w1 w3.
Proof. unfold preserved. intros (?&?&?&?&?) (?&?&?&?&?). repeat split; congruence. Qed.

(** One pass: a fresh handle is created and deleted again, the clock has
    gone through two sleeps, and the new [current_time] is its reading. *)
Lemma loop_body_spec (obj : jobject) (s : Z) (w : World) :
  ∃ g w', loop_body obj s w = Normal (time_reading w') w' ∧
    preserved w w' ∧
    now w' = mssleep_clock (to_long s) (mssleep_clock (to_long s) (now w)) ∧
    log w' = iteration_log obj (to_long s) (g, time_reading w') ++ log w.
Proof.
  exists (fresh (dom (weak_refs w))), (result_world (loop_body obj s w)).
  split; [reflexivity|].
  cbn. unfold preserved. cbn. repeat split.
  apply delete_insert_id, not_elem_of_dom, is_fresh.
Qed.

Lemma while_loop_unfold (fuel : nat) obj s start enter cur (w : World) :
  while_loop (S fuel) obj s start enter cur w =
  if time_sub cur start <? enter then
    match loop_body obj s w with
    | Normal cur' w' => while_loop fuel obj s start enter cur' w'
    | Returned w' => Returned w'
    | OutOfFuel w' => OutOfFuel w'
    end
  else Normal cur w.
Proof. cbn [Locker.while_loop]. by destruct (_ <? _). Qed.

(** What any run of the loop does, whatever the fuel. *)
Lemma while_loop_spec (fuel : nat) obj s start enter cur (w : World) :
  ∃ its, let r := while_loop fuel obj s start enter cur w in
    preserved w (result_world r) ∧
    log (result_world r) = iterations_log obj (to_long s) its ++ log w ∧
    match r with
    | Normal cur' w' =>
        enter ≤ time_sub cur' start ∧ cur' = last_reading its cur ∧
        (its = [] → w' = w) ∧ (its ≠ [] → cur' = time_reading w')
    | Returned _ => False
    | OutOfFuel _ => length its = fuel
    end ∧
    (time_sub cur start < enter → (0 < fuel)%nat → its ≠ []) ∧
    (enter ≤ time_sub cur start → its = []).
Proof.
  revert cur w. induction fuel as [|fuel IH]; intros cur w.
  - exists []. cbn. repeat split; auto using preserved_refl. lia.
  - rewrite while_loop_unfold.
    destruct (Z.ltb_spec (time_sub cur start) enter) as [Hlt|Hge].
    + destruct (loop_body_spec obj s w) as (g & w1 & -> & Hp & _ & Hlog).
      destruct (IH (time_reading w1) w1) as (its & Hp' & Hlog' & Hr & _).
      exists (its ++ [(g, time_reading w1)]). cbn zeta in *.
      split; [by eapply preserved_trans|].
      split.
      { rewrite Hlog', Hlog, iterations_log_app. cbn [iterations_log].
        by rewrite app_nil_r, <- app_assoc. }
      split; [|split; [intros _ _; by destruct its|lia]].
      destruct (while_loop fuel obj s start enter (time_reading w1) w1)
        as [cur' w'| |w']; [|done|].
      * destruct Hr as (He & Hc & Hw & Ht). split; [done|].
        destruct its as [|it its]; cbn in *.
        -- rewrite (Hw eq_refl). by subst cur'.
        -- repeat split; [done..|]. intros _. by apply Ht.
      * rewrite length_app. cbn. lia.
    + exists []. cbn. repeat split; auto using preserved_refl; try lia; done.
Qed.

(** When the first test succeeds (and there is fuel for it) the body runs:
    the oldest pass of the log is the one started in [w]. *)
Lemma while_loop_enters (fuel : nat) obj s start enter cur (w : World) :
  time_sub cur start < enter →
  ∃ its it,
    log (result_world (while_loop (S fuel) obj s start enter cur w))
    = iterations_log obj (to_long s) (its ++ [it]) ++ log w.
Proof.
  intros Hlt. rewrite while_loop_unfold.
  destruct (Z.ltb_spec (time_sub cur start) enter) as [_|]; [|lia].
  destruct (loop_body_spec obj s w) as (g & w1 & -> & _ & _ & Hlog).
  destruct (while_loop_spec fuel obj s start enter (time_reading w1) w1)
    as (its & _ & Hlog' & _).
  exists its, (g, time_reading w1). cbn zeta in Hlog'.
  rewrite Hlog', Hlog, iterations_log_app. cbn [iterations_log].
  by rewrite app_nil_r, <- app_assoc.
Qed.

(** When the first test fails the loop does nothing. *)
Lemma while_loop_skips (fuel : nat) obj s start enter cur (w : World) :
  enter ≤ time_sub cur start →
  while_loop (S fuel) obj s start enter cur w = Normal cur w.
Proof.
  intros Hge. rewrite while_loop_unfold.
  by destruct (Z.ltb_spec (time_sub cur start) enter); [lia|].
Qed.

(** More fuel does not change a run that came to its end. *)
Lemma while_loop_fuel_mono (fuel fuel' : nat) obj s start enter cur w cur' w' :
  (fuel ≤ fuel')%nat →
  while_loop fuel obj s start enter cur w = Normal cur' w' →
  while_loop fuel' obj s start enter cur w = Normal cur' w'.
Proof.
  revert fuel' cur w. induction fuel as [|fuel IH]; intros fuel' cur w Hle; [done|].
  destruct fuel' as [|fuel']; [lia|].
  rewrite !while_loop_unfold. destruct (_ <? _); [|done].
  destruct (loop_body obj s w) as [c1 w1| |]; [|done..].
  apply IH. lia.
Qed.

Lemma time_reading_exact (w : World) :
  0 ≤ now w < 2 ^ 63 * 1000 → time_reading w = now w `div` 1000.
Proof.
  intros Hn. apply wrap64_id. unfold in_int64.
  split.
  - pose proof (Z.div_pos (now w) 1000). lia.
  - apply Z.div_lt_upper_bound; lia.
Qed.

Section Clock.

(** A clock that every sleep advances, by [J] milliseconds at most. *)
Variable J : Z.
Hypothesis sleep_advances : ∀ ms t, t < mssleep_clock ms t.
Hypothesis sleep_bounded : ∀ ms t, mssleep_clock ms t ≤ t + J.

(** From a test that compares a clock reading, the loop ends within
    [(start + enter) * 1000 - now] further tests; at its end [current_time]
    is the clock reading, and the budget has elapsed. *)
Lemma while_loop_terminates (fuel : nat) obj s start enter (w : World) :
  0 ≤ start → start * 1000 ≤ now w → now w < 2 ^ 63 * 1000 →
  (start + enter) * 1000 + 2 * J ≤ 2 ^ 63 * 1000 →
  (Z.to_nat ((start + enter) * 1000 - now w) < fuel)%nat →
  ∃ w',
    while_loop fuel obj s start enter (time_reading w) w
    = Normal (time_reading w') w' ∧
    now w ≤ now w' < 2 ^ 63 * 1000 ∧
    enter ≤ time_reading w' - start.
Proof.
  revert w. induction fuel as [|fuel IH]; intros w Hs Hsn Hn HD Hfuel; [lia|].
  assert (time_reading w = now w `div` 1000) as Htr
    by (apply time_reading_exact; lia).
  rewrite while_loop_unfold, Htr.
  assert (0 ≤ now w `div` 1000 < 2 ^ 63) as Hr.
  { split; [apply Z.div_pos; lia | apply Z.div_lt_upper_bound; lia]. }
  assert (start ≤ now w `div` 1000) as Hsr.
  { apply Z.div_le_lower_bound; lia. }
  rewrite time_sub_exact by lia.
  destruct (Z.ltb_spec (now w `div` 1000 - start) enter) as [Hlt|Hge].
  - assert (now w < (start + enter) * 1000) as Hdl.
    { pose proof (Z.div_mod (now w) 1000 ltac:(lia)).
      pose proof (Z.mod_pos_bound (now w) 1000 ltac:(lia)). lia. }
    destruct (loop_body_spec obj s w) as (g & w1 & -> & _ & Hnow & _).
    pose proof (sleep_advances (to_long s) (now w)).
    pose proof (sleep_bounded (to_long s) (now w)).
    pose proof (sleep_advances (to_long s) (mssleep_clock (to_long s) (now w))).
    pose proof (sleep_bounded (to_long s) (mssleep_clock (to_long s) (now w))).
    destruct (IH w1) as (w' & Hrun & Hle & He); try lia.
    exists w'. split; [done|]. split; [lia|done].
  - exists w. rewrite Htr. split; [done|]. split; lia.
Qed.

End Clock.

(** * The routine, case by case *)

Lemma resolve_ok (o : jobject) (w : World) (f : jfieldID) :
  resolution o w = Some f →
  resolve_objFieldId o w = Normal tt (after_resolution o w).
Proof.
  destruct w as [h cl fi [c|] wr t l]; unfold resolution, resolution_log,
    after_resolution, resolve_objFieldId, resolution; cbn; [done|].
  unfold bind, GetObjectClass, GetFieldID; cbn.
  destruct (cl !! o) as [k|]; cbn; [|done].
  destruct (fi !! _) as [f'|]; cbn; [|done]. done.
Qed.

Lemma resolve_fail (o : jobject) (w : World) :
  resolution o w = None →
  resolve_objFieldId o w
  = Returned (emit (EvPrintf (resolution_msg o w)) (after_resolution o w)).
Proof.
  destruct w as [h cl fi [c|] wr t l]; unfold resolution, resolution_log,
    after_resolution, resolve_objFieldId, resolution, resolution_msg; cbn; [done|].
  unfold bind, GetObjectClass, GetFieldID; cbn.
  destruct (cl !! o) as [k|]; cbn; [|done].
  destruct (fi !! _) as [f'|]; cbn; done.
Qed.

(** Resolution fails: the routine returns from line 49 or line 54. *)
Lemma criticalNative_unresolved fuel o e s (w : World) :
  resolution o w = None →
  criticalNative fuel o e s w
  = Returned (emit (EvPrintf (resolution_msg o w)) (after_resolution o w)).
Proof.
  intros Hr. unfold Locker.criticalNative, bind at 1. by rewrite resolve_fail.
Qed.

(** The slot is null: the routine returns from line 60. *)
Lemma criticalNative_missing fuel o e s (w : World) (f : jfieldID) :
  resolution o w = Some f → slot o f w = None →
  criticalNative fuel o e s w
  = Returned (emit (EvPrintf msg_GetObjectField)
                (emit (EvGetObjectField o (Some f) None) (after_resolution o w))).
Proof.
  intros Hr Hs. unfold Locker.criticalNative, bind at 1.
  rewrite (resolve_ok o w f Hr).
  unfold bind, get_objFieldId, GetObjectField, slot in *. cbn.
  rewrite Hr. cbn. rewrite Hs. done.
Qed.

(** The slot holds [x]: the routine clears it, runs the loop from a
    [current_time] of 0 with the budget [e / 1000], and writes [x] back. *)
Lemma criticalNative_armed fuel o e s (w : World) (f : jfieldID) (x : jobject) :
  resolution o w = Some f → slot o f w = Some x →
  criticalNative fuel o e s w
  = match while_loop fuel x s (time_reading w) (e `quot` 1000) 0
            (armed o f x (after_resolution o w)) with
    | Normal _ w' => SetObjectField o (Some f) (Some x) w'
    | Returned w' => Returned w'
    | OutOfFuel w' => OutOfFuel w'
    end.
Proof.
  intros Hr Hs. unfold Locker.criticalNative, bind at 1.
  rewrite (resolve_ok o w f Hr).
  unfold bind, get_objFieldId, GetObjectField, slot in *. cbn.
  rewrite Hr. cbn. rewrite Hs. done.
Qed.

(** A call that reaches the loop, summed up: its log, and the world it
    leaves behind. *)
Lemma criticalNative_armed_spec fuel o e s (w : World) (f : jfieldID) (x : jobject) :
  resolution o w = Some f → slot o f w = Some x →
  ∃ its, let r := criticalNative fuel o e s w in
    log (result_world r)
    = (if came_back r then [EvSetObjectField o (Some f) (Some x)] else [])
      ++ iterations_log x (to_long s) its
      ++ log (armed o f x (after_resolution o w)) ∧
    weak_refs (result_world r) = weak_refs w ∧
    objFieldId (result_world r) = Some f ∧
    classes (result_world r) = classes w ∧
    field_ids (result_world r) = field_ids w ∧
    (came_back r = true →
       r = Normal tt (result_world r) ∧
       fields (result_world r) = fields w ∧
       e `quot` 1000 ≤ time_sub (last_reading its 0) (time_reading w) ∧
       (its = [] → now (result_world r) = now w) ∧
       (its ≠ [] → last_reading its 0 = time_reading (result_world r))) ∧
    (came_back r = false →
       length its = fuel ∧ fields (result_world r) = delete (o, f) (fields w)) ∧
    (time_sub 0 (time_reading w) < e `quot` 1000 → (0 < fuel)%nat → its ≠ []) ∧
    (e `quot` 1000 ≤ time_sub 0 (time_reading w) → its = []).
Proof.
  intros Hr Hs. cbn zeta. rewrite (criticalNative_armed fuel o e s w f x Hr Hs).
  destruct (while_loop_spec fuel x s (time_reading w) (e `quot` 1000) 0
              (armed o f x (after_resolution o w)))
    as (its & Hp & Hlog & Hres & Hfirst).
  exists its. cbn zeta in *.
  destruct (while_loop fuel x s (time_reading w) (e `quot` 1000) 0
              (armed o f x (after_resolution o w))) as [cur w'| |w']; [|done|];
    cbn [result_world] in Hp, Hlog.
  - destruct Hp as (Hf & Hc & Hi & Ho & Hw).
    destruct Hres as (He & Hcur & Hnil & Hne).
    change (fields (armed o f x (after_resolution o w)))
      with (delete (o, f) (fields w)) in Hf.
    change (objFieldId (armed o f x (after_resolution o w)))
      with (resolution o w) in Ho.
    cbn [SetObjectField came_back result_world app].
    split; [cbn; by rewrite Hlog|].
    split; [exact Hw|]. split; [cbn; by rewrite Ho|].
    split; [exact Hc|]. split; [exact Hi|]. split; [|done].
    clear Hfirst. intros _. split; [done|]. split.
    { cbn. rewrite Hf, insert_delete_eq. by apply insert_id. }
    split; [by rewrite <- Hcur|]. split.
    + intros ->. by rewrite (Hnil eq_refl).
    + intros Hn. rewrite <- Hcur. by rewrite (Hne Hn).
  - destruct Hp as (Hf & Hc & Hi & Ho & Hw).
    change (fields (armed o f x (after_resolution o w)))
      with (delete (o, f) (fields w)) in Hf.
    change (objFieldId (armed o f x (after_resolution o w)))
      with (resolution o w) in Ho.
    cbn [came_back result_world app].
    split; [by rewrite Hlog|].
    split; [exact Hw|]. split; [by rewrite Ho|].
    split; [exact Hc|]. split; [exact Hi|]. split; [done|].
    split; [|done]. intros _. by split.
Qed.

End Loop.

(** * Sample runs *)

(** Two seconds in steps of 500 milliseconds: resolution, read, clear,
    start time, two passes, restore. *)
Example run_sample_world :
  log (result_world
         (criticalNative 64 exact_sleep 10 1%positive 2000 500 sample_world))
  = [EvSetObjectField 1%positive (Some 7%positive) (Some 9%positive);
     EvTime 1700000002; EvSleep 500; EvDeleteWeakGlobalRef 1%positive;
     EvSleep 500; EvNewWeakGlobalRef 9%positive 1%positive;
     EvTime 1700000001; EvSleep 500; EvDeleteWeakGlobalRef 1%positive;
     EvSleep 500; EvNewWeakGlobalRef 9%positive 1%positive;
     EvTime 1700000000;
     EvSetObjectField 1%positive (Some 7%positive) None;
     EvGetObjectField 1%positive (Some 7%positive) (Some 9%positive);
     EvGetFieldID 3%positive "obj" "Ljava/lang/Object;" (Some 7%positive);
     EvGetObjectClass 1%positive (Some 3%positive)].
Proof. vm_compute. reflexivity. Qed.

Example run_sample_world_null :
  log (result_world
         (criticalNative 64 exact_sleep 10 1%positive 2000 500 sample_world_null))
  = [EvPrintf msg_GetObjectField;
     EvGetObjectField 1%positive (Some 7%positive) None;
     EvGetFieldID 3%positive "obj" "Ljava/lang/Object;" (Some 7%positive);
     EvGetObjectClass 1%positive (Some 3%positive)].
Proof. vm_compute. reflexivity. Qed.

Example run_sample_world_no_field :
  log (result_world
         (criticalNative 64 exact_sleep 10 1%positive 2000 500
            sample_world_no_field))
  = [EvPrintf msg_GetFieldID;
     EvGetFieldID 3%positive "obj" "Ljava/lang/Object;" None;
     EvGetObjectClass 1%positive (Some 3%positive)].
Proof. vm_compute. reflexivity. Qed.

Example run_sample_world_no_class :
  log (result_world
         (criticalNative 64 exact_sleep 10 1%positive 2000 500
            sample_world_no_class))
  = [EvPrintf msg_GetObjectClass; EvGetObjectClass 1%positive None].
Proof. vm_compute. reflexivity. Qed.

(** Too little fuel: the run is cut off at a loop test, with the slot
    cleared and no weak reference alive. *)
Example run_out_of_fuel :
  let r := criticalNative 64 exact_sleep 2 1%positive 2000 500 sample_world in
  came_back r = false ∧
  slot 1%positive 7%positive (result_world r) = None ∧
  weak_refs (result_world r) = ∅ ∧
  creations (log (result_world r)) = 2%nat.
Proof. vm_compute. repeat split. Qed.

(** * The claims *)

(** C1.  When field resolution succeeds and the holder's slot holds [x] at
    entry, a call that comes back leaves [x] in the slot; the write that
    restores it is the newest event of the log, after the passes of the
    loop, which themselves follow the read, the clearing write and the
    reading of the start time. *)
Theorem restore_on_return (long_bits : Z) (mssleep_clock : Z → Z → Z)
    (fuel : nat) (o : jobject) (enterTime sleepTime : Z) (w : World)
    (f : jfieldID) (x : jobject) :
  resolution o w = Some f →
  slot o f w = Some x →
  came_back (criticalNative long_bits mssleep_clock fuel o enterTime sleepTime w)
    = true →
  let w' := result_world
              (criticalNative long_bits mssleep_clock fuel o enterTime sleepTime w) in
  slot o f w' = Some x ∧
  fields w' = fields w ∧
  ∃ its,
    log w' = EvSetObjectField o (Some f) (Some x)
             :: iterations_log x (to_long long_bits sleepTime) its
             ++ EvTime (time_reading w)
             :: EvSetObjectField o (Some f) None
             :: EvGetObjectField o (Some f) (Some x)
             :: resolution_log o w ++ log w.
Proof.
  intros Hr Hs Hback w'.
  destruct (criticalNative_armed_spec long_bits mssleep_clock fuel o enterTime
              sleepTime w f x Hr Hs) as (its & Hlog & _ & _ & _ & _ & Hdone & _).
  cbn zeta in Hlog, Hdone. destruct (Hdone Hback) as (_ & Hf & _).
  subst w'. unfold slot. rewrite Hf. split; [exact Hs|]. split; [done|].
  exists its. by rewrite Hlog, Hback.
Qed.

Lemma restore_on_return_witness :
  let w' := result_world (criticalNative 64 exact_sleep 3 1%positive 2000 500
                            sample_world) in
  slot 1%positive 7%positive w' = Some 9%positive ∧
  fields w' = fields sample_world ∧
  ∃ its,
    log w' = EvSetObjectField 1%positive (Some 7%positive) (Some 9%positive)
             :: iterations_log 9%positive (to_long 64 500) its
             ++ EvTime (time_reading sample_world)
             :: EvSetObjectField 1%positive (Some 7%positive) None
             :: EvGetObjectField 1%positive (Some 7%positive) (Some 9%positive)
             :: resolution_log 1%positive sample_world ++ log sample_world.
Proof.
  apply (restore_on_return 64 exact_sleep 3 1%positive 2000 500 sample_world
           7%positive 9%positive); vm_compute; reflexivity.
Defined.

(** C3.  When field resolution succeeds and the slot is null at call time,
    the routine prints the diagnostic of line 59 and returns: the events of
    the call are the resolution, one read of the slot and the diagnostic,
    none of them a write, and the slot is still null. *)
Theorem missing_referent (long_bits : Z) (mssleep_clock : Z → Z → Z)
    (fuel : nat) (o : jobject) (enterTime sleepTime : Z) (w : World)
    (f : jfieldID) :
  resolution o w = Some f →
  slot o f w = None →
  ∃ w' new,
    criticalNative long_bits mssleep_clock fuel o enterTime sleepTime w
    = Returned w' ∧
    log w' = new ++ log w ∧
    new = EvPrintf msg_GetObjectField :: EvGetObjectField o (Some f) None
          :: resolution_log o w ∧
    count is_slot_write new = 0%nat ∧
    count is_create new = 0%nat ∧
    fields w' = fields w ∧
    slot o f w' = None.
Proof.
  intros Hr Hs.
  exists (emit (EvPrintf msg_GetObjectField)
            (emit (EvGetObjectField o (Some f) None) (after_resolution o w))),
         (EvPrintf msg_GetObjectField :: EvGetObjectField o (Some f) None
          :: resolution_log o w).
  split; [by apply criticalNative_missing|].
  split; [reflexivity|]. split; [reflexivity|].
  destruct (resolution_log_quiet o w) as (_ & Hw & Hc & _).
  rewrite !count_cons, Hw, Hc. by repeat split.
Qed.

Lemma missing_referent_witness :
  ∃ w' new,
    criticalNative 64 exact_sleep 0 1%positive 2000 500 sample_world_null
    = Returned w' ∧
    log w' = new ++ log sample_world_null ∧
    new = EvPrintf msg_GetObjectField
          :: EvGetObjectField 1%positive (Some 7%positive) None
          :: resolution_log 1%positive sample_world_null ∧
    count is_slot_write new = 0%nat ∧
    count is_create new = 0%nat ∧
    fields w' = fields sample_world_null ∧
    slot 1%positive 7%positive w' = None.
Proof.
  apply (missing_referent 64 exact_sleep 0 1%positive 2000 500
           sample_world_null 7%positive); vm_compute; reflexivity.
Defined.

(** C4.  When nothing is cached and the class of the holder cannot be
    obtained, or its field [obj] cannot be located, the routine prints the
    diagnostic of line 48 or of line 53 and returns: the events of the call
    are the lookups and the diagnostic, none of them touches the slot or
    creates a weak reference, and the fields, the weak references and the
    (empty) cache are as before. *)
Theorem resolution_failure (long_bits : Z) (mssleep_clock : Z → Z → Z)
    (fuel : nat) (o : jobject) (enterTime sleepTime : Z) (w : World) :
  objFieldId w = None →
  (classes w !! o = None ∨
   ∃ k, classes w !! o = Some k ∧
        field_ids w !! (k, "obj"%string, "Ljava/lang/Object;"%string) = None) →
  ∃ w' new,
    criticalNative long_bits mssleep_clock fuel o enterTime sleepTime w
    = Returned w' ∧
    log w' = new ++ log w ∧
    (new = [EvPrintf msg_GetObjectClass; EvGetObjectClass o None] ∨
     ∃ k, new = [EvPrintf msg_GetFieldID;
                 EvGetFieldID k "obj" "Ljava/lang/Object;" None;
                 EvGetObjectClass o (Some k)]) ∧
    count is_slot_access new = 0%nat ∧
    count is_create new = 0%nat ∧
    fields w' = fields w ∧
    weak_refs w' = weak_refs w ∧
    objFieldId w' = None.
Proof.
  intros Hc Hfail.
  assert (resolution o w = None) as Hr.
  { unfold resolution. rewrite Hc.
    destruct Hfail as [-> | (k & -> & Hk)]; [done|]. exact Hk. }
  exists (emit (EvPrintf (resolution_msg o w)) (after_resolution o w)),
         (EvPrintf (resolution_msg o w) :: resolution_log o w).
  split; [by apply criticalNative_unresolved|].
  split; [reflexivity|].
  unfold after_resolution, resolution_log, resolution_msg. cbn. rewrite Hc, Hr.
  destruct Hfail as [-> | (k & -> & ->)]; cbn.
  - split; [by left|]. done.
  - split; [right; by exists k|]. done.
Qed.

Lemma resolution_failure_witness :
  ∃ w' new,
    criticalNative 64 exact_sleep 0 1%positive 2000 500 sample_world_no_field
    = Returned w' ∧
    log w' = new ++ log sample_world_no_field ∧
    (new = [EvPrintf msg_GetObjectClass; EvGetObjectClass 1%positive None] ∨
     ∃ k, new = [EvPrintf msg_GetFieldID;
                 EvGetFieldID k "obj" "Ljava/lang/Object;" None;
                 EvGetObjectClass 1%positive (Some k)]) ∧
    count is_slot_access new = 0%nat ∧
    count is_create new = 0%nat ∧
    fields w' = fields sample_world_no_field ∧
    weak_refs w' = weak_refs sample_world_no_field ∧
    objFieldId w' = None.
Proof.
  apply (resolution_failure 64 exact_sleep 0 1%positive 2000 500
           sample_world_no_field).
  - reflexivity.
  - right. exists 3%positive. split; vm_compute; reflexivity.
Defined.

(** * Weak references alive during a call *)

Lemma suffix_app_cases {A} (s l1 l2 : list A) :
  s `suffix_of` l1 ++ l2 →
  s `suffix_of` l2 ∨ ∃ s1, s = s1 ++ l2 ∧ s1 `suffix_of` l1.
Proof.
  induction l1 as [|x l1 IH]; cbn [app]; intros Hs; [by left|].
  apply suffix_cons_cases in Hs as [-> | Hs].
  - right. by exists (x :: l1).
  - destruct (IH Hs) as [?|(s1 & -> & Hs1)]; [by left|].
    right. exists s1. split; [done|]. by apply suffix_cons_r.
Qed.

Lemma count_suffix_0 (p : Event → bool) (s l : list Event) :
  s `suffix_of` l → count p l = 0%nat → count p s = 0%nat.
Proof. intros [k ->]. rewrite count_app. lia. Qed.

Lemma weak_alive_quiet (l : list Event) :
  count is_create l = 0%nat → weak_alive l = [].
Proof.
  induction l as [|e l IH]; [done|]. rewrite count_cons.
  destruct e; cbn; intros Hc; try (apply IH; lia); [lia|].
  rewrite IH by lia. done.
Qed.

Lemma weak_alive_app_nil (a b : list Event) :
  weak_alive b = [] → weak_alive (a ++ b) = weak_alive a.
Proof.
  intros Hb. induction a as [|e a IH]; [done|].
  destruct e; cbn; by rewrite ?IH.
Qed.

(** A log made of quiet events, passes of the loop and quiet events again
    never has two weak references alive. *)
Lemma weak_alive_call_suffix obj ms its (post pre s : list Event) :
  count is_create post = 0%nat → count is_create pre = 0%nat →
  s `suffix_of` post ++ iterations_log obj ms its ++ pre →
  (length (weak_alive s) ≤ 1)%nat.
Proof.
  intros Hpost Hpre Hs.
  pose proof (weak_alive_quiet pre Hpre) as Hpre'.
  apply suffix_app_cases in Hs as [Hs|(s1 & -> & Hs1)].
  - apply suffix_app_cases in Hs as [Hs|(s1 & -> & Hs1)].
    + rewrite (weak_alive_quiet s); [cbn; lia|].
      by eapply count_suffix_0.
    + rewrite weak_alive_app_nil by done.
      by eapply weak_alive_iterations_suffix.
  - rewrite weak_alive_app_nil.
    + rewrite (weak_alive_quiet s1); [cbn; lia|]. by eapply count_suffix_0.
    + rewrite weak_alive_app_nil by done. apply weak_alive_iterations.
Qed.

(** The log and the tables after any call, whatever its outcome. *)
Lemma criticalNative_log (long_bits : Z) (mssleep_clock : Z → Z → Z)
    (fuel : nat) (o : jobject) (e s : Z) (w : World) :
  let r := criticalNative long_bits mssleep_clock fuel o e s w in
  ∃ post its obj pre,
    log (result_world r)
    = post ++ iterations_log obj (to_long long_bits s) its
      ++ pre ++ resolution_log o w ++ log w ∧
    (∀ p, p = is_create ∨ p = is_delete ∨ p = is_resolution →
          count p post = 0%nat ∧ count p pre = 0%nat) ∧
    (∀ f x, resolution o w = Some f → slot o f w = Some x → obj = x) ∧
    weak_refs (result_world r) = weak_refs w ∧
    objFieldId (result_world r) = resolution o w.
Proof.
  cbn zeta. destruct (resolution o w) as [f|] eqn:Hr.
  - destruct (slot o f w) as [x|] eqn:Hs.
    + destruct (criticalNative_armed_spec long_bits mssleep_clock fuel o e s w f x
                  Hr Hs) as (its & Hlog & Hw & Hc & _).
      cbn zeta in *.
      exists (if came_back (criticalNative long_bits mssleep_clock fuel o e s w)
              then [EvSetObjectField o (Some f) (Some x)] else []),
        its, x,
        [EvTime (time_reading w); EvSetObjectField o (Some f) None;
         EvGetObjectField o (Some f) (Some x)].
      split; [by rewrite Hlog|]. split.
      { intros p [-> | [-> | ->]];
          by destruct (came_back (criticalNative _ _ _ _ _ _ _)). }
      split; [intros f' x' [= <-]; congruence|]. by split.
    + rewrite (criticalNative_missing long_bits mssleep_clock fuel o e s w f Hr Hs).
      exists [EvPrintf msg_GetObjectField; EvGetObjectField o (Some f) None],
        [], o, [].
      cbn. rewrite Hr. split; [done|]. split.
      { by intros p [-> | [-> | ->]]. }
      split; [intros f' x' [= <-]; congruence|]. by split.
  - rewrite (criticalNative_unresolved long_bits mssleep_clock fuel o e s w Hr).
    exists [EvPrintf (resolution_msg o w)], [], o, [].
    cbn. rewrite Hr. split; [done|]. split.
    { by intros p [-> | [-> | ->]]. }
    by split.
Qed.

Lemma last_reading_snoc (its : list (jweak * Z)) (it : jweak * Z) (cur : Z) :
  last_reading (its ++ [it]) cur = last_reading its it.2.
Proof. by destruct its. Qed.

Lemma every_pass_tested_snoc (start enter cur : Z) (its : list (jweak * Z))
    (it : jweak * Z) :
  every_pass_tested start enter cur (its ++ [it])
  = every_pass_tested start enter it.2 its && (time_sub cur start <? enter).
Proof.
  induction its as [|it' its IH]; cbn [app every_pass_tested].
  - cbn. by destruct (_ <? _).
  - by rewrite IH, last_reading_snoc, andb_assoc.
Qed.

(** One pass, with its handle: the one the virtual machine has free. *)
Lemma loop_body_fresh (long_bits : Z) (mssleep_clock : Z → Z → Z)
    (obj : jobject) (s : Z) (w : World) :
  ∃ w', loop_body long_bits mssleep_clock obj s w = Normal (time_reading w') w' ∧
    weak_refs w' = weak_refs w ∧
    log w' = iteration_log obj (to_long long_bits s)
               (fresh (dom (weak_refs w)), time_reading w') ++ log w.
Proof.
  exists (result_world (loop_body long_bits mssleep_clock obj s w)).
  split; [reflexivity|]. cbn. split; [|done].
  apply delete_insert_id, not_elem_of_dom, is_fresh.
Qed.

(** The passes of a run of the loop are its iterations: each follows a
    test that succeeded, and the run ends at the first test that fails or
    when the fuel is spent. *)
Lemma while_loop_passes (long_bits : Z) (mssleep_clock : Z → Z → Z)
    (fuel : nat) (obj : jobject) (s start enter cur : Z) (w : World) :
  ∃ its,
    let r := while_loop long_bits mssleep_clock fuel obj s start enter cur w in
    log (result_world r) = iterations_log obj (to_long long_bits s) its ++ log w ∧
    weak_refs (result_world r) = weak_refs w ∧
    every_pass_tested start enter cur its = true ∧
    (∀ it, it ∈ its → it.1 = fresh (dom (weak_refs w))) ∧
    match r with
    | Normal cur' _ => cur' = last_reading its cur ∧ enter ≤ time_sub cur' start
    | Returned _ => False
    | OutOfFuel _ => length its = fuel
    end.
Proof.
  revert cur w. induction fuel as [|fuel IH]; intros cur w.
  - exists []. cbn. split; [done|]. split; [done|]. split; [done|].
    split; [|done]. by intros it ?%elem_of_nil.
  - rewrite while_loop_unfold.
    destruct (Z.ltb_spec (time_sub cur start) enter) as [Hlt|Hge].
    + destruct (loop_body_fresh long_bits mssleep_clock obj s w)
        as (w1 & -> & Hw1 & Hlog1).
      destruct (IH (time_reading w1) w1) as (its & Hlog & Hw & Ht & Hg & Hr).
      exists (its ++ [(fresh (dom (weak_refs w)), time_reading w1)]).
      cbn zeta in *. split.
      { rewrite Hlog, Hlog1, iterations_log_app. cbn [iterations_log].
        by rewrite app_nil_r, <- app_assoc. }
      split; [congruence|]. split.
      { rewrite every_pass_tested_snoc. cbn [snd]. rewrite Ht. cbn [andb].
        by apply Z.ltb_lt. }
      split.
      { intros it [Hit | ->%list_elem_of_singleton]%elem_of_app; [|done].
        rewrite <- Hw1. by apply Hg. }
      rewrite last_reading_snoc. cbn [snd].
      destruct (while_loop long_bits mssleep_clock fuel obj s start enter
                  (time_reading w1) w1); [done|done|].
      rewrite length_app. cbn. lia.
    + exists []. cbn. split; [done|]. split; [done|]. split; [done|].
      split; [|done]. by intros it ?%elem_of_nil.
Qed.

(** C5.  The events of any call are quiet events, then passes of the loop,
    then quiet events again, where every pass creates one weak reference to
    the referent, sleeps, deletes that same reference, sleeps and reads the
    clock; so at every point of the call (every suffix of its events) at
    most one weak reference created by it is alive, and at the end the
    table of weak references is as before the call.  The passes are the
    iterations of the loop, no more and no fewer: the test of line 66
    succeeded before each pass, and after the last one it failed (or the
    fuel was spent, one unit for each pass); a call that does not reach the
    loop has no pass.  The handle of every pass is one that was free. *)
Theorem one_weak_reference_at_a_time (long_bits : Z) (mssleep_clock : Z → Z → Z)
    (fuel : nat) (o : jobject) (enterTime sleepTime : Z) (w : World) :
  let r := criticalNative long_bits mssleep_clock fuel o enterTime sleepTime w in
  let start := time_reading w in
  let budget := enterTime `quot` 1000 in
  ∃ post its obj pre,
    log (result_world r)
    = (post ++ iterations_log obj (to_long long_bits sleepTime) its ++ pre)
      ++ log w ∧
    count is_create post = 0%nat ∧ count is_delete post = 0%nat ∧
    count is_create pre = 0%nat ∧ count is_delete pre = 0%nat ∧
    (∀ f x, resolution o w = Some f → slot o f w = Some x → obj = x) ∧
    (∀ s, s `suffix_of`
            post ++ iterations_log obj (to_long long_bits sleepTime) its ++ pre →
          (length (weak_alive s) ≤ 1)%nat) ∧
    weak_refs (result_world r) = weak_refs w ∧
    every_pass_tested start budget 0 its = true ∧
    (∀ it, it ∈ its → it.1 = fresh (dom (weak_refs w))) ∧
    match referent o w with
    | Some _ =>
        if came_back r then budget ≤ time_sub (last_reading its 0) start
        else length its = fuel
    | None => its = [] ∧ came_back r = true
    end.
Proof.
  cbn zeta.
  destruct (criticalNative_log long_bits mssleep_clock fuel o enterTime sleepTime w)
    as (_ & _ & _ & _ & _ & _ & _ & Hweak & _).
  cbn zeta in Hweak.
  destruct (resolution_log_quiet o w) as (_ & _ & Hrc & Hrd).
  assert (∀ post its obj pre,
            count is_create post = 0%nat → count is_create pre = 0%nat →
            ∀ s, s `suffix_of`
                   post ++ iterations_log obj (to_long long_bits sleepTime) its
                   ++ pre → (length (weak_alive s) ≤ 1)%nat) as Halive.
  { intros post its obj pre Hc1 Hc2 s Hs.
    exact (weak_alive_call_suffix obj _ its post pre s Hc1 Hc2 Hs). }
  unfold referent.
  destruct (resolution o w) as [f|] eqn:Hr; cbn [mbind option_bind].
  - destruct (slot o f w) as [x|] eqn:Hs.
    + revert Hweak.
      rewrite (criticalNative_armed long_bits mssleep_clock fuel o enterTime
                 sleepTime w f x Hr Hs).
      destruct (while_loop_passes long_bits mssleep_clock fuel x sleepTime
                  (time_reading w) (enterTime `quot` 1000) 0
                  (armed o f x (after_resolution o w)))
        as (its & Hlog & _ & Ht & Hg & Hres).
      cbn zeta in *.
      set (pre := [EvTime (time_reading w); EvSetObjectField o (Some f) None;
                   EvGetObjectField o (Some f) (Some x)] ++ resolution_log o w).
      assert (count is_create pre = 0%nat) as Hpc
        by (unfold pre; by rewrite count_app, Hrc).
      assert (count is_delete pre = 0%nat) as Hpd
        by (unfold pre; by rewrite count_app, Hrd).
      destruct (while_loop long_bits mssleep_clock fuel x sleepTime
                  (time_reading w) (enterTime `quot` 1000) 0
                  (armed o f x (after_resolution o w))) as [cur' w'| |w'];
        [|done|]; cbn [result_world] in Hlog; intros Hweak.
      * exists [EvSetObjectField o (Some f) (Some x)], its, x, pre.
        split.
        { cbn [SetObjectField result_world emit log with_fields].
          rewrite Hlog. unfold pre. cbn. by rewrite <- !app_assoc. }
        split; [done|]. split; [done|]. split; [done|]. split; [done|].
        split; [intros f' x' [= <-]; congruence|].
        split; [by apply Halive|]. split; [done|]. split; [done|].
        split; [done|]. cbn [SetObjectField came_back].
        destruct Hres as [-> Hres]. done.
      * exists [], its, x, pre.
        split.
        { cbn [result_world]. rewrite Hlog. unfold pre. cbn.
          by rewrite <- !app_assoc. }
        split; [done|]. split; [done|]. split; [done|]. split; [done|].
        split; [intros f' x' [= <-]; congruence|].
        split; [by apply Halive|]. split; [done|]. split; [done|].
        split; [done|]. done.
    + revert Hweak.
      rewrite (criticalNative_missing long_bits mssleep_clock fuel o enterTime
                 sleepTime w f Hr Hs). intros Hweak.
      exists ([EvPrintf msg_GetObjectField; EvGetObjectField o (Some f) None]
              ++ resolution_log o w), [], o, [].
      split; [cbn; by rewrite app_nil_r|].
      split; [by rewrite count_app, Hrc|]. split; [by rewrite count_app, Hrd|].
      split; [done|]. split; [done|].
      split; [intros f' x' [= <-]; congruence|].
      split; [apply Halive; [by rewrite count_app, Hrc|done]|].
      split; [done|]. split; [done|].
      split; [by intros it ?%elem_of_nil|]. done.
  - revert Hweak.
    rewrite (criticalNative_unresolved long_bits mssleep_clock fuel o enterTime
               sleepTime w Hr). intros Hweak.
    exists ([EvPrintf (resolution_msg o w)] ++ resolution_log o w), [], o, [].
    split; [cbn; by rewrite app_nil_r|].
    split; [by rewrite count_app, Hrc|]. split; [by rewrite count_app, Hrd|].
    split; [done|]. split; [done|]. split; [done|].
    split; [apply Halive; [by rewrite count_app, Hrc|done]|].
    split; [done|]. split; [done|].
    split; [by intros it ?%elem_of_nil|]. done.
Qed.

(** * The cached field id across calls *)

Lemma count_resolved_le (l : list Event) :
  (count is_resolved l ≤ count is_resolution l)%nat.
Proof.
  induction l as [|e l IH]; [done|]. rewrite !count_cons.
  destruct e as [| ? ? ? [?|] | | | | | | |]; cbn; lia.
Qed.

Lemma cache_step_refl (w : World) : cache_step w w [].
Proof.
  unfold cache_step. split; [done|]. split; [by intros|]. by intros ->.
Qed.

Lemma cache_step_trans (w1 w2 w3 : World) (new1 new2 : list Event) :
  cache_step w1 w2 new1 → cache_step w2 w3 new2 →
  cache_step w1 w3 (new2 ++ new1).
Proof.
  intros (Hl1 & Hs1 & Hn1) (Hl2 & Hs2 & Hn2). unfold cache_step.
  split; [by rewrite Hl2, Hl1, app_assoc|]. split.
  - intros f Hf. destruct (Hs1 f Hf) as [Hf2 Hc1].
    destruct (Hs2 f Hf2) as [Hf3 Hc2]. rewrite count_app. split; [done|lia].
  - intros Hnone. rewrite count_app, (Hn1 Hnone).
    destruct (objFieldId w2) as [f2|] eqn:Hf2.
    + destruct (Hs2 f2 eq_refl) as [-> Hc2].
      pose proof (count_resolved_le new2). lia.
    + rewrite (Hn2 eq_refl). lia.
Qed.

Lemma criticalNative_cache (long_bits : Z) (mssleep_clock : Z → Z → Z)
    (fuel : nat) (o : jobject) (e s : Z) (w : World) :
  ∃ new,
    cache_step w (result_world (criticalNative long_bits mssleep_clock fuel o e s w))
      new.
Proof.
  destruct (criticalNative_log long_bits mssleep_clock fuel o e s w)
    as (post & its & obj & pre & Hlog & Hq & _ & _ & Hc).
  cbn zeta in *.
  destruct (Hq is_resolution) as [Hq1 Hq2]; [by auto|].
  pose proof (resolutions_iterations obj (to_long long_bits s) its) as Hq3.
  exists (post ++ iterations_log obj (to_long long_bits s) its ++ pre
          ++ resolution_log o w).
  unfold cache_step. rewrite Hc. split; [by rewrite Hlog, <- !app_assoc|].
  unfold resolution, resolution_log. split.
  - intros f ->. split; [done|]. rewrite !count_app, Hq1, Hq2, Hq3. done.
  - intros ->. rewrite !count_app.
    pose proof (count_resolved_le post).
    pose proof (count_resolved_le pre).
    pose proof (count_resolved_le (iterations_log obj (to_long long_bits s) its)).
    replace (count is_resolved post) with 0%nat by lia.
    replace (count is_resolved pre) with 0%nat by lia.
    replace (count is_resolved (iterations_log obj (to_long long_bits s) its))
      with 0%nat by lia.
    destruct (classes w !! o) as [k|]; cbn; [|done].
    by destruct (field_ids w !! _).
Qed.

(** C8.  Over any sequence of calls in one process: a field id that is
    cached stays cached, with the same value, and no lookup of the class or
    of the field happens any more; and the calls resolve the field (a
    [GetFieldID] that answers non-null) at most once in all, exactly once
    when the cache goes from empty to filled. *)
Theorem objFieldId_resolved_once (long_bits : Z) (mssleep_clock : Z → Z → Z)
    (cs : list Call) (w : World) :
  let w' := result_world (run_calls long_bits mssleep_clock cs w) in
  ∃ new,
    log w' = new ++ log w ∧
    (∀ f, objFieldId w = Some f →
          objFieldId w' = Some f ∧ count is_resolution new = 0%nat) ∧
    (objFieldId w = None →
     count is_resolved new = if objFieldId w' is Some _ then 1%nat else 0%nat) ∧
    (count is_resolved new ≤ 1)%nat.
Proof.
  cbn zeta.
  assert (∃ new, cache_step w
            (result_world (run_calls long_bits mssleep_clock cs w)) new)
    as (new & Hstep).
  { revert w. induction cs as [|c cs IH]; intros w.
    - exists []. apply cache_step_refl.
    - cbn [run_calls].
      destruct (criticalNative_cache long_bits mssleep_clock (call_fuel c)
                  (call_this c) (call_enterTime c) (call_sleepTime c) w)
        as (new1 & H1).
      destruct (criticalNative long_bits mssleep_clock (call_fuel c)
                  (call_this c) (call_enterTime c) (call_sleepTime c) w)
        as [[] w1|w1|w1]; cbn [result_world] in H1.
      + destruct (IH w1) as (new2 & H2). exists (new2 ++ new1).
        by eapply cache_step_trans.
      + destruct (IH w1) as (new2 & H2). exists (new2 ++ new1).
        by eapply cache_step_trans.
      + by exists new1. }
  exists new. destruct Hstep as (Hl & Hs & Hn).
  split; [done|]. split; [done|]. split; [done|].
  destruct (objFieldId w) as [f|] eqn:Hf.
  - destruct (Hs f eq_refl) as [_ Hc]. pose proof (count_resolved_le new). lia.
  - rewrite (Hn eq_refl). destruct (objFieldId (result_world _)); lia.
Qed.

(** * The first test of the loop *)

(** A call that reaches the loop creates and deletes one weak reference
    per pass; whether there is a first pass is decided by the test
    [0 - start_time < enterTime / 1000]. *)
Lemma criticalNative_passes (long_bits : Z) (mssleep_clock : Z → Z → Z)
    (fuel : nat) (o : jobject) (e s : Z) (w : World) (f : jfieldID) (x : jobject) :
  resolution o w = Some f → slot o f w = Some x →
  let r := criticalNative long_bits mssleep_clock fuel o e s w in
  ∃ its : list (jweak * Z),
    creations (log (result_world r)) = (length its + creations (log w))%nat ∧
    deletions (log (result_world r)) = (length its + deletions (log w))%nat ∧
    (time_sub 0 (time_reading w) < e `quot` 1000 → (0 < fuel)%nat →
     (0 < length its)%nat) ∧
    (e `quot` 1000 ≤ time_sub 0 (time_reading w) → length its = 0%nat) ∧
    (came_back r = false → length its = fuel).
Proof.
  intros Hr Hs.
  destruct (criticalNative_armed_spec long_bits mssleep_clock fuel o e s w f x
              Hr Hs) as (its & Hlog & _ & _ & _ & _ & _ & Hcut & Hin & Hout).
  cbn zeta in *. exists its.
  destruct (resolution_log_quiet o w) as (_ & _ & Hqc & Hqd).
  unfold creations, deletions in *. rewrite Hlog.
  cbn [armed emit with_fields after_resolution log].
  rewrite !count_app, !count_cons, !count_app, Hqc, Hqd.
  fold (creations (iterations_log x (to_long long_bits s) its)).
  fold (deletions (iterations_log x (to_long long_bits s) its)).
  rewrite creations_iterations, deletions_iterations.
  split; [by destruct (came_back _)|]. split; [by destruct (came_back _)|].
  split.
  { intros H1 H2. specialize (Hin H1 H2). destruct its; [done|cbn; lia]. }
  split.
  - intros H1. by rewrite (Hout H1).
  - intros H1. by destruct (Hcut H1).
Qed.

Lemma time_sub_0 (start : Z) : - 2 ^ 63 < start < 2 ^ 63 → time_sub 0 start = - start.
Proof. intros H. unfold time_sub. rewrite wrap64_id; [lia|]. unfold in_int64. lia. Qed.

Lemma quot_1000_nonneg (e : Z) : - 1000 < e → 0 ≤ e `quot` 1000.
Proof.
  intros He. destruct (Z.le_gt_cases 0 e) as [Hpos|Hneg].
  - apply Z.quot_pos; lia.
  - replace e with (- - e) by lia.
    rewrite Z.quot_opp_l, Z.quot_small; lia.
Qed.

(** C2, as the routine has it.  In a call that reaches the loop the budget
    is [enterTime / 1000] truncated towards zero and the start time is the
    clock reading; the loop runs while [current_time - start_time] is below
    the budget, [current_time] being 0 at the first test and the clock
    reading taken at the end of each pass afterwards.  Hence with
    [enterTime = 0] the body is run, and a weak reference created, whenever
    the start time is positive; the body is skipped only for a start time
    that is not positive. *)
Theorem zero_duration_first_pass (long_bits : Z) (mssleep_clock : Z → Z → Z)
    (fuel : nat) (o : jobject) (enterTime sleepTime : Z) (w : World)
    (f : jfieldID) (x : jobject) :
  resolution o w = Some f →
  slot o f w = Some x →
  let r := criticalNative long_bits mssleep_clock fuel o enterTime sleepTime w in
  let start_time := time_reading w in
  let budget := enterTime `quot` 1000 in
  r = match while_loop long_bits mssleep_clock fuel x sleepTime start_time budget 0
              (armed o f x (after_resolution o w)) with
      | Normal _ w' => SetObjectField o (Some f) (Some x) w'
      | Returned w' => Returned w'
      | OutOfFuel w' => OutOfFuel w'
      end ∧
  (∀ n cur w1,
     while_loop long_bits mssleep_clock (S n) x sleepTime start_time budget cur w1
     = if time_sub cur start_time <? budget then
         match loop_body long_bits mssleep_clock x sleepTime w1 with
         | Normal cur' w2 =>
             while_loop long_bits mssleep_clock n x sleepTime start_time budget
               cur' w2
         | Returned w2 => Returned w2
         | OutOfFuel w2 => OutOfFuel w2
         end
       else Normal cur w1) ∧
  (∀ w1, ∃ w2, loop_body long_bits mssleep_clock x sleepTime w1
               = Normal (time_reading w2) w2) ∧
  (enterTime = 0 → 0 < start_time → (0 < fuel)%nat →
   (creations (log w) < creations (log (result_world r)))%nat) ∧
  (enterTime = 0 → - 2 ^ 63 < start_time ≤ 0 →
   creations (log (result_world r)) = creations (log w)).
Proof.
  intros Hr Hs r start_time budget.
  split; [by apply criticalNative_armed|].
  split; [intros n cur w1; apply while_loop_unfold|].
  split.
  { intros w1.
    destruct (loop_body_spec long_bits mssleep_clock x sleepTime w1)
      as (g & w2 & H & _). by exists w2. }
  destruct (criticalNative_passes long_bits mssleep_clock fuel o enterTime
              sleepTime w f x Hr Hs) as (its & Hc & _ & Hin & Hout & _).
  cbn zeta in *. fold r in Hc. rewrite Hc.
  pose proof (wrap64_range (now w `div` 1000)) as Hrange.
  fold (time_reading w) in Hrange. fold start_time in Hrange, Hin, Hout.
  unfold in_int64 in Hrange.
  split.
  - intros -> Hpos Hfuel. rewrite time_sub_0 in Hin by lia.
    change (0 `quot` 1000) with 0 in Hin. specialize (Hin ltac:(lia) Hfuel). lia.
  - intros -> Hneg. rewrite time_sub_0 in Hout by lia.
    change (0 `quot` 1000) with 0 in Hout. rewrite Hout by lia. done.
Qed.

(** With [enterTime = 0] and the clock of [sample_world] the body runs
    once: the call creates a weak reference. *)
Lemma zero_duration_counterexample :
  let r := criticalNative 64 exact_sleep 2 1%positive 0 500 sample_world in
  resolution 1%positive sample_world = Some 7%positive ∧
  slot 1%positive 7%positive sample_world = Some 9%positive ∧
  came_back r = true ∧
  creations (log sample_world) = 0%nat ∧
  creations (log (result_world r)) = 1%nat ∧
  creations (log (result_world r)) ≠ 0%nat.
Proof. vm_compute. repeat split; congruence. Qed.

Lemma zero_duration_first_pass_witness :
  let r := criticalNative 64 exact_sleep 2 1%positive 0 500 sample_world in
  let start_time := time_reading sample_world in
  let budget := 0 `quot` 1000 in
  r = match while_loop 64 exact_sleep 2 9%positive 500 start_time budget 0
              (armed 1%positive 7%positive 9%positive
                 (after_resolution 1%positive sample_world)) with
      | Normal _ w' => SetObjectField 1%positive (Some 7%positive) (Some 9%positive) w'
      | Returned w' => Returned w'
      | OutOfFuel w' => OutOfFuel w'
      end ∧
  (∀ n cur w1,
     while_loop 64 exact_sleep (S n) 9%positive 500 start_time budget cur w1
     = if time_sub cur start_time <? budget then
         match loop_body 64 exact_sleep 9%positive 500 w1 with
         | Normal cur' w2 =>
             while_loop 64 exact_sleep n 9%positive 500 start_time budget cur' w2
         | Returned w2 => Returned w2
         | OutOfFuel w2 => OutOfFuel w2
         end
       else Normal cur w1) ∧
  (∀ w1, ∃ w2, loop_body 64 exact_sleep 9%positive 500 w1
               = Normal (time_reading w2) w2) ∧
  (0 = 0 → 0 < start_time → (0 < 2)%nat →
   (creations (log sample_world) < creations (log (result_world r)))%nat) ∧
  (0 = 0 → - 2 ^ 63 < start_time ≤ 0 →
   creations (log (result_world r)) = creations (log sample_world)).
Proof.
  apply (zero_duration_first_pass 64 exact_sleep 2 1%positive 0 500 sample_world
           7%positive 9%positive); vm_compute; reflexivity.
Defined.

(** C9, as the routine has it.  In a call that reaches the loop (and has
    fuel for the first test) the body runs at least once, so that a weak
    reference is created and deleted, exactly when the first test
    [0 - start_time < enterTime / 1000] succeeds; it does for every
    [enterTime] above -1000 when the start time is positive, and it does
    not, so that nothing is created, for an [enterTime] with
    [enterTime / 1000 <= - start_time]. *)
Theorem first_pass_condition (long_bits : Z) (mssleep_clock : Z → Z → Z)
    (fuel : nat) (o : jobject) (enterTime sleepTime : Z) (w : World)
    (f : jfieldID) (x : jobject) :
  resolution o w = Some f →
  slot o f w = Some x →
  (0 < fuel)%nat →
  let r := criticalNative long_bits mssleep_clock fuel o enterTime sleepTime w in
  let start_time := time_reading w in
  (time_sub 0 start_time < enterTime `quot` 1000 →
   (creations (log w) < creations (log (result_world r)))%nat ∧
   (deletions (log w) < deletions (log (result_world r)))%nat) ∧
  (- 1000 < enterTime → 0 < start_time →
   (creations (log w) < creations (log (result_world r)))%nat ∧
   (deletions (log w) < deletions (log (result_world r)))%nat) ∧
  (enterTime `quot` 1000 ≤ time_sub 0 start_time →
   creations (log (result_world r)) = creations (log w) ∧
   deletions (log (result_world r)) = deletions (log w)) ∧
  (0 < start_time → enterTime `quot` 1000 ≤ - start_time →
   creations (log (result_world r)) = creations (log w) ∧
   deletions (log (result_world r)) = deletions (log w)).
Proof.
  intros Hr Hs Hfuel r start_time.
  destruct (criticalNative_passes long_bits mssleep_clock fuel o enterTime
              sleepTime w f x Hr Hs) as (its & Hc & Hd & Hin & Hout & _).
  cbn zeta in *. fold r in Hc, Hd. rewrite Hc, Hd.
  pose proof (wrap64_range (now w `div` 1000)) as Hrange.
  fold (time_reading w) in Hrange. fold start_time in Hrange, Hin, Hout.
  unfold in_int64 in Hrange.
  split; [intros H; specialize (Hin H Hfuel); lia|].
  split.
  { intros He Hpos. pose proof (quot_1000_nonneg enterTime He).
    rewrite time_sub_0 in Hin by lia. specialize (Hin ltac:(lia) Hfuel). lia. }
  split; [intros H; rewrite (Hout H); done|].
  intros Hpos Hle. rewrite time_sub_0 in Hout by lia. rewrite (Hout Hle). done.
Qed.

Lemma first_pass_condition_witness :
  let r := criticalNative 64 exact_sleep 2 1%positive 0 500 sample_world in
  let start_time := time_reading sample_world in
  (time_sub 0 start_time < 0 `quot` 1000 →
   (creations (log sample_world) < creations (log (result_world r)))%nat ∧
   (deletions (log sample_world) < deletions (log (result_world r)))%nat) ∧
  (- 1000 < 0 → 0 < start_time →
   (creations (log sample_world) < creations (log (result_world r)))%nat ∧
   (deletions (log sample_world) < deletions (log (result_world r)))%nat) ∧
  (0 `quot` 1000 ≤ time_sub 0 start_time →
   creations (log (result_world r)) = creations (log sample_world) ∧
   deletions (log (result_world r)) = deletions (log sample_world)) ∧
  (0 < start_time → 0 `quot` 1000 ≤ - start_time →
   creations (log (result_world r)) = creations (log sample_world) ∧
   deletions (log (result_world r)) = deletions (log sample_world)).
Proof.
  apply (first_pass_condition 64 exact_sleep 2 1%positive 0 500 sample_world
           7%positive 9%positive); [vm_compute; reflexivity..|lia].
Defined.

(** With a duration of minus 1.8e12 milliseconds and the clock of
    [sample_world] the call reaches the loop and the body never runs. *)
Lemma first_pass_counterexample :
  let r := criticalNative 64 exact_sleep 2 1%positive (-1800000000000) 500
             sample_world in
  resolution 1%positive sample_world = Some 7%positive ∧
  slot 1%positive 7%positive sample_world = Some 9%positive ∧
  came_back r = true ∧
  creations (log (result_world r)) = 0%nat ∧
  deletions (log (result_world r)) = 0%nat ∧
  ¬ (1 ≤ creations (log (result_world r)))%nat.
Proof. vm_compute. repeat split; try congruence. lia. Qed.

(** * Termination by elapsed time *)

Lemma quot_1000_bound (e : Z) : in_int64 e → e `quot` 1000 * 1000 ≤ 2 ^ 63.
Proof.
  unfold in_int64. intros He. destruct (Z.le_gt_cases 0 e) as [Hpos|Hneg].
  - pose proof (Z.mul_quot_le e 1000 Hpos ltac:(lia)). lia.
  - pose proof (Z.quot_opp_l (- e) 1000 ltac:(lia)) as Hq.
    replace (- - e) with e in Hq by lia.
    pose proof (Z.quot_pos (- e) 1000 ltac:(lia) ltac:(lia)). lia.
Qed.

Section Elapsed.

Variable long_bits : Z.
Variable mssleep_clock : Z → Z → Z.
Variable J : Z.
Hypothesis sleep_advances : ∀ ms t, t < mssleep_clock ms t.
Hypothesis sleep_bounded : ∀ ms t, mssleep_clock ms t ≤ t + J.

(** A call that reaches the loop comes back, after at least
    [e / 1000] seconds of the clock; when the first test succeeds the clock
    has gone through the two sleeps of the first pass at least. *)
Lemma armed_run_terminates (fuel : nat) (o : jobject) (e s : Z) (w : World)
    (f : jfieldID) (x : jobject) :
  resolution o w = Some f → slot o f w = Some x →
  in_int64 e → 0 ≤ now w → now w + 2 * J < 2 ^ 62 * 1000 →
  (enough_fuel e w ≤ fuel)%nat →
  ∃ w',
    criticalNative long_bits mssleep_clock fuel o e s w = Normal tt w' ∧
    e `quot` 1000 ≤ time_reading w' - time_reading w ∧
    now w ≤ now w' < 2 ^ 63 * 1000 ∧
    (time_sub 0 (time_reading w) < e `quot` 1000 →
     mssleep_clock (to_long long_bits s)
       (mssleep_clock (to_long long_bits s) (now w)) ≤ now w').
Proof.
  intros Hr Hs He Hn HJ Hfuel. unfold enough_fuel in Hfuel.
  pose proof (quot_1000_bound e He) as HE.
  pose proof (sleep_advances 0 0). pose proof (sleep_bounded 0 0).
  rewrite (criticalNative_armed long_bits mssleep_clock fuel o e s w f x Hr Hs).
  assert (time_reading w = now w `div` 1000) as Htr
    by (apply time_reading_exact; lia).
  assert (0 ≤ now w `div` 1000 < 2 ^ 63) as Hrange.
  { split; [apply Z.div_pos; lia | apply Z.div_lt_upper_bound; lia]. }
  assert (now w `div` 1000 * 1000 ≤ now w) as Hfloor.
  { pose proof (Z.mul_div_le (now w) 1000 ltac:(lia)). lia. }
  destruct fuel as [|fuel]; [lia|].
  rewrite while_loop_unfold, Htr, time_sub_0 by lia.
  destruct (Z.ltb_spec (- (now w `div` 1000)) (e `quot` 1000)) as [Hlt|Hge].
  - destruct (loop_body_spec long_bits mssleep_clock x s
                (armed o f x (after_resolution o w)))
      as (g & w1 & -> & _ & Hnow & _).
    change (now (armed o f x (after_resolution o w))) with (now w) in Hnow.
    pose proof (sleep_advances (to_long long_bits s) (now w)).
    pose proof (sleep_bounded (to_long long_bits s) (now w)).
    pose proof (sleep_advances (to_long long_bits s)
                  (mssleep_clock (to_long long_bits s) (now w))).
    pose proof (sleep_bounded (to_long long_bits s)
                  (mssleep_clock (to_long long_bits s) (now w))).
    destruct (while_loop_terminates long_bits mssleep_clock J sleep_advances
                sleep_bounded fuel x s (now w `div` 1000) (e `quot` 1000) w1)
      as (w' & -> & Hle & Hel); try lia.
    eexists. split; [reflexivity|].
    unfold time_reading in *. cbn [now emit with_fields].
    split; [lia|]. split; [lia|]. intros _. lia.
  - eexists. split; [reflexivity|].
    unfold time_reading in *. cbn [now emit with_fields armed after_resolution].
    rewrite Htr. split; [lia|]. split; [lia|]. intros. lia.
Qed.

End Elapsed.

(** C6.  Let every sleep advance the millisecond clock, by [J]
    milliseconds at most, and let the clock be far from the end of
    [time_t].  Then every call comes back once it is given enough fuel:
    the loop ends because of the clock, whatever the arguments.  When the
    call has reached the loop, the clock has advanced by at least
    [enterTime / 1000] whole seconds between entry and return.  The loop
    counts nothing: a run that is cut off after [fuel] tests has made
    [fuel] passes.  And the routine sets no upper limit: for every bound
    [B] there is such a clock with which the same call takes more than [B]
    seconds. *)
Theorem loop_exits_by_elapsed_time (long_bits : Z) (mssleep_clock : Z → Z → Z)
    (J : Z) (o : jobject) (enterTime sleepTime : Z) (w : World) :
  (∀ ms t, t < mssleep_clock ms t) →
  (∀ ms t, mssleep_clock ms t ≤ t + J) →
  in_int64 enterTime →
  0 ≤ now w →
  now w + 2 * J < 2 ^ 62 * 1000 →
  (∀ fuel, (enough_fuel enterTime w ≤ fuel)%nat →
     let r := criticalNative long_bits mssleep_clock fuel o enterTime sleepTime w in
     came_back r = true ∧
     now w ≤ now (result_world r) ∧
     (∀ f x, resolution o w = Some f → slot o f w = Some x →
        enterTime `quot` 1000
        ≤ time_reading (result_world r) - time_reading w)) ∧
  (∀ fuel f x,
     resolution o w = Some f → slot o f w = Some x →
     let r := criticalNative long_bits mssleep_clock fuel o enterTime sleepTime w in
     came_back r = false →
     creations (log (result_world r)) = (fuel + creations (log w))%nat) ∧
  (∀ B f x,
     resolution o w = Some f → slot o f w = Some x →
     - 1000 < enterTime → 1000 ≤ now w →
     0 ≤ B → now w + 2 * ((B + 1) * 1000) < 2 ^ 62 * 1000 →
     ∃ mssleep_clock' J' fuel,
       (∀ ms t, t < mssleep_clock' ms t) ∧
       (∀ ms t, mssleep_clock' ms t ≤ t + J') ∧
       let r := criticalNative long_bits mssleep_clock' fuel o enterTime
                  sleepTime w in
       came_back r = true ∧
       B < time_reading (result_world r) - time_reading w).
Proof.
  intros Hadv Hbound He Hn HJ. split.
  - intros fuel Hfuel. cbn zeta.
    destruct (resolution o w) as [f|] eqn:Hr.
    + destruct (slot o f w) as [x|] eqn:Hs.
      * destruct (armed_run_terminates long_bits mssleep_clock J Hadv Hbound
                    fuel o enterTime sleepTime w f x Hr Hs He Hn HJ Hfuel)
          as (w' & -> & Hel & Hnow & _).
        cbn. split; [done|]. split; [lia|].
        intros f' x' [= <-] Hs'. done.
      * rewrite (criticalNative_missing long_bits mssleep_clock fuel o enterTime
                   sleepTime w f Hr Hs).
        cbn. split; [done|]. split; [lia|]. intros f' x' [= <-]. congruence.
    + rewrite (criticalNative_unresolved long_bits mssleep_clock fuel o enterTime
                 sleepTime w Hr).
      cbn. split; [done|]. split; [lia|]. intros; congruence.
  - split.
    { intros fuel f x Hr Hs r Hcut.
      destruct (criticalNative_passes long_bits mssleep_clock fuel o enterTime
                  sleepTime w f x Hr Hs) as (its & Hc & _ & _ & _ & Hlen).
      cbn zeta in Hc, Hlen. fold r in Hc, Hlen. by rewrite Hc, (Hlen Hcut). }
    intros B f x Hr Hs Hlow Hstart HB Hfar.
    set (step := (B + 1) * 1000).
    exists (λ _ t, t + step), step, (enough_fuel enterTime w).
    assert (∀ ms t : Z, t < t + step) as Hadv' by (intros; unfold step; lia).
    assert (∀ ms t : Z, t + step ≤ t + step) as Hbound' by (intros; lia).
    split; [exact Hadv'|]. split; [exact Hbound'|]. cbn zeta.
    destruct (armed_run_terminates long_bits (λ _ t, t + step) step Hadv' Hbound'
                (enough_fuel enterTime w) o enterTime sleepTime w f x Hr Hs He Hn
                ltac:(unfold step; lia) ltac:(lia))
      as (w' & -> & _ & Hnow & Hfirst).
    cbn [came_back result_world]. split; [done|].
    assert (time_reading w = now w `div` 1000) as Htr
      by (apply time_reading_exact; lia).
    assert (1 ≤ now w `div` 1000 < 2 ^ 63) as Hrange.
    { split; [apply Z.div_le_lower_bound; lia | apply Z.div_lt_upper_bound; lia]. }
    pose proof (quot_1000_nonneg enterTime Hlow) as HE.
    rewrite Htr, time_sub_0 in Hfirst by lia. specialize (Hfirst ltac:(lia)).
    rewrite Htr, (time_reading_exact w') by lia.
    assert (now w `div` 1000 + 2 * (B + 1) ≤ now w' `div` 1000) as Hdiv.
    { rewrite <- Z.div_add by lia. apply Z.div_le_mono; [lia|].
      unfold step in Hfirst. lia. }
    lia.
Qed.

Lemma loop_exits_by_elapsed_time_witness :
  (∀ fuel, (enough_fuel 2000 sample_world ≤ fuel)%nat →
     let r := criticalNative 64 capped_sleep fuel 1%positive 2000 500 sample_world in
     came_back r = true ∧
     now sample_world ≤ now (result_world r) ∧
     (∀ f x, resolution 1%positive sample_world = Some f →
             slot 1%positive f sample_world = Some x →
        2000 `quot` 1000
        ≤ time_reading (result_world r) - time_reading sample_world)) ∧
  (∀ fuel f x,
     resolution 1%positive sample_world = Some f →
     slot 1%positive f sample_world = Some x →
     let r := criticalNative 64 capped_sleep fuel 1%positive 2000 500
                sample_world in
     came_back r = false →
     creations (log (result_world r)) = (fuel + creations (log sample_world))%nat) ∧
  (∀ B f x,
     resolution 1%positive sample_world = Some f →
     slot 1%positive f sample_world = Some x →
     - 1000 < 2000 → 1000 ≤ now sample_world →
     0 ≤ B → now sample_world + 2 * ((B + 1) * 1000) < 2 ^ 62 * 1000 →
     ∃ mssleep_clock' J' fuel,
       (∀ ms t, t < mssleep_clock' ms t) ∧
       (∀ ms t, mssleep_clock' ms t ≤ t + J') ∧
       let r := criticalNative 64 mssleep_clock' fuel 1%positive 2000 500
                  sample_world in
       came_back r = true ∧
       B < time_reading (result_world r) - time_reading sample_world).
Proof.
  apply (loop_exits_by_elapsed_time 64 capped_sleep 60000
           1%positive 2000 500 sample_world).
  - intros ms t. unfold capped_sleep. lia.
  - intros ms t. unfold capped_sleep. lia.
  - unfold in_int64. lia.
  - cbn. lia.
  - cbn. lia.
Defined.

(** * The scenario of two seconds in steps of 500 milliseconds *)

Lemma time_reading_plus (w w' : World) (k : Z) :
  0 ≤ now w → 0 ≤ k → now w + k * 1000 < 2 ^ 63 * 1000 →
  now w' = now w + k * 1000 →
  time_reading w' = time_reading w + k.
Proof.
  intros Hn Hk Hfar Hnow.
  rewrite (time_reading_exact w), (time_reading_exact w') by lia.
  rewrite Hnow. apply Z.div_add. lia.
Qed.

(** C7, as the routine has it.  With a slot holding [x], a duration of 2000
    milliseconds, steps of 500 milliseconds and sleeps that take exactly
    the 500 milliseconds asked for, every pass of the loop takes one
    second, so the loop makes exactly two passes: two weak references are
    created and deleted, the clock readings are one and two seconds after
    the start, and the slot holds [x] again on return. *)
Theorem scenario_two_passes (long_bits : Z) (mssleep_clock : Z → Z → Z)
    (fuel : nat) (o : jobject) (w : World) (f : jfieldID) (x : jobject) :
  to_long long_bits 500 = 500 →
  (∀ t, mssleep_clock 500 t = t + 500) →
  resolution o w = Some f →
  slot o f w = Some x →
  0 ≤ now w < 2 ^ 62 * 1000 →
  (3 ≤ fuel)%nat →
  ∃ w' g1 g2,
    criticalNative long_bits mssleep_clock fuel o 2000 500 w = Normal tt w' ∧
    slot o f w' = Some x ∧
    log w' = EvSetObjectField o (Some f) (Some x)
             :: iterations_log x 500
                  [(g2, time_reading w + 2); (g1, time_reading w + 1)]
             ++ EvTime (time_reading w)
             :: EvSetObjectField o (Some f) None
             :: EvGetObjectField o (Some f) (Some x)
             :: resolution_log o w ++ log w ∧
    creations (log w') = (creations (log w) + 2)%nat ∧
    deletions (log w') = (deletions (log w) + 2)%nat.
Proof.
  intros Hlong Hsleep Hr Hs Hn Hfuel.
  set (a := armed o f x (after_resolution o w)).
  assert (0 ≤ time_reading w < 2 ^ 62) as Hstart.
  { rewrite time_reading_exact by lia.
    split; [apply Z.div_pos; lia | apply Z.div_lt_upper_bound; lia]. }
  (* the first pass *)
  destruct (loop_body_spec long_bits mssleep_clock x 500 a)
    as (g1 & w1 & Hb1 & Hp1 & Hnow1 & Hlog1).
  rewrite Hlong in Hnow1, Hlog1. rewrite !Hsleep in Hnow1.
  change (now a) with (now w) in Hnow1.
  assert (time_reading w1 = time_reading w + 1) as Ht1
    by (apply time_reading_plus; lia).
  (* the second pass *)
  destruct (loop_body_spec long_bits mssleep_clock x 500 w1)
    as (g2 & w2 & Hb2 & Hp2 & Hnow2 & Hlog2).
  rewrite Hlong in Hnow2, Hlog2. rewrite !Hsleep in Hnow2.
  assert (time_reading w2 = time_reading w + 2) as Ht2
    by (apply time_reading_plus; lia).
  (* three tests *)
  assert (while_loop long_bits mssleep_clock 3 x 500 (time_reading w)
            (2000 `quot` 1000) 0 a = Normal (time_reading w2) w2) as Hloop.
  { change (2000 `quot` 1000) with 2.
    rewrite while_loop_unfold, time_sub_0 by lia.
    destruct (Z.ltb_spec (- time_reading w) 2) as [_|]; [|lia].
    rewrite Hb1, while_loop_unfold, Ht1, time_sub_exact by lia.
    destruct (Z.ltb_spec (time_reading w + 1 - time_reading w) 2) as [_|]; [|lia].
    rewrite Hb2, while_loop_unfold, Ht2, time_sub_exact by lia.
    by destruct (Z.ltb_spec (time_reading w + 2 - time_reading w) 2) as [|_]; [lia|]. }
  apply (while_loop_fuel_mono long_bits mssleep_clock 3 fuel) in Hloop; [|done].
  exists (emit (EvSetObjectField o (Some f) (Some x))
            (with_fields (<[(o, f) := x]> (fields w2)) w2)), g1, g2.
  assert (log w2 = iterations_log x 500
                     [(g2, time_reading w + 2); (g1, time_reading w + 1)]
                   ++ EvTime (time_reading w)
                   :: EvSetObjectField o (Some f) None
                   :: EvGetObjectField o (Some f) (Some x)
                   :: resolution_log o w ++ log w) as Hlog.
  { rewrite Hlog2, Hlog1, Ht2, Ht1. reflexivity. }
  split.
  { rewrite (criticalNative_armed long_bits mssleep_clock fuel o 2000 500 w f x
               Hr Hs). fold a. by rewrite Hloop. }
  split; [unfold slot; cbn; apply lookup_insert_eq|].
  split; [cbn; by rewrite Hlog|].
  destruct (resolution_log_quiet o w) as (_ & _ & Hqc & Hqd).
  unfold creations, deletions. cbn [log emit with_fields]. rewrite Hlog.
  cbn [iterations_log iteration_log app fst snd].
  rewrite !count_cons, !count_app, Hqc, Hqd. cbn. lia.
Qed.

Lemma scenario_two_passes_witness :
  ∃ w' g1 g2,
    criticalNative 64 exact_sleep 3 1%positive 2000 500 sample_world
    = Normal tt w' ∧
    slot 1%positive 7%positive w' = Some 9%positive ∧
    log w' = EvSetObjectField 1%positive (Some 7%positive) (Some 9%positive)
             :: iterations_log 9%positive 500
                  [(g2, time_reading sample_world + 2);
                   (g1, time_reading sample_world + 1)]
             ++ EvTime (time_reading sample_world)
             :: EvSetObjectField 1%positive (Some 7%positive) None
             :: EvGetObjectField 1%positive (Some 7%positive) (Some 9%positive)
             :: resolution_log 1%positive sample_world ++ log sample_world ∧
    creations (log w') = (creations (log sample_world) + 2)%nat ∧
    deletions (log w') = (deletions (log sample_world) + 2)%nat.
Proof.
  apply (scenario_two_passes 64 exact_sleep 3 1%positive sample_world
           7%positive 9%positive).
  - reflexivity.
  - intros t. reflexivity.
  - vm_compute. reflexivity.
  - vm_compute. reflexivity.
  - cbn. lia.
  - lia.
Defined.

(** In the scenario as the spec has it the loop makes two passes, not
    about four. *)
Lemma scenario_counterexample :
  let r := criticalNative 64 exact_sleep 10 1%positive 2000 500 sample_world in
  slot 1%positive 7%positive sample_world = Some 9%positive ∧
  came_back r = true ∧
  slot 1%positive 7%positive (result_world r) = Some 9%positive ∧
  creations (log (result_world r)) = 2%nat ∧
  deletions (log (result_world r)) = 2%nat ∧
  ¬ (3 ≤ creations (log (result_world r)) ≤ 5)%nat.
Proof. vm_compute. repeat split; try congruence. lia. Qed.

(** * The time stamp of AccessBridgeDebug *)

Lemma quot_in_int64 (t d : Z) : 0 < d → in_int64 t → in_int64 (t `quot` d).
Proof.
  unfold in_int64. intros Hd Ht.
  destruct (Z.le_gt_cases 0 t) as [Hpos|Hneg].
  - pose proof (Z.quot_pos t d Hpos Hd).
    pose proof (Z.mul_quot_le t d Hpos ltac:(lia)). nia.
  - pose proof (Z.quot_opp_l (- t) d ltac:(lia)) as Hq.
    replace (- - t) with t in Hq by lia.
    pose proof (Z.quot_pos (- t) d ltac:(lia) Hd).
    pose proof (Z.mul_quot_le (- t) d ltac:(lia) ltac:(lia)). nia.
Qed.

(** C10.  [steady_clock] never goes back: of two successive calls the later
    one sees a tick count [t2] that is at least the tick count [t1] of the
    earlier one.  The time stamp is the tick count divided by the ticks of
    a millisecond, truncated: for a clock past its epoch it is the number
    of whole milliseconds since the epoch.  Hence the later time stamp is
    at least the earlier one. *)
Theorem getTimeStamp_monotone (ticks_per_ms t1 t2 : Z) :
  0 < ticks_per_ms →
  in_int64 t1 → in_int64 t2 →
  t1 ≤ t2 →
  AccessBridgeDebug.getTimeStamp ticks_per_ms t1 = t1 `quot` ticks_per_ms ∧
  (0 ≤ t1 →
   AccessBridgeDebug.getTimeStamp ticks_per_ms t1 * ticks_per_ms ≤ t1
   < (AccessBridgeDebug.getTimeStamp ticks_per_ms t1 + 1) * ticks_per_ms) ∧
  AccessBridgeDebug.getTimeStamp ticks_per_ms t1
  ≤ AccessBridgeDebug.getTimeStamp ticks_per_ms t2.
Proof.
  intros Hd H1 H2 Hle.
  unfold AccessBridgeDebug.getTimeStamp, AccessBridgeDebug.duration_cast_milliseconds.
  cbn zeta. rewrite !wrap64_id by (by apply quot_in_int64).
  split; [done|]. split.
  - intros Hpos. rewrite Z.quot_div_nonneg by lia.
    pose proof (Z.div_mod t1 ticks_per_ms ltac:(lia)).
    pose proof (Z.mod_pos_bound t1 ticks_per_ms Hd). nia.
  - by apply Z.quot_le_mono.
Qed.

Lemma getTimeStamp_monotone_witness :
  AccessBridgeDebug.getTimeStamp 1000000 1999999 = 1999999 `quot` 1000000 ∧
  (0 ≤ 1999999 →
   AccessBridgeDebug.getTimeStamp 1000000 1999999 * 1000000 ≤ 1999999
   < (AccessBridgeDebug.getTimeStamp 1000000 1999999 + 1) * 1000000) ∧
  AccessBridgeDebug.getTimeStamp 1000000 1999999
  ≤ AccessBridgeDebug.getTimeStamp 1000000 2000000.
Proof.
  apply (getTimeStamp_monotone 1000000 1999999 2000000);
    unfold in_int64; lia.
Defined.

(** * More about the routine: what a call leaves behind *)

Lemma count_iterations (p : Event → bool) (k : nat) obj ms (its : list (jweak * Z)) :
  (∀ it, count p (iteration_log obj ms it) = k) →
  count p (iterations_log obj ms its) = (k * length its)%nat.
Proof.
  intros Hk. induction its as [|it its IH]; [cbn; lia|].
  cbn [iterations_log length]. rewrite count_app, IH, Hk. lia.
Qed.

(** The three ways a call can go, with the events it adds. *)
Lemma criticalNative_cases (long_bits : Z) (mssleep_clock : Z → Z → Z)
    (fuel : nat) (o : jobject) (e s : Z) (w : World) :
  let r := criticalNative long_bits mssleep_clock fuel o e s w in
  (resolution o w = None ∧
   r = Returned (emit (EvPrintf (resolution_msg o w)) (after_resolution o w))) ∨
  (∃ f, resolution o w = Some f ∧ slot o f w = None ∧
        r = Returned (emit (EvPrintf msg_GetObjectField)
                        (emit (EvGetObjectField o (Some f) None)
                           (after_resolution o w)))) ∨
  (∃ f x its, resolution o w = Some f ∧ slot o f w = Some x ∧
     log (result_world r)
     = (if came_back r then [EvSetObjectField o (Some f) (Some x)] else [])
       ++ iterations_log x (to_long long_bits s) its
       ++ EvTime (time_reading w) :: EvSetObjectField o (Some f) None
       :: EvGetObjectField o (Some f) (Some x) :: resolution_log o w ++ log w ∧
     weak_refs (result_world r) = weak_refs w ∧
     classes (result_world r) = classes w ∧
     field_ids (result_world r) = field_ids w ∧
     objFieldId (result_world r) = Some f ∧
     (came_back r = true → fields (result_world r) = fields w) ∧
     (came_back r = false →
      length its = fuel ∧ fields (result_world r) = delete (o, f) (fields w))).
Proof.
  cbn zeta. destruct (resolution o w) as [f|] eqn:Hr.
  - destruct (slot o f w) as [x|] eqn:Hs.
    + right. right.
      destruct (criticalNative_armed_spec long_bits mssleep_clock fuel o e s w f x
                  Hr Hs) as (its & Hlog & Hw & Hc & Hcl & Hfi & Hback & Hcut & _).
      cbn zeta in *. exists f, x, its.
      split; [done|]. split; [done|]. split; [exact Hlog|].
      split; [done|]. split; [done|]. split; [done|]. split; [done|].
      split; [|done]. intros Hb. by destruct (Hback Hb) as (_ & ? & _).
    + right. left. exists f. split; [done|]. split; [done|].
      by apply criticalNative_missing.
  - left. split; [done|]. by apply criticalNative_unresolved.
Qed.

(** X1.  Whatever the outcome of a call, the tables of the virtual machine
    are as before and every slot other than the holder's [obj] holds what
    it held.  A call that has come back has left all fields as they were;
    a call that is still in the loop has the holder's slot, which was not
    null, cleared. *)
Theorem other_slots_untouched (long_bits : Z) (mssleep_clock : Z → Z → Z)
    (fuel : nat) (o : jobject) (enterTime sleepTime : Z) (w : World) :
  let r := criticalNative long_bits mssleep_clock fuel o enterTime sleepTime w in
  classes (result_world r) = classes w ∧
  field_ids (result_world r) = field_ids w ∧
  (∀ k, (∀ f, resolution o w = Some f → k ≠ (o, f)) →
        fields (result_world r) !! k = fields w !! k) ∧
  (came_back r = true → fields (result_world r) = fields w) ∧
  (came_back r = false →
   ∃ f, resolution o w = Some f ∧ is_Some (slot o f w) ∧
        slot o f (result_world r) = None).
Proof.
  cbn zeta.
  destruct (criticalNative_cases long_bits mssleep_clock fuel o enterTime
              sleepTime w)
    as [[Hr ->] | [(f & Hr & Hs & ->) | (f & x & its & Hr & Hs & _ & _ & Hcl & Hfi
                                          & _ & Hback & Hcut)]];
    cbn zeta in *.
  - cbn. repeat split; done.
  - cbn. repeat split; done.
  - split; [done|]. split; [done|].
    destruct (came_back (criticalNative long_bits mssleep_clock fuel o enterTime
                           sleepTime w)) eqn:Hb.
    + rewrite (Hback eq_refl). repeat split; done.
    + destruct (Hcut eq_refl) as [_ Hf]. rewrite Hf. split.
      { intros k Hk. apply lookup_delete_ne. intros <-. by apply (Hk f). }
      split; [done|]. intros _. exists f. split; [done|].
      split; [by rewrite Hs|]. unfold slot. rewrite Hf. apply lookup_delete_eq.
Qed.

Lemma run_calls_cons (long_bits : Z) (mssleep_clock : Z → Z → Z)
    (c : Call) (cs : list Call) (w : World) :
  run_calls long_bits mssleep_clock (c :: cs) w
  = let r := criticalNative long_bits mssleep_clock (call_fuel c) (call_this c)
               (call_enterTime c) (call_sleepTime c) w in
    if came_back r then run_calls long_bits mssleep_clock cs (result_world r)
    else OutOfFuel (result_world r).
Proof. cbn. by destruct (criticalNative _ _ _ _ _ _ _) as [[] ?| |]. Qed.

(** X2.  Calls compose: any sequence of calls, on whatever holders and
    with whatever arguments, that has come back leaves every field, the
    table of weak references and the tables of the virtual machine as they
    were before the first call. *)
Theorem calls_restore_the_heap (long_bits : Z) (mssleep_clock : Z → Z → Z)
    (cs : list Call) (w : World) :
  came_back (run_calls long_bits mssleep_clock cs w) = true →
  let w' := result_world (run_calls long_bits mssleep_clock cs w) in
  fields w' = fields w ∧
  weak_refs w' = weak_refs w ∧
  classes w' = classes w ∧
  field_ids w' = field_ids w.
Proof.
  revert w. induction cs as [|c cs IH]; intros w; [done|].
  rewrite run_calls_cons. cbn zeta.
  destruct (criticalNative_cases long_bits mssleep_clock (call_fuel c)
              (call_this c) (call_enterTime c) (call_sleepTime c) w)
    as [[Hr Heq] | [(f & Hr & Hs & Heq) | (f & x & its & Hr & Hs & _ & Hw & Hcl
                                            & Hfi & _ & Hback & _)]];
    cbn zeta in *.
  - rewrite Heq. cbn [came_back result_world]. intros Hb.
    destruct (IH _ Hb) as (H1 & H2 & H3 & H4). cbn zeta in *.
    rewrite H1, H2, H3, H4. done.
  - rewrite Heq. cbn [came_back result_world]. intros Hb.
    destruct (IH _ Hb) as (H1 & H2 & H3 & H4). cbn zeta in *.
    rewrite H1, H2, H3, H4. done.
  - destruct (came_back (criticalNative long_bits mssleep_clock (call_fuel c)
                           (call_this c) (call_enterTime c) (call_sleepTime c) w))
      eqn:Hb1; [|done].
    intros Hb. destruct (IH _ Hb) as (H1 & H2 & H3 & H4). cbn zeta in *.
    rewrite H1, H2, H3, H4, (Hback eq_refl). done.
Qed.

Lemma calls_restore_the_heap_witness :
  let cs := [mkCall 3 1%positive 2000 500; mkCall 2 1%positive 0 500;
             mkCall 0 2%positive 1000 10] in
  let w' := result_world (run_calls 64 exact_sleep cs sample_world) in
  fields w' = fields sample_world ∧
  weak_refs w' = weak_refs sample_world ∧
  classes w' = classes sample_world ∧
  field_ids w' = field_ids sample_world.
Proof.
  apply (calls_restore_the_heap 64 exact_sleep
           [mkCall 3 1%positive 2000 500; mkCall 2 1%positive 0 500;
            mkCall 0 2%positive 1000 10] sample_world).
  vm_compute. reflexivity.
Defined.

(** X3.  A failed resolution is not remembered: the cache is still empty
    after the call, and a second call in the same virtual machine makes
    the same lookups and prints the same diagnostic again. *)
Theorem failed_resolution_is_retried (long_bits : Z) (mssleep_clock : Z → Z → Z)
    (fuel1 fuel2 : nat) (o : jobject) (e1 s1 e2 s2 : Z) (w : World) :
  resolution o w = None →
  let w1 := result_world (criticalNative long_bits mssleep_clock fuel1 o e1 s1 w) in
  let r2 := criticalNative long_bits mssleep_clock fuel2 o e2 s2 w1 in
  let new := EvPrintf (resolution_msg o w) :: resolution_log o w in
  objFieldId w1 = None ∧
  came_back r2 = true ∧
  objFieldId (result_world r2) = None ∧
  log (result_world r2) = new ++ new ++ log w ∧
  (0 < count is_resolution new)%nat.
Proof.
  intros Hr. cbn zeta.
  rewrite (criticalNative_unresolved long_bits mssleep_clock fuel1 o e1 s1 w Hr).
  cbn [result_world].
  set (w1 := emit (EvPrintf (resolution_msg o w)) (after_resolution o w)).
  assert (objFieldId w = None) as Hc.
  { unfold resolution in Hr. by destruct (objFieldId w). }
  assert (objFieldId w1 = None) as Hc1 by exact Hr.
  assert (resolution o w1 = None) as Hr1.
  { unfold resolution. rewrite Hc1. unfold resolution in Hr.
    by rewrite Hc in Hr. }
  assert (resolution_log o w1 = resolution_log o w) as Hl1.
  { unfold resolution_log. by rewrite Hc1, Hc. }
  assert (resolution_msg o w1 = resolution_msg o w) as Hm1 by done.
  rewrite (criticalNative_unresolved long_bits mssleep_clock fuel2 o e2 s2 w1 Hr1).
  cbn [result_world came_back]. rewrite Hm1.
  split; [done|]. split; [done|]. split; [exact Hr1|].
  split; [cbn; by rewrite Hl1|].
  rewrite count_cons. unfold resolution_log. rewrite Hc.
  destruct (classes w !! o); cbn; lia.
Qed.

Lemma failed_resolution_is_retried_witness :
  let w := sample_world_no_field in
  let w1 := result_world (criticalNative 64 exact_sleep 0 1%positive 2000 500 w) in
  let r2 := criticalNative 64 exact_sleep 5 1%positive 0 1 w1 in
  let new := EvPrintf (resolution_msg 1%positive w)
             :: resolution_log 1%positive w in
  objFieldId w1 = None ∧
  came_back r2 = true ∧
  objFieldId (result_world r2) = None ∧
  log (result_world r2) = new ++ new ++ log w ∧
  (0 < count is_resolution new)%nat.
Proof.
  apply (failed_resolution_is_retried 64 exact_sleep 0 5 1%positive 2000 500 0 1
           sample_world_no_field).
  vm_compute. reflexivity.
Defined.

Lemma resolution_log_count (p : Event → bool) (o : jobject) (w : World) :
  (∀ o' r, p (EvGetObjectClass o' r) = false) →
  (∀ k n g r, p (EvGetFieldID k n g r) = false) →
  count p (resolution_log o w) = 0%nat.
Proof.
  intros H1 H2. unfold resolution_log. destruct (objFieldId w); [done|].
  destruct (classes w !! o); rewrite !count_cons, ?H1, ?H2; done.
Qed.

(** X4.  In the events a call adds, whatever its outcome, every weak
    reference created is also deleted, there are exactly two sleeps per
    weak reference created, each of them for [(long) sleepTime]
    milliseconds, and the clock is read at most once more than weak
    references are created.  A call cut off after [fuel] loop tests has
    created [fuel] weak references. *)
Theorem passes_are_balanced (long_bits : Z) (mssleep_clock : Z → Z → Z)
    (fuel : nat) (o : jobject) (enterTime sleepTime : Z) (w : World) :
  let r := criticalNative long_bits mssleep_clock fuel o enterTime sleepTime w in
  ∃ new,
    log (result_world r) = new ++ log w ∧
    deletions new = creations new ∧
    count is_sleep new = (2 * creations new)%nat ∧
    count (is_sleep_of (to_long long_bits sleepTime)) new = count is_sleep new ∧
    (count is_time new ≤ creations new + 1)%nat ∧
    (came_back r = false → creations new = fuel).
Proof.
  cbn zeta.
  destruct (criticalNative_cases long_bits mssleep_clock fuel o enterTime
              sleepTime w)
    as [[Hr ->] | [(f & Hr & Hs & ->) | (f & x & its & Hr & Hs & Hlog & _ & _ & _
                                          & _ & _ & Hcut)]];
    cbn zeta in *.
  - exists (EvPrintf (resolution_msg o w) :: resolution_log o w).
    split; [done|]. unfold deletions, creations.
    rewrite !count_cons, !resolution_log_count by done. cbn.
    split; [done|]. split; [done|]. split; [done|]. split; [lia|done].
  - exists (EvPrintf msg_GetObjectField :: EvGetObjectField o (Some f) None
            :: resolution_log o w).
    split; [done|]. unfold deletions, creations.
    rewrite !count_cons, !resolution_log_count by done. cbn.
    split; [done|]. split; [done|]. split; [done|]. split; [lia|done].
  - set (ms := to_long long_bits sleepTime) in *.
    exists ((if came_back (criticalNative long_bits mssleep_clock fuel o enterTime
                             sleepTime w)
             then [EvSetObjectField o (Some f) (Some x)] else [])
            ++ iterations_log x ms its
            ++ EvTime (time_reading w) :: EvSetObjectField o (Some f) None
            :: EvGetObjectField o (Some f) (Some x) :: resolution_log o w).
    split; [by rewrite Hlog, <- !app_assoc|].
    assert (∀ p, (∀ e, p (EvSetObjectField o (Some f) e) = false) →
                 count p (if came_back (criticalNative long_bits mssleep_clock fuel
                                          o enterTime sleepTime w)
                          then [EvSetObjectField o (Some f) (Some x)] else [])
                 = 0%nat) as Hpost.
    { intros p Hp. destruct (came_back _); [|done]. by rewrite count_cons, Hp. }
    unfold deletions, creations.
    rewrite !count_app, !count_cons, !resolution_log_count, !Hpost by done.
    rewrite (count_iterations is_delete 1), (count_iterations is_create 1),
      (count_iterations is_sleep 2), (count_iterations (is_sleep_of ms) 2),
      (count_iterations is_time 1);
      try (intros [g t]; cbn; by rewrite ?Z.eqb_refl).
    cbn. split; [lia|]. split; [lia|]. split; [lia|]. split; [lia|].
    intros Hb. destruct (Hcut Hb) as [-> _]. lia.
Qed.

(** X5.  A call prints at most one diagnostic, and it prints none exactly
    when it reaches the loop.  A call that prints one has come back without
    using any fuel, has not slept and has not read the clock, and the clock
    is as it was. *)
Theorem diagnostic_iff_not_armed (long_bits : Z) (mssleep_clock : Z → Z → Z)
    (fuel : nat) (o : jobject) (enterTime sleepTime : Z) (w : World) :
  let r := criticalNative long_bits mssleep_clock fuel o enterTime sleepTime w in
  ∃ new,
    log (result_world r) = new ++ log w ∧
    (count is_printf new ≤ 1)%nat ∧
    (count is_printf new = 0%nat ↔
     ∃ f x, resolution o w = Some f ∧ slot o f w = Some x) ∧
    (count is_printf new = 1%nat →
     came_back r = true ∧ now (result_world r) = now w ∧
     count is_sleep new = 0%nat ∧ count is_time new = 0%nat).
Proof.
  cbn zeta.
  destruct (criticalNative_cases long_bits mssleep_clock fuel o enterTime
              sleepTime w)
    as [[Hr ->] | [(f & Hr & Hs & ->) | (f & x & its & Hr & Hs & Hlog & _)]];
    cbn zeta in *.
  - exists (EvPrintf (resolution_msg o w) :: resolution_log o w).
    split; [done|].
    rewrite !count_cons, !resolution_log_count by done. cbn.
    split; [lia|]. split; [|done].
    split; [done|]. intros (f & x & Hf & _). congruence.
  - exists (EvPrintf msg_GetObjectField :: EvGetObjectField o (Some f) None
            :: resolution_log o w).
    split; [done|].
    rewrite !count_cons, !resolution_log_count by done. cbn.
    split; [lia|]. split; [|done].
    split; [done|]. intros (f' & x & Hf & Hx). congruence.
  - set (ms := to_long long_bits sleepTime) in *.
    exists ((if came_back (criticalNative long_bits mssleep_clock fuel o enterTime
                             sleepTime w)
             then [EvSetObjectField o (Some f) (Some x)] else [])
            ++ iterations_log x ms its
            ++ EvTime (time_reading w) :: EvSetObjectField o (Some f) None
            :: EvGetObjectField o (Some f) (Some x) :: resolution_log o w).
    split; [by rewrite Hlog, <- !app_assoc|].
    assert (count is_printf
              (if came_back (criticalNative long_bits mssleep_clock fuel
                               o enterTime sleepTime w)
               then [EvSetObjectField o (Some f) (Some x)] else []) = 0%nat)
      as Hpost by (by destruct (came_back _)).
    rewrite !count_app, !count_cons, !resolution_log_count, Hpost by done.
    rewrite (count_iterations is_printf 0) by (by intros [g t]).
    cbn. split; [lia|]. split; [|lia].
    split; [|done]. intros _. by exists f, x.
Qed.

Lemma quot_1000_small (e : Z) : - 1000 < e < 1000 → e `quot` 1000 = 0.
Proof.
  intros He. destruct (Z.le_gt_cases 0 e) as [Hpos|Hneg].
  - apply Z.quot_small. lia.
  - replace e with (- - e) by lia. rewrite Z.quot_opp_l, Z.quot_small; lia.
Qed.

(** X6.  A duration of less than a second in either direction is a budget
    of zero seconds.  With a start time after the epoch and a clock that
    does not go back while the thread sleeps, such a call makes exactly
    one pass: it creates and deletes one weak reference, sleeps twice and
    restores the slot. *)
Theorem sub_second_duration_one_pass (long_bits : Z) (mssleep_clock : Z → Z → Z)
    (fuel : nat) (o : jobject) (enterTime sleepTime : Z) (w : World)
    (f : jfieldID) (x : jobject) :
  (∀ ms t, t ≤ mssleep_clock ms t) →
  resolution o w = Some f →
  slot o f w = Some x →
  - 1000 < enterTime < 1000 →
  1000 ≤ now w →
  mssleep_clock (to_long long_bits sleepTime)
    (mssleep_clock (to_long long_bits sleepTime) (now w)) < 2 ^ 63 * 1000 →
  (2 ≤ fuel)%nat →
  ∃ w',
    criticalNative long_bits mssleep_clock fuel o enterTime sleepTime w
    = Normal tt w' ∧
    slot o f w' = Some x ∧
    creations (log w') = (creations (log w) + 1)%nat ∧
    deletions (log w') = (deletions (log w) + 1)%nat ∧
    count is_sleep (log w') = (count is_sleep (log w) + 2)%nat.
Proof.
  intros Hmono Hr Hs He Hn Hfar Hfuel.
  set (a := armed o f x (after_resolution o w)).
  set (ms := to_long long_bits sleepTime) in *.
  pose proof (Hmono ms (now w)) as Hm1.
  pose proof (Hmono ms (mssleep_clock ms (now w))) as Hm2.
  assert (1 ≤ now w `div` 1000 < 2 ^ 63) as Hstart.
  { split; [apply Z.div_le_lower_bound; lia | apply Z.div_lt_upper_bound; lia]. }
  assert (time_reading w = now w `div` 1000) as Htr
    by (apply time_reading_exact; lia).
  destruct (loop_body_spec long_bits mssleep_clock x sleepTime a)
    as (g & w1 & Hb & _ & Hnow & Hlog).
  fold ms in Hnow, Hlog. change (now a) with (now w) in Hnow.
  assert (time_reading w1 = now w1 `div` 1000) as Htr1
    by (apply time_reading_exact; lia).
  assert (now w `div` 1000 ≤ now w1 `div` 1000 < 2 ^ 63) as Hr1.
  { split; [apply Z.div_le_mono; lia | apply Z.div_lt_upper_bound; lia]. }
  assert (while_loop long_bits mssleep_clock 2 x sleepTime (time_reading w)
            (enterTime `quot` 1000) 0 a = Normal (time_reading w1) w1) as Hloop.
  { rewrite (quot_1000_small enterTime He), Htr.
    rewrite while_loop_unfold, time_sub_0 by lia.
    destruct (Z.ltb_spec (- (now w `div` 1000)) 0) as [_|]; [|lia].
    rewrite Hb, while_loop_unfold, Htr1, time_sub_exact by lia.
    by destruct (Z.ltb_spec (now w1 `div` 1000 - now w `div` 1000) 0) as [|_];
      [lia|]. }
  apply (while_loop_fuel_mono long_bits mssleep_clock 2 fuel) in Hloop; [|done].
  exists (emit (EvSetObjectField o (Some f) (Some x))
            (with_fields (<[(o, f) := x]> (fields w1)) w1)).
  split.
  { rewrite (criticalNative_armed long_bits mssleep_clock fuel o enterTime
               sleepTime w f x Hr Hs). fold a. by rewrite Hloop. }
  split; [unfold slot; cbn; apply lookup_insert_eq|].
  unfold creations, deletions. cbn [log emit with_fields]. rewrite Hlog.
  cbn [iteration_log app fst snd a armed emit with_fields after_resolution log].
  rewrite !count_cons, !count_app, !resolution_log_count by done. cbn. lia.
Qed.

Lemma sub_second_duration_one_pass_witness :
  ∃ w',
    criticalNative 64 capped_sleep 2 1%positive 999 40 sample_world
    = Normal tt w' ∧
    slot 1%positive 7%positive w' = Some 9%positive ∧
    creations (log w') = (creations (log sample_world) + 1)%nat ∧
    deletions (log w') = (deletions (log sample_world) + 1)%nat ∧
    count is_sleep (log w') = (count is_sleep (log sample_world) + 2)%nat.
Proof.
  apply (sub_second_duration_one_pass 64 capped_sleep 2 1%positive 999 40
           sample_world 7%positive 9%positive).
  - intros ms t. unfold capped_sleep. lia.
  - vm_compute. reflexivity.
  - vm_compute. reflexivity.
  - lia.
  - cbn. lia.
  - vm_compute. reflexivity.
  - lia.
Defined.

(** * C strings and buffers *)

#[local] Set Warnings "-notation-overridden".
Import DebugLog.

Lemma eqb_NUL (c : ascii) : Ascii.eqb c NUL = false ↔ c ≠ NUL.
Proof. destruct (Ascii.eqb_spec c NUL); split; congruence. Qed.

Lemma c_str_clean (s : list ascii) : clean s → c_str s = s.
Proof.
  unfold clean. induction s as [|c s IH]; [done|]. intros Hn.
  apply not_elem_of_cons in Hn as [Hc Hs]. cbn.
  destruct (Ascii.eqb_spec c NUL); [congruence|]. by rewrite IH.
Qed.

Lemma clean_c_str (s : list ascii) : clean (c_str s).
Proof.
  unfold clean. induction s as [|c s IH]; cbn; [apply not_elem_of_nil|].
  destruct (Ascii.eqb_spec c NUL); [apply not_elem_of_nil|].
  apply not_elem_of_cons. by split.
Qed.

Lemma clean_app (s t : list ascii) : clean (s ++ t) ↔ clean s ∧ clean t.
Proof. unfold clean. rewrite elem_of_app. tauto. Qed.

Lemma clean_take (n : nat) (s : list ascii) : clean s → clean (take n s).
Proof.
  unfold clean. intros Hs Hin. apply Hs.
  rewrite <- (take_drop n s). apply elem_of_app. by left.
Qed.

Lemma clean_drop (n : nat) (s : list ascii) : clean s → clean (drop n s).
Proof.
  unfold clean. intros Hs Hin. apply Hs.
  rewrite <- (take_drop n s). apply elem_of_app. by right.
Qed.

Lemma clean_chars_pretty_free (s : list ascii) :
  Forall (λ c, c ≠ NUL) s → clean s.
Proof. unfold clean. rewrite Forall_forall. intros H Hin. by apply (H NUL). Qed.

(** The string in a buffer that holds [s], a [NUL] and anything else. *)
Lemma strlen_buf_app (s rest : list ascii) :
  clean s → strlen_buf (s ++ NUL :: rest) = Some (length s).
Proof.
  unfold clean. induction s as [|c s IH]; intros Hn; [done|].
  apply not_elem_of_cons in Hn as [Hc Hs]. cbn.
  destruct (Ascii.eqb_spec c NUL); [congruence|]. by rewrite IH.
Qed.

Lemma strlen_buf_Some (buf : list ascii) (n : nat) :
  strlen_buf buf = Some n →
  ∃ rest, buf = take n buf ++ NUL :: rest ∧ clean (take n buf) ∧
          length (take n buf) = n ∧ (n < length buf)%nat.
Proof.
  revert n. induction buf as [|c buf IH]; intros n; [done|]. cbn.
  destruct (Ascii.eqb_spec c NUL) as [->|Hc].
  - intros [= <-]. exists buf. cbn. repeat split; [apply not_elem_of_nil|lia].
  - destruct (strlen_buf buf) as [k|] eqn:Hk; [|done]. intros [= <-].
    destruct (IH k eq_refl) as (rest & Heq & Hcl & Hlen & Hlt).
    exists rest. cbn. rewrite <- Heq, Hlen. repeat split; [|lia].
    unfold clean in *. by apply not_elem_of_cons.
Qed.

Lemma strlen_buf_is_Some (buf : list ascii) : NUL ∈ buf → is_Some (strlen_buf buf).
Proof.
  induction buf as [|c buf IH]; [by intros ?%elem_of_nil|]. cbn.
  destruct (Ascii.eqb_spec c NUL); [by eexists|].
  intros [?|Hin]%elem_of_cons; [congruence|].
  destruct (IH Hin) as [k ->]. by eexists.
Qed.

(** A copy into the zeroed rest of a buffer. *)
Lemma memcpy_zeroed (pre src : list ascii) (n k : nat) :
  (n ≤ length src)%nat →
  memcpy (pre ++ new_zeroed (n + k)) (length pre) src n
  = Some (pre ++ take n src ++ new_zeroed k).
Proof.
  intros Hn. unfold memcpy, new_zeroed.
  rewrite decide_True.
  2:{ rewrite length_app, length_replicate. lia. }
  f_equal. rewrite take_app_length. f_equal. f_equal.
  rewrite drop_app_ge by lia.
  replace (length pre + n - length pre)%nat with n by lia.
  rewrite drop_replicate. f_equal. lia.
Qed.

(** * The name of the log file *)

Lemma strrchr_None (s : list ascii) (c : ascii) :
  strrchr s c = None ↔ c ∉ s.
Proof.
  induction s as [|a s IH]; cbn.
  - split; [intros _; apply not_elem_of_nil|done].
  - rewrite not_elem_of_cons. destruct (strrchr s c) as [i|].
    + split; [done|]. intros [_ Hs]. by apply IH in Hs.
    + destruct (Ascii.eqb_spec a c) as [->|Hne].
      * split; [done|]. by intros [? _].
      * split; [|done]. intros _. split; [congruence|]. by apply IH.
Qed.

Lemma strrchr_last (stem e : list ascii) (c : ascii) :
  c ∉ e → strrchr (stem ++ c :: e) c = Some (length stem).
Proof.
  intros He. induction stem as [|a stem IH]; cbn.
  - apply strrchr_None in He. rewrite He. by rewrite Ascii.eqb_refl.
  - by rewrite IH.
Qed.

Lemma strrchr_Some (s : list ascii) (c : ascii) (i : nat) :
  strrchr s c = Some i →
  ∃ e, s = take i s ++ c :: e ∧ (c ∉ e) ∧ length (take i s) = i.
Proof.
  revert i. induction s as [|a s IH]; intros i; [done|]. cbn.
  destruct (strrchr s c) as [j|] eqn:Hj.
  - intros [= <-]. destruct (IH j eq_refl) as (e & Heq & He & Hlen).
    exists e. cbn. rewrite <- Heq, Hlen. done.
  - destruct (Ascii.eqb_spec a c) as [->|]; [|done]. intros [= <-].
    exists s. cbn. split; [done|]. split; [|done]. by apply strrchr_None.
Qed.

(** The three copies of lines 54-58 fill the buffer with the path, the
    suffix, [.log] and a [NUL]. *)
Lemma build_without_extension (E S : list ascii) :
  ∃ b1 b2,
    memcpy (new_zeroed (length E + length S + 5)) 0 E (length E) = Some b1 ∧
    memcpy b1 (length E) S (length S) = Some b2 ∧
    memcpy b2 (length E + length S) (chars ".log") 4
    = Some ((E ++ S ++ chars ".log") ++ [NUL]).
Proof.
  exists (E ++ new_zeroed (length S + 5)), (E ++ S ++ new_zeroed 5).
  split; [|split].
  - replace (length E + length S + 5)%nat with (length E + (length S + 5))%nat
      by lia.
    pose proof (memcpy_zeroed [] E (length E) (length S + 5) ltac:(lia)) as H.
    cbn [app length] in H. rewrite H. by rewrite firstn_all.
  - rewrite (memcpy_zeroed E S (length S) 5) by lia. by rewrite firstn_all.
  - replace (length E + length S)%nat with (length (E ++ S))
      by (by rewrite length_app).
    rewrite app_assoc.
    pose proof (memcpy_zeroed (E ++ S) (chars ".log") 4 1) as H.
    change (4 + 1)%nat with 5%nat in H. rewrite H by (cbn; lia).
    cbn [take chars String.list_ascii_of_string new_zeroed replicate].
    by rewrite <- !app_assoc.
Qed.

(** The three copies of lines 62-66 fill the buffer with the path up to
    its last dot, the suffix, the rest of the path and a [NUL]. *)
Lemma build_with_extension (stem X S : list ascii) :
  ∃ b1 b2,
    memcpy (new_zeroed (length (stem ++ X) + length S + 1)) 0 (stem ++ X)
      (length (stem ++ X) - length X) = Some b1 ∧
    memcpy b1 (length (stem ++ X) - length X) S (length S) = Some b2 ∧
    memcpy b2 (length (stem ++ X) + length S - length X) X (length X)
    = Some ((stem ++ S ++ X) ++ [NUL]).
Proof.
  rewrite length_app.
  replace (length stem + length X - length X)%nat with (length stem) by lia.
  replace (length stem + length X + length S - length X)%nat
    with (length (stem ++ S)) by (rewrite length_app; lia).
  exists (stem ++ new_zeroed (length S + (length X + 1))),
         (stem ++ S ++ new_zeroed (length X + 1)).
  split; [|split].
  - replace (length stem + length X + length S + 1)%nat
      with (length stem + (length S + (length X + 1)))%nat by lia.
    pose proof (memcpy_zeroed [] (stem ++ X) (length stem)
                  (length S + (length X + 1))) as H.
    cbn [app length] in H. rewrite H by (rewrite length_app; lia).
    by rewrite take_app_length.
  - rewrite (memcpy_zeroed stem S (length S) (length X + 1)) by lia.
    by rewrite firstn_all.
  - rewrite app_assoc.
    rewrite (memcpy_zeroed (stem ++ S) X (length X) 1) by lia.
    rewrite firstn_all. by rewrite <- !app_assoc.
Qed.

Lemma clean_dot_log : clean (chars ".log").
Proof. unfold clean. apply (bool_decide_unpack _). by vm_compute. Qed.

Lemma clean_suffix_chars (suffix : option (list ascii)) :
  clean (suffix_chars suffix).
Proof. destruct suffix; [apply clean_c_str|apply not_elem_of_nil]. Qed.

Lemma clean_log_file_name (path sfx : list ascii) :
  clean path → clean sfx → clean (log_file_name path sfx).
Proof.
  intros Hp Hs. unfold log_file_name. destruct (strrchr path dot).
  - rewrite !clean_app. auto using clean_take, clean_drop.
  - rewrite !clean_app. auto using clean_dot_log.
Qed.

(** A text without a percent sign is printed as it stands. *)
Lemma cformat_plain (s : list ascii) (args : list Z) :
  percent ∉ s → cformat s args = Some s.
Proof.
  induction s as [|c s IH]; [done|]. intros Hn.
  apply not_elem_of_cons in Hn as [Hc Hs]. cbn [cformat].
  destruct (Ascii.eqb_spec c percent); [congruence|]. by rewrite IH.
Qed.

Section LoggerFacts.

Variable ticks_per_ms : Z.
Variable SEND_TO_OUTPUT_DEBUG_STRING SEND_TO_CONSOLE : bool.
Variable vformat : list ascii → list Arg → list ascii.
Variable vwformat : list N → list Arg → list ascii.
Variable wcs_to_mbs : list N → list ascii.

(** Lines 48-67 build the name [log_file_name], and no copy leaves its
    buffer; the rest of the function opens the file of that name. *)
Lemma initialize_spec (DEBUGGING_ON : bool) (suffix : option (list ascii))
    (p : Process) (v : list ascii) :
  environ p !! chars "JAVA_ACCESSBRIDGE_LOGFILE" = Some v →
  let name := log_file_name (c_str v) (suffix_chars suffix) in
  initializeFileLogger ticks_per_ms DEBUGGING_ON SEND_TO_OUTPUT_DEBUG_STRING
    SEND_TO_CONSOLE vformat suffix p
  = match fopen_w name p with
    | Some (fp, p') =>
        if fp is None then
          PrintDebugString ticks_per_ms DEBUGGING_ON SEND_TO_OUTPUT_DEBUG_STRING
            SEND_TO_CONSOLE vformat (chars "couldnot open file %s")
            [ArgStr (Some name)] (with_logFP fp p')
        else Some (tt, with_logFP fp p')
    | None => None
    end.
Proof.
  intros Henv name. unfold initializeFileLogger.
  unfold bind at 1. unfold getenv, get. rewrite Henv. cbv zeta.
  unfold strlen.
  assert (length (suffix_chars suffix)
          = match suffix with Some s => length (c_str s) | None => 0%nat end)
    as Hsl by (by destruct suffix).
  rewrite <- Hsl. fold (suffix_chars suffix).
  set (E := c_str v) in *. set (S := suffix_chars suffix) in *.
  assert (clean name) as Hclean.
  { apply clean_log_file_name; [apply clean_c_str|apply clean_suffix_chars]. }
  unfold name, log_file_name in *. clear name.
  destruct (strrchr E dot) as [i|] eqn:Hext.
  - destruct (strrchr_Some E dot i Hext) as (e & HE & He & Hlen).
    set (stem := take i E) in *. set (X := drop i E) in *.
    assert (stem ++ X = E) as HsX by apply take_drop.
    rewrite (c_str_clean X) by apply clean_drop, clean_c_str.
    destruct (build_with_extension stem X S) as (b1 & b2 & H1 & H2 & H3).
    rewrite HsX in H1, H2, H3.
    unfold bind, lift. rewrite H1, H2, H3.
    rewrite strlen_buf_app by done. rewrite take_app_length.
    unfold fopen_w, modify. destruct (decide _); [done|]. done.
  - destruct (build_without_extension E S) as (b1 & b2 & H1 & H2 & H3).
    unfold bind, lift. rewrite H1, H2, H3.
    rewrite strlen_buf_app by done. rewrite take_app_length.
    unfold fopen_w, modify. destruct (decide _); [done|]. done.
Qed.

(** ** Writing a line *)

Lemma cformat_lldu (ts : Z) :
  cformat (chars "[%lldu] ") [ts]
  = Some (chars "[" ++ chars (pretty (wrap64 ts)) ++ chars "u] ").
Proof. reflexivity. Qed.

Lemma cformat_llu (ts : Z) :
  cformat (chars "[%llu] ") [ts]
  = Some (chars "[" ++ chars (pretty (ts `mod` 2 ^ 64)) ++ chars "] ").
Proof. reflexivity. Qed.

Lemma cformat_crlf : cformat crlf [] = Some crlf.
Proof. reflexivity. Qed.

Lemma fwrite_open (fp : positive) (path text : list ascii) (p : Process) :
  streams p !! fp = Some path →
  fwrite fp text p = Some (tt, appended path text p).
Proof. intros Hs. unfold fwrite. by rewrite Hs. Qed.

Lemma appended_appended (path t1 t2 : list ascii) (p : Process) :
  appended path t2 (appended path t1 p) = appended path (t1 ++ t2) p.
Proof.
  unfold appended, with_files. cbn.
  rewrite lookup_insert_eq, insert_insert_eq. cbn. by rewrite <- app_assoc.
Qed.

(** The three writes of a print function, for a format [fmt] of the time
    stamp that comes out as [stamp]. *)
Lemma write_line (fp : positive) (path fmt stamp text : list ascii) (ts : Z)
    (p : Process) :
  streams p !! fp = Some path →
  cformat fmt [ts] = Some stamp →
  (fprintf fp fmt [ts] ;;; fwrite fp text ;;; fprintf fp crlf []) p
  = Some (tt, appended path (stamp ++ text ++ crlf) p).
Proof.
  intros Hs Hfmt. unfold fprintf, lift, bind. rewrite Hfmt, cformat_crlf.
  cbv beta iota. rewrite (fwrite_open fp path stamp p Hs).
  cbv beta iota. rewrite (fwrite_open fp path text) by done.
  cbv beta iota. rewrite (fwrite_open fp path crlf) by done.
  by rewrite !appended_appended.
Qed.

(** ** The buffer of [printError] *)

Lemma c_str_app_NUL (s rest : list ascii) :
  clean s → c_str (s ++ NUL :: rest) = s.
Proof.
  unfold clean. induction s as [|c s IH]; intros Hn; [done|].
  apply not_elem_of_cons in Hn as [Hc Hs]. cbn.
  destruct (Ascii.eqb_spec c NUL); [congruence|]. by rewrite IH.
Qed.

Lemma holds_length (buf s : list ascii) : holds buf s → (length s ≤ 255)%nat.
Proof.
  intros (rest & -> & _ & Hlen). rewrite length_app in Hlen. cbn in Hlen. lia.
Qed.

Lemma holds_strlen (buf s : list ascii) :
  holds buf s → strlen_buf buf = Some (length s) ∧ take (length s) buf = s.
Proof.
  intros (rest & -> & Hc & _). split; [by apply strlen_buf_app|].
  apply take_app_length.
Qed.

Lemma holds_c_str (buf : list ascii) :
  length buf = 256%nat → is_Some (strlen_buf buf) → holds buf (c_str buf).
Proof.
  intros Hlen [k Hk]. destruct (strlen_buf_Some buf k Hk) as (rest & Heq & Hc & _).
  assert (c_str buf = take k buf) as ->.
  { rewrite Heq at 1. by apply c_str_app_NUL. }
  by exists rest.
Qed.

(** Lines 100-102: after [strncpy] and the [NUL] stored at the end the
    buffer holds the first 255 characters of the message. *)
Lemma strncpy_store (buf m : list ascii) :
  length buf = 256%nat →
  ∃ b1 b2, strncpy buf m 256 = Some b1 ∧ store b1 255 NUL = Some b2 ∧
           holds b2 (take 255 (c_str m)).
Proof.
  intros Hlen. unfold strncpy, store.
  rewrite decide_True by lia. eexists _, _. split; [reflexivity|].
  rewrite drop_ge, app_nil_r by lia.
  assert (length (take 256 (c_str m ++ replicate 256 NUL)) = 256%nat) as Hl.
  { rewrite length_take, length_app, length_replicate. lia. }
  rewrite decide_True by lia. split; [reflexivity|].
  exists (replicate (255 - length (take 255 (c_str m))) NUL).
  split; [|split; [apply clean_take, clean_c_str|by rewrite length_insert]].
  set (M := c_str m).
  destruct (decide (length M ≤ 255)%nat) as [Hshort|Hlong].
  - rewrite (take_ge M 255) by lia.
    rewrite take_app_ge by lia. rewrite take_replicate.
    replace ((256 - length M) `min` 256)%nat with (S (255 - length M)) by lia.
    cbn [replicate]. rewrite insert_app_r_alt by lia.
    f_equal. apply list_insert_id.
    change (NUL :: replicate (255 - length M) NUL)
      with (replicate (S (255 - length M)) NUL).
    apply lookup_replicate_2. lia.
  - rewrite take_app_le by lia.
    rewrite <- (take_drop 255 (take 256 M)), take_take.
    replace (255 `min` 256)%nat with 255%nat by lia.
    assert (length (take 255 M) = 255%nat) as H255 by (rewrite length_take; lia).
    rewrite insert_app_r_alt by lia. rewrite H255.
    replace (255 - 255)%nat with 0%nat by lia. f_equal.
    destruct (drop 255 (take 256 M)) as [|c l] eqn:Hd.
    + apply (f_equal length) in Hd. rewrite length_drop, length_take in Hd.
      cbn [length] in Hd. lia.
    + apply (f_equal length) in Hd. rewrite length_drop, length_take in Hd.
      destruct l; [done|]. cbn [length] in Hd. lia.
Qed.

Lemma take_take_app (n : nat) (a b : list ascii) :
  take n (take n a ++ b) = take n (a ++ b).
Proof.
  destruct (decide (length a ≤ n)%nat) as [Hle|Hgt].
  - by rewrite (take_ge a n) by lia.
  - rewrite !take_app_le by (rewrite ?length_take; lia).
    rewrite take_take. f_equal. lia.
Qed.

(** Lines 120-121: [strncat] with the room that is left appends as much
    as fits in 255 characters. *)
Lemma strncat_room (buf s src : list ascii) :
  holds buf s →
  ∃ b, strncat buf src (256 - length s - 1) = Some b ∧
       holds b (take 255 (s ++ c_str src)).
Proof.
  intros Hh. pose proof (holds_length buf s Hh) as Hs.
  destruct (holds_strlen buf s Hh) as [Hk Htake].
  destruct Hh as (rest & Hbuf & Hc & Hlen).
  unfold strncat. rewrite Hk. cbn [mbind option_bind].
  set (t := take (256 - length s - 1) (c_str src)).
  assert (length t ≤ 255 - length s)%nat as Ht
    by (unfold t; rewrite length_take; lia).
  rewrite decide_True by lia. eexists. split; [reflexivity|].
  rewrite Htake.
  assert (take 255 (s ++ c_str src) = s ++ t) as ->.
  { rewrite take_app_ge by lia. unfold t. do 2 f_equal. lia. }
  exists (drop (length s + length t + 1) buf).
  split; [by rewrite <- app_assoc|]. split.
  - apply clean_app. split; [done|]. apply clean_take, clean_c_str.
  - rewrite !length_app, length_cons, length_drop. lia.
Qed.

(** ** The print functions in a build without the debugging macros *)

Abbreviation PrintDebugString_r :=
  (PrintDebugString ticks_per_ms false SEND_TO_OUTPUT_DEBUG_STRING
     SEND_TO_CONSOLE vformat).
Abbreviation PrintJavaDebugString2_r :=
  (PrintJavaDebugString2 ticks_per_ms false SEND_TO_OUTPUT_DEBUG_STRING
     SEND_TO_CONSOLE vformat).
Abbreviation wPrintDebugString_r :=
  (wPrintDebugString ticks_per_ms false SEND_TO_OUTPUT_DEBUG_STRING
     SEND_TO_CONSOLE vformat vwformat wcs_to_mbs).
Abbreviation wPrintJavaDebugString_r :=
  (wPrintJavaDebugString ticks_per_ms false SEND_TO_OUTPUT_DEBUG_STRING
     SEND_TO_CONSOLE vformat vwformat wcs_to_mbs).
Abbreviation initializeFileLogger_r :=
  (initializeFileLogger ticks_per_ms false SEND_TO_OUTPUT_DEBUG_STRING
     SEND_TO_CONSOLE vformat).
Abbreviation printError_r :=
  (printError ticks_per_ms false SEND_TO_OUTPUT_DEBUG_STRING
     SEND_TO_CONSOLE vformat).
Abbreviation run_op_r :=
  (run_op ticks_per_ms false false SEND_TO_OUTPUT_DEBUG_STRING
     SEND_TO_CONSOLE vformat vwformat wcs_to_mbs).
Abbreviation run_ops_r :=
  (run_ops ticks_per_ms false false SEND_TO_OUTPUT_DEBUG_STRING
     SEND_TO_CONSOLE vformat vwformat wcs_to_mbs).

Lemma wrap64_getTimeStamp (t : Z) :
  wrap64 (AccessBridgeDebug.getTimeStamp ticks_per_ms t)
  = AccessBridgeDebug.getTimeStamp ticks_per_ms t.
Proof. unfold AccessBridgeDebug.getTimeStamp. apply wrap64_id, wrap64_range. Qed.

Lemma prints_closed (p : Process) :
  logFP p = None →
  ∀ msg wmsg args,
    PrintDebugString_r msg args p = Some (tt, p) ∧
    PrintJavaDebugString2_r msg args p = Some (tt, p) ∧
    wPrintDebugString_r wmsg args p = Some (tt, p) ∧
    wPrintJavaDebugString_r wmsg args p = Some (tt, p).
Proof.
  intros Hfp msg wmsg args.
  unfold PrintDebugString, PrintJavaDebugString2, wPrintDebugString,
    wPrintJavaDebugString, bind, ret, get. by rewrite Hfp.
Qed.

Lemma prints_open (p : Process) (fp : positive) (path : list ascii) :
  logFP p = Some fp → streams p !! fp = Some path →
  let ts := AccessBridgeDebug.getTimeStamp ticks_per_ms (steady p) in
  ∀ msg wmsg args,
    PrintDebugString_r msg args p
    = Some (tt, appended path (stamp_lldu ts ++ vformat msg args ++ crlf) p) ∧
    PrintJavaDebugString2_r msg args p
    = Some (tt, appended path (stamp_llu ts ++ vformat msg args ++ crlf) p) ∧
    wPrintDebugString_r wmsg args p
    = Some (tt, appended path (stamp_llu ts ++ vwformat wmsg args ++ crlf) p) ∧
    wPrintJavaDebugString_r wmsg args p
    = Some (tt, appended path (stamp_llu ts ++ vwformat wmsg args ++ crlf) p).
Proof.
  intros Hfp Hs ts msg wmsg args.
  pose proof (λ text, write_line fp path (chars "[%lldu] ") _ text ts p Hs
                        (cformat_lldu ts)) as Hd.
  pose proof (λ text, write_line fp path (chars "[%llu] ") _ text ts p Hs
                        (cformat_llu ts)) as Hu.
  unfold ts in Hd at 2. rewrite wrap64_getTimeStamp in Hd. fold ts in Hd.
  unfold PrintDebugString, PrintJavaDebugString2, wPrintDebugString,
    wPrintJavaDebugString.
  unfold bind at 1 2, ret, get, timestamp. rewrite Hfp.
  repeat split.
  - unfold bind at 1. cbn beta iota. fold ts. apply Hd.
  - unfold bind at 1 2, ret, get, timestamp. rewrite Hfp.
    unfold bind at 1. cbn beta iota. fold ts. apply Hu.
  - unfold bind at 1 2, ret, get, timestamp. rewrite Hfp.
    unfold bind at 1. cbn beta iota. fold ts. apply Hu.
  - unfold bind at 1 2, ret, get, timestamp. rewrite Hfp.
    unfold bind at 1. cbn beta iota. fold ts. apply Hu.
Qed.

Lemma PrintDebugString_logged (msg : list ascii) (args : list Arg) (p : Process) :
  (∀ fp, logFP p = Some fp → is_Some (streams p !! fp)) →
  ∃ q, PrintDebugString_r msg args p = Some (tt, q) ∧ logged p q.
Proof.
  intros Hopen. destruct (logFP p) as [fp|] eqn:Hfp.
  - destruct (Hopen fp eq_refl) as [path Hpath].
    destruct (prints_open p fp path Hfp Hpath msg [] args) as (-> & _).
    eexists. split; [done|]. right. by eexists fp, path, _.
  - destruct (prints_closed p Hfp msg [] args) as (-> & _).
    eexists. split; [done|]. by left.
Qed.

Lemma printError_spec (msg : option (list ascii)) (p : Process) :
  consistent p →
  let r := take 255 (error_base msg p ++ error_tail p) in
  ∃ buf q,
    printError_r msg p = Some (r, with_retbuf buf q) ∧
    holds buf r ∧ logged p q.
Proof.
  intros (Hopen & Hlen & Hnul) r. unfold printError.
  (* lines 99-103 *)
  assert (∃ b1, match msg with
                | Some m =>
                    buf <- get retbuf ;;
                    buf <- lift (strncpy buf m 256) ;;
                    buf <- lift (store buf 255 NUL) ;;
                    modify (with_retbuf buf)
                | None => ret tt
                end p = Some (tt, with_retbuf b1 p) ∧
                holds b1 (error_base msg p)) as (b1 & Hcopy & Hb1).
  { destruct msg as [m|]; cbn [error_base].
    - destruct (strncpy_store (retbuf p) m Hlen) as (c1 & c2 & H1 & H2 & Hh).
      exists c2. split; [|done].
      unfold bind, get, lift, modify. by rewrite H1, H2.
    - exists (retbuf p). split; [by destruct p|]. by apply holds_c_str. }
  unfold bind at 1. rewrite Hcopy. clear Hcopy.
  unfold bind at 1. unfold FormatMessage, get. cbn [last_error_text with_retbuf].
  (* lines 104-118 *)
  set (p1 := with_retbuf b1 p).
  assert (∃ q, match last_error_text p with
               | Some text =>
                   PrintDebugString_r (chars "  %s: %s")
                     [ArgStr msg; ArgStr (Some text)]
               | None =>
                   PrintDebugString_r (chars "  %s: FormatMessage failed")
                     [ArgStr msg]
               end p1 = Some (tt, with_retbuf b1 q) ∧ logged p q)
    as (q & Hprint & Hq).
  { assert (∀ fmt args, ∃ q, PrintDebugString_r fmt args p1
                              = Some (tt, with_retbuf b1 q) ∧ logged p q) as Hany.
    { intros fmt args.
      destruct (PrintDebugString_logged fmt args p1 Hopen) as (q1 & -> & Hl).
      destruct Hl as [-> | (fp & path & text & Hfp & Hs & ->)].
      - exists p. split; [done|]. by left.
      - exists (appended path text p). split; [done|]. right.
        by exists fp, path, text. }
    destruct (last_error_text p); apply Hany. }
  unfold bind at 1. rewrite Hprint. clear Hprint.
  (* lines 119-123 *)
  unfold error_tail in r. subst r.
  destruct (last_error_text p) as [text|].
  - destruct (strncat_room b1 (error_base msg p) (chars ": ") Hb1)
      as (b2 & Hcat2 & Hb2).
    destruct (strncat_room b2 _ text Hb2) as (b3 & Hcat3 & Hb3).
    rewrite take_take_app, <- app_assoc in Hb3.
    rewrite (c_str_clean (chars ": ")) in Hb3
      by (apply (bool_decide_unpack _); by vm_compute).
    destruct (holds_strlen _ _ Hb1) as [Hk1 _].
    destruct (holds_strlen _ _ Hb2) as [Hk2 _].
    destruct (holds_strlen _ _ Hb3) as [Hk3 Ht3].
    rewrite (c_str_clean (chars ": ")) in Hcat3, Hk2
      by (apply (bool_decide_unpack _); by vm_compute).
    exists b3, q. split; [|done].
    unfold bind, get, lift, modify, ret. cbn [retbuf with_retbuf].
    rewrite Hk1. cbv beta iota. rewrite Hcat2. cbv beta iota.
    cbn [retbuf with_retbuf]. rewrite Hk2. cbv beta iota.
    rewrite Hcat3. cbv beta iota. cbn [retbuf with_retbuf].
    rewrite Hk3. cbv beta iota. rewrite Ht3. by destruct q.
  - rewrite app_nil_r.
    assert (take 255 (error_base msg p) = error_base msg p) as Hshort.
    { apply take_ge. by eapply holds_length. }
    rewrite Hshort. destruct (holds_strlen _ _ Hb1) as [Hk1 Ht1].
    exists b1, q. split; [|done].
    unfold bind, get, lift, modify, ret. cbn [retbuf with_retbuf].
    rewrite Hk1. cbv beta iota. by rewrite Ht1.
Qed.

(** ** The print functions in any build *)

Abbreviation echo on text p :=
  (if on then echoed SEND_TO_OUTPUT_DEBUG_STRING SEND_TO_CONSOLE (c_str text) p
   else p).

(** Lines 141-144: [printf (buf)] and [printf] of the line end. *)
Lemma console_step (text : list ascii) (q : Process) :
  (SEND_TO_CONSOLE = true → percent ∉ text) →
  (if SEND_TO_CONSOLE then printf text ;;; printf crlf else ret tt) q
  = Some (tt, with_console (if SEND_TO_CONSOLE then console q ++ text ++ crlf
                            else console q) q).
Proof.
  destruct SEND_TO_CONSOLE; [|by destruct q]. intros Hplain.
  unfold bind at 1, printf at 1, bind at 1, lift.
  rewrite (cformat_plain text [] (Hplain eq_refl)). unfold modify at 1.
  unfold printf, bind, lift. rewrite cformat_crlf. unfold modify.
  cbn [console with_console]. by rewrite <- app_assoc.
Qed.

(** Lines 133-145: the text is formatted into [buf] and sent out. *)
Lemma debug_step (on : bool) (msg : list ascii) (args : list Arg) (p : Process) :
  (on = true → fits SEND_TO_CONSOLE (vformat msg args)) →
  (if on then
     buf <- vsprintf vformat 1024 msg args ;;
     send SEND_TO_OUTPUT_DEBUG_STRING SEND_TO_CONSOLE buf
   else ret tt) p
  = Some (tt, echo on (vformat msg args) p).
Proof.
  destruct on; [|done]. intros Hfit. destruct (Hfit eq_refl) as [Hlen Hplain].
  unfold bind at 1, vsprintf. rewrite decide_True by done. unfold ret at 1.
  unfold send, echoed, bind at 1.
  destruct SEND_TO_OUTPUT_DEBUG_STRING; cbn [OutputDebugString modify ret].
  - by rewrite console_step.
  - rewrite console_step by done. by destruct p.
Qed.

(** Lines 190-201: the wide format is converted first. *)
Lemma wdebug_step (on : bool) (wmsg : list N) (args : list Arg) (p : Process) :
  let fmt := c_str (wcs_to_mbs wmsg) in
  (on = true →
   (length (wcs_to_mbs wmsg) < 256)%nat ∧ fits SEND_TO_CONSOLE (vformat fmt args)) →
  (if on then
     charmsg <- sprintf_ls wcs_to_mbs 256 wmsg ;;
     buf <- vsprintf vformat 1024 charmsg args ;;
     send SEND_TO_OUTPUT_DEBUG_STRING SEND_TO_CONSOLE buf
   else ret tt) p
  = Some (tt, echo on (vformat fmt args) p).
Proof.
  intros fmt. destruct on; [|done]. intros Hfit.
  destruct (Hfit eq_refl) as [Hlen Hf].
  unfold bind at 1, sprintf_ls. rewrite decide_True by done. unfold ret at 1.
  fold fmt. exact (debug_step true fmt args p (λ _, Hf)).
Qed.

(** A build with a debugging macro sends the text out and then does what
    a build without does. *)
Lemma prints_build (on : bool) (p : Process) :
  (∀ msg args,
     (on = true → fits SEND_TO_CONSOLE (vformat msg args)) →
     PrintDebugString ticks_per_ms on SEND_TO_OUTPUT_DEBUG_STRING
       SEND_TO_CONSOLE vformat msg args p
     = PrintDebugString_r msg args (echo on (vformat msg args) p) ∧
     PrintJavaDebugString2 ticks_per_ms on SEND_TO_OUTPUT_DEBUG_STRING
       SEND_TO_CONSOLE vformat msg args p
     = PrintJavaDebugString2_r msg args (echo on (vformat msg args) p)) ∧
  (∀ wmsg args,
     let fmt := c_str (wcs_to_mbs wmsg) in
     (on = true →
      (length (wcs_to_mbs wmsg) < 256)%nat ∧
      fits SEND_TO_CONSOLE (vformat fmt args)) →
     wPrintDebugString ticks_per_ms on SEND_TO_OUTPUT_DEBUG_STRING
       SEND_TO_CONSOLE vformat vwformat wcs_to_mbs wmsg args p
     = wPrintDebugString_r wmsg args (echo on (vformat fmt args) p) ∧
     wPrintJavaDebugString ticks_per_ms on SEND_TO_OUTPUT_DEBUG_STRING
       SEND_TO_CONSOLE vformat vwformat wcs_to_mbs wmsg args p
     = wPrintJavaDebugString_r wmsg args (echo on (vformat fmt args) p)).
Proof.
  split.
  - intros msg args Hfit. pose proof (debug_step on msg args p Hfit) as Hd.
    unfold PrintDebugString, PrintJavaDebugString2.
    split; unfold bind at 1; by rewrite Hd.
  - intros wmsg args fmt Hfit.
    pose proof (wdebug_step on wmsg args p Hfit) as Hd. cbv zeta in Hd.
    unfold wPrintDebugString, wPrintJavaDebugString.
    split; unfold bind at 1; by rewrite Hd.
Qed.


Lemma echo_consistent (on : bool) (text : list ascii) (p : Process) :
  consistent p → consistent (echo on text p).
Proof. by destruct on. Qed.

Lemma bind_get {A B} (f : Process → A) (k : A → P B) (q : Process) :
  bind (get f) k q = k (f q) q.
Proof. done. Qed.

Lemma bind_cong {A B} (m m' : P A) (k k' : A → P B) (q q' : Process) :
  match m q, m' q' with
  | Some (a, q1), Some (a', q1') => k a q1 = k' a' q1'
  | None, None => True
  | _, _ => False
  end →
  bind m k q = bind m' k' q'.
Proof.
  unfold bind. destruct (m q) as [[a q1]|], (m' q') as [[a' q1']|]; done.
Qed.

(** [printError] in any build: the report is sent out, and the rest is
    what a build without the macro does. *)
Lemma printError_build (on : bool) (msg : option (list ascii)) (p : Process) :
  (on = true → fits SEND_TO_CONSOLE (error_report vformat msg p)) →
  printError ticks_per_ms on SEND_TO_OUTPUT_DEBUG_STRING SEND_TO_CONSOLE vformat
    msg p
  = printError_r msg (echo on (error_report vformat msg p) p).
Proof.
  destruct on; [|done]. intros Hfit. specialize (Hfit eq_refl).
  set (text := c_str (error_report vformat msg p)).
  assert (∀ fmt args q,
            error_report vformat msg p = vformat fmt args →
            PrintDebugString ticks_per_ms true SEND_TO_OUTPUT_DEBUG_STRING
              SEND_TO_CONSOLE vformat fmt args q
            = PrintDebugString_r fmt args
                (echoed SEND_TO_OUTPUT_DEBUG_STRING SEND_TO_CONSOLE text q))
    as Hprint.
  { intros fmt args q Heq. destruct (prints_build true q) as [Hb _].
    destruct (Hb fmt args) as [-> _]; [by rewrite <- Heq|].
    unfold text. by rewrite Heq. }
  unfold printError.
  match goal with
  | |- bind _ ?k p = bind _ ?k' _ =>
      assert (∀ q, last_error_text q = last_error_text p →
                   k tt q
                   = k' tt (echoed SEND_TO_OUTPUT_DEBUG_STRING SEND_TO_CONSOLE
                              text q)) as HK
  end.
  { intros q Hq. cbv beta. unfold FormatMessage. rewrite !bind_get.
    cbn [last_error_text echoed with_console with_debugger]. rewrite Hq.
    unfold error_report in Hprint.
    destruct (last_error_text p) as [t|]; apply bind_cong; rewrite Hprint by done.
    - by destruct (PrintDebugString_r _ _ _) as [[[] q1]|].
    - by destruct (PrintDebugString_r _ _ _) as [[[] q1]|]. }
  apply bind_cong. destruct msg as [m|].
  - unfold bind, get, lift, modify. cbn [retbuf echoed with_console with_debugger].
    destruct (strncpy (retbuf p) m 256) as [b0|]; [|done].
    destruct (store b0 255 NUL) as [b1|]; [|done].
    exact (HK (with_retbuf b1 p) eq_refl).
  - exact (HK p eq_refl).
Qed.



(** ** The print functions with the log open, in any build *)


(** [printError] in any build. *)
Lemma printError_any (on : bool) (msg : option (list ascii)) (p : Process) :
  consistent p →
  (on = true → fits SEND_TO_CONSOLE (error_report vformat msg p)) →
  let r := take 255 (error_base msg p ++ error_tail p) in
  ∃ buf q,
    printError ticks_per_ms on SEND_TO_OUTPUT_DEBUG_STRING SEND_TO_CONSOLE vformat
      msg p = Some (r, with_retbuf buf q) ∧
    holds buf r ∧ logged (echo on (error_report vformat msg p) p) q.
Proof.
  intros Hc Hfit r. rewrite (printError_build on msg p Hfit).
  destruct (printError_spec msg _ (echo_consistent on (error_report vformat msg p)
                                     p Hc)) as (buf & q & Hrun & Hh & Hl).
  cbv zeta in Hrun.
  assert (error_base msg (echo on (error_report vformat msg p) p) = error_base msg p)
    as Hb by (by destruct on, msg).
  assert (error_tail (echo on (error_report vformat msg p) p) = error_tail p)
    as Ht by (by destruct on).
  rewrite Hb, Ht in Hrun, Hh. by exists buf, q.
Qed.

(** ** What every operation keeps *)

Lemma grows_same_files (p q : Process) : files q = files p → grows p q.
Proof. intros Hf path old H. exists []. by rewrite Hf, app_nil_r. Qed.

Lemma grows_refl (p : Process) : grows p p.
Proof. by apply grows_same_files. Qed.

Lemma grows_trans (p q r : Process) : grows p q → grows q r → grows p r.
Proof.
  intros H1 H2 path old Hp. destruct (H1 path old Hp) as (e1 & Hq).
  destruct (H2 path _ Hq) as (e2 & Hr). exists (e1 ++ e2).
  by rewrite app_assoc.
Qed.

Lemma untouched_refl (p : Process) : untouched p p.
Proof. by unfold untouched. Qed.

Lemma untouched_trans (p q r : Process) :
  untouched p q → untouched q r → untouched p r.
Proof.
  unfold untouched. intros (?&?&?&?&?) (?&?&?&?&?). repeat split; congruence.
Qed.

Lemma grows_appended (path text : list ascii) (p : Process) :
  grows p (appended path text p).
Proof.
  intros path' old Hold. unfold appended. cbn.
  destruct (decide (path = path')) as [->|Hne].
  - rewrite lookup_insert_eq, Hold. by exists text.
  - rewrite lookup_insert_ne by done. exists []. by rewrite app_nil_r.
Qed.

Lemma logged_facts (p q : Process) :
  logged p q → consistent p →
  consistent q ∧ untouched p q ∧ grows p q ∧
  dom (files p) ⊆ dom (files q) ∧
  logFP q = logFP p ∧ streams q = streams p ∧ steady q = steady p ∧
  retbuf q = retbuf p.
Proof.
  intros [-> | (fp & path & text & Hfp & Hs & ->)] Hc.
  - split; [done|]. split; [apply untouched_refl|]. split; [apply grows_refl|].
    done.
  - split; [exact Hc|]. split; [done|].
    split; [apply grows_appended|].
    split; [|done]. cbn. rewrite dom_insert. apply union_subseteq_r.
Qed.

Lemma holds_consistent (buf r : list ascii) (q : Process) :
  holds buf r → consistent q → consistent (with_retbuf buf q).
Proof.
  intros Hh (Hopen & _ & _). destruct (holds_strlen buf r Hh) as [Hk _].
  destruct Hh as (rest & _ & _ & Hlen).
  split; [exact Hopen|]. split; [exact Hlen|]. cbn. by rewrite Hk.
Qed.

(** In a build without the debugging macros every operation on a
    consistent process is defined, and leaves a consistent process. *)
Lemma run_op_release (op : Op) (p : Process) :
  consistent p →
  ∃ q, run_op_r op p = Some (tt, q) ∧
       consistent q ∧ untouched p q ∧
       dom (files p) ⊆ dom (files q) ∧
       ((∀ suffix, op ≠ OpInitialize suffix) → grows p q).
Proof.
  intros Hc. pose proof Hc as (Hopen & Hlen & Hnul).
  assert (∀ q, logged p q →
               consistent q ∧ untouched p q ∧ dom (files p) ⊆ dom (files q) ∧
               ((∀ suffix, op ≠ OpInitialize suffix) → grows p q)) as Hlogged.
  { intros q Hl. destruct (logged_facts p q Hl Hc) as (? & ? & ? & ? & _).
    by repeat (split; [done|]). }
  destruct op as [suffix| |msg args|msg args|msg args|msg args|msg|d];
    cbn [run_op].
  - destruct (environ p !! chars "JAVA_ACCESSBRIDGE_LOGFILE") as [v|] eqn:Henv.
    + rewrite (initialize_spec false suffix p v Henv). cbv zeta.
      unfold fopen_w. destruct (decide _) as [Hro|Hrw].
      * destruct (prints_closed (with_logFP None p) eq_refl
                    (chars "couldnot open file %s") []
                    [ArgStr (Some (log_file_name (c_str v) (suffix_chars suffix)))])
          as (-> & _).
        eexists. split; [done|]. split; [by split|]. split; [done|].
        split; [done|]. intros Hne. by destruct (Hne suffix).
      * eexists. split; [done|]. split.
        { split; [|done]. cbn. intros fp [= <-]. rewrite lookup_insert_eq.
          by eexists. }
        split; [done|].
        split; [cbn; rewrite dom_insert; apply union_subseteq_r|].
        intros Hne. by destruct (Hne suffix).
    + exists p. split.
      { unfold initializeFileLogger, bind, getenv, get. by rewrite Henv. }
      apply Hlogged. by left.
  - unfold finalizeFileLogger, bind, get.
    destruct (logFP p) as [fp|] eqn:Hfp.
    + destruct (Hopen fp eq_refl) as [path Hpath].
      unfold fclose. rewrite Hpath. eexists. split; [done|].
      split; [by split|]. split; [done|]. split; [done|].
      intros _. by apply grows_same_files.
    + exists p. split; [done|]. apply Hlogged. by left.
  - destruct (PrintDebugString_logged msg args p Hopen) as (q & -> & Hl).
    exists q. split; [done|]. by apply Hlogged.
  - assert (∃ q, PrintJavaDebugString2_r msg args p = Some (tt, q) ∧ logged p q)
      as (q & -> & Hl).
    { destruct (logFP p) as [fp|] eqn:Hfp.
      - destruct (Hopen fp eq_refl) as [path Hpath].
        destruct (prints_open p fp path Hfp Hpath msg [] args) as (_ & -> & _).
        eexists. split; [done|]. right. by eexists fp, path, _.
      - destruct (prints_closed p Hfp msg [] args) as (_ & -> & _).
        eexists. split; [done|]. by left. }
    exists q. split; [done|]. by apply Hlogged.
  - assert (∃ q, wPrintDebugString_r msg args p = Some (tt, q) ∧ logged p q)
      as (q & -> & Hl).
    { destruct (logFP p) as [fp|] eqn:Hfp.
      - destruct (Hopen fp eq_refl) as [path Hpath].
        destruct (prints_open p fp path Hfp Hpath [] msg args) as (_ & _ & -> & _).
        eexists. split; [done|]. right. by eexists fp, path, _.
      - destruct (prints_closed p Hfp [] msg args) as (_ & _ & -> & _).
        eexists. split; [done|]. by left. }
    exists q. split; [done|]. by apply Hlogged.
  - assert (∃ q, wPrintJavaDebugString_r msg args p = Some (tt, q) ∧ logged p q)
      as (q & -> & Hl).
    { destruct (logFP p) as [fp|] eqn:Hfp.
      - destruct (Hopen fp eq_refl) as [path Hpath].
        destruct (prints_open p fp path Hfp Hpath [] msg args) as (_ & _ & _ & ->).
        eexists. split; [done|]. right. by eexists fp, path, _.
      - destruct (prints_closed p Hfp [] msg args) as (_ & _ & _ & ->).
        eexists. split; [done|]. by left. }
    exists q. split; [done|]. by apply Hlogged.
  - destruct (printError_spec msg p Hc) as (buf & q & Hrun & Hh & Hl).
    cbv zeta in Hrun. unfold bind. rewrite Hrun.
    exists (with_retbuf buf q). split; [done|].
    destruct (Hlogged q Hl) as (Hcq & Hu & Hd & Hg).
    split; [by eapply holds_consistent|]. by repeat (split; [done|]).
  - eexists. split; [done|]. split; [by split|]. split; [done|].
    split; [done|]. intros _. by apply grows_same_files.
Qed.

(** ** The log file that is opened *)

Lemma log_file_name_no_dot (path sfx : list ascii) :
  dot ∉ path → log_file_name path sfx = path ++ sfx ++ chars ".log".
Proof. intros Hd. unfold log_file_name. apply strrchr_None in Hd. by rewrite Hd. Qed.

Lemma log_file_name_dot (stem e sfx : list ascii) :
  dot ∉ e → log_file_name (stem ++ dot :: e) sfx = stem ++ sfx ++ dot :: e.
Proof.
  intros He. unfold log_file_name. rewrite (strrchr_last stem e dot He).
  by rewrite take_app_length, drop_app_length.
Qed.

Lemma initialize_opens (DEBUGGING_ON : bool) (suffix : option (list ascii))
    (p : Process) (v : list ascii) :
  environ p !! logfile_variable = Some v →
  log_file_name (c_str v) (suffix_chars suffix) ∉ read_only p →
  initializeFileLogger ticks_per_ms DEBUGGING_ON SEND_TO_OUTPUT_DEBUG_STRING
    SEND_TO_CONSOLE vformat suffix p
  = Some (tt, opened (log_file_name (c_str v) (suffix_chars suffix)) p).
Proof.
  intros Henv Hrw. rewrite (initialize_spec DEBUGGING_ON suffix p v Henv).
  cbv zeta. unfold fopen_w. by rewrite decide_False.
Qed.

(** X8.  When the path in [JAVA_ACCESSBRIDGE_LOGFILE] has no dot, the log
    file is the path followed by the suffix and [.log] (a null suffix
    counting as empty): no copy leaves the buffer of [len + suffixlen + 5]
    characters, the file is created or emptied, and [logFP] is a new stream
    on it; nothing else changes. *)
Theorem log_file_without_extension (DEBUGGING_ON : bool)
    (suffix : option (list ascii)) (p : Process) (v : list ascii) :
  environ p !! logfile_variable = Some v →
  (dot ∉ c_str v) →
  let name := c_str v ++ suffix_chars suffix ++ chars ".log" in
  name ∉ read_only p →
  let fp := fresh (dom (streams p)) in
  initializeFileLogger ticks_per_ms DEBUGGING_ON SEND_TO_OUTPUT_DEBUG_STRING
    SEND_TO_CONSOLE vformat suffix p
  = Some (tt, with_logFP (Some fp)
                (with_streams (<[fp := name]> (streams p))
                   (with_files (<[name := []]> (files p)) p))) ∧
  length name = (strlen v + length (suffix_chars suffix) + 4)%nat.
Proof.
  intros Henv Hdot name Hrw fp.
  pose proof (log_file_name_no_dot (c_str v) (suffix_chars suffix) Hdot) as Hname.
  split.
  - rewrite (initialize_opens DEBUGGING_ON suffix p v Henv); rewrite Hname; done.
  - unfold name, strlen. rewrite !length_app. cbn. lia.
Qed.

(** X9.  When the path has a dot, the suffix goes in front of the last dot
    of the whole path, whatever follows that dot: for a path
    [stem . rest], [rest] without a dot, the log file is
    [stem suffix . rest].  No copy leaves the buffer of
    [len + suffixlen + 1] characters, the file is created or emptied, and
    [logFP] is a new stream on it. *)
Theorem log_file_with_extension (DEBUGGING_ON : bool)
    (suffix : option (list ascii)) (p : Process) (v stem rest : list ascii) :
  environ p !! logfile_variable = Some v →
  c_str v = stem ++ dot :: rest →
  (dot ∉ rest) →
  let name := stem ++ suffix_chars suffix ++ dot :: rest in
  name ∉ read_only p →
  let fp := fresh (dom (streams p)) in
  initializeFileLogger ticks_per_ms DEBUGGING_ON SEND_TO_OUTPUT_DEBUG_STRING
    SEND_TO_CONSOLE vformat suffix p
  = Some (tt, with_logFP (Some fp)
                (with_streams (<[fp := name]> (streams p))
                   (with_files (<[name := []]> (files p)) p))) ∧
  length name = (strlen v + length (suffix_chars suffix))%nat ∧
  (suffix_chars suffix = [] → name = c_str v).
Proof.
  intros Henv Hv Hdot name Hrw fp.
  pose proof (log_file_name_dot stem rest (suffix_chars suffix) Hdot) as Hname.
  rewrite <- Hv in Hname. split; [|split].
  - rewrite (initialize_opens DEBUGGING_ON suffix p v Henv); rewrite Hname; done.
  - unfold name, strlen. rewrite Hv, !length_app. cbn [length].
    rewrite ?length_app. lia.
  - intros Hs. unfold name. by rewrite Hs, Hv.
Qed.


(** X11.  [finalizeFileLogger] closes the stream of the log, if there is
    one, and nothing but that stream; afterwards [logFP] is null, a second
    call does nothing, and (in a build without the debugging macros) so do
    the four print functions.  The files keep their contents. *)
Theorem finalize_stops_logging (p : Process) :
  consistent p →
  ∃ q,
    finalizeFileLogger p = Some (tt, q) ∧
    logFP q = None ∧
    files q = files p ∧
    streams q = match logFP p with
                | Some fp => delete fp (streams p)
                | None => streams p
                end ∧
    finalizeFileLogger q = Some (tt, q) ∧
    ∀ msg wmsg args,
      PrintDebugString_r msg args q = Some (tt, q) ∧
      PrintJavaDebugString2_r msg args q = Some (tt, q) ∧
      wPrintDebugString_r wmsg args q = Some (tt, q) ∧
      wPrintJavaDebugString_r wmsg args q = Some (tt, q).
Proof.
  intros (Hopen & _ & _). unfold finalizeFileLogger at 1. unfold bind, get.
  destruct (logFP p) as [fp|] eqn:Hfp.
  - destruct (Hopen fp eq_refl) as [path Hpath]. unfold fclose. rewrite Hpath.
    exists (with_logFP None (with_streams (delete fp (streams p)) p)).
    split; [done|]. split; [done|]. split; [done|]. split; [done|].
    split; [done|]. by apply prints_closed.
  - exists p. split; [done|]. split; [done|]. split; [done|]. split; [done|].
    split; [|by apply prints_closed].
    unfold finalizeFileLogger, bind, get. by rewrite Hfp.
Qed.


Lemma run_ops_release (ops : list Op) (p : Process) :
  consistent p →
  ∃ q, run_ops_r ops p = Some (tt, q) ∧
       consistent q ∧ untouched p q ∧
       dom (files p) ⊆ dom (files q) ∧
       (Forall (λ op, ∀ suffix, op ≠ OpInitialize suffix) ops → grows p q).
Proof.
  revert p. induction ops as [|op ops IH]; intros p Hc.
  - exists p. split; [done|]. split; [done|]. split; [apply untouched_refl|].
    split; [done|]. intros _. apply grows_refl.
  - destruct (run_op_release op p Hc) as (q1 & Hrun1 & Hc1 & Hu1 & Hd1 & Hg1).
    destruct (IH q1 Hc1) as (q & Hrun & Hcq & Hu & Hd & Hg).
    exists q. split.
    { cbn [run_ops]. unfold bind. by rewrite Hrun1. }
    split; [done|]. split; [by eapply untouched_trans|].
    split; [by etrans|].
    intros Hall. apply Forall_cons in Hall as [Hop Hops].
    eapply grows_trans; [by apply Hg1|by apply Hg].
Qed.

(** X13.  In a build without the debugging macros, whatever a program
    does with the logger (initialise, finalise, print through any of the
    four functions, call [printError], let time pass) and in whatever
    order, starting from a consistent process: every step is defined (no
    write to a stream that is not open, no copy outside [retbuf]), the
    process stays consistent, nothing goes to the debugger or to standard
    output, the environment is not changed and no file disappears. *)
Theorem logger_is_safe (ops : list Op) (p : Process) :
  consistent p →
  ∃ q,
    run_ops_r ops p = Some (tt, q) ∧
    consistent q ∧
    debugger q = debugger p ∧ console q = console p ∧
    environ q = environ p ∧
    dom (files p) ⊆ dom (files q).
Proof.
  intros Hc. destruct (run_ops_release ops p Hc) as (q & Hrun & Hcq & Hu & Hd & _).
  destruct Hu as (He & _ & _ & Hdbg & Hcon). by exists q.
Qed.

(** X14.  The log is only ever added to: over any operations other than
    [initializeFileLogger], in a build without the debugging macros, every
    file keeps the characters it had and at most gets more at its end. *)
Theorem log_only_grows (ops : list Op) (p : Process) :
  consistent p →
  Forall (λ op, ∀ suffix, op ≠ OpInitialize suffix) ops →
  ∃ q,
    run_ops_r ops p = Some (tt, q) ∧
    ∀ path old, files p !! path = Some old →
                ∃ extra, files q !! path = Some (old ++ extra).
Proof.
  intros Hc Hops.
  destruct (run_ops_release ops p Hc) as (q & Hrun & _ & _ & _ & Hg).
  exists q. split; [done|]. by apply Hg.
Qed.

(** X15.  [printError] never writes outside [retbuf] and returns a
    string of at most 255 characters: the message, then, if the system has
    a text for the last error, a colon, a space and that text, the whole
    cut to 255 characters.  For a null message the string that [retbuf]
    held before the call stands in for the message.  The string stays in
    [retbuf].  This holds in a build without [DEBUGGING_ON], where nothing
    goes to the debugger or to standard output, and in a build with it
    when the report that the function hands to [PrintDebugString] fits the
    buffer of 1024 characters there and is printed by [printf] as it
    stands; the report is then what has gone to the debugger and to
    standard output, and nothing else. *)
Theorem printError_text (DEBUGGING_ON : bool) (msg : option (list ascii))
    (p : Process) :
  consistent p →
  (DEBUGGING_ON = true → fits SEND_TO_CONSOLE (error_report vformat msg p)) →
  let base := match msg with Some m => c_str m | None => c_str (retbuf p) end in
  let tail := match last_error_text p with
              | Some text => chars ": " ++ c_str text
              | None => []
              end in
  let sent :=
    if DEBUGGING_ON
    then echoed SEND_TO_OUTPUT_DEBUG_STRING SEND_TO_CONSOLE
           (c_str (error_report vformat msg p)) p
    else p in
  ∃ q,
    printError ticks_per_ms DEBUGGING_ON SEND_TO_OUTPUT_DEBUG_STRING
      SEND_TO_CONSOLE vformat msg p = Some (take 255 (base ++ tail), q) ∧
    (length (take 255 (base ++ tail)) ≤ 255)%nat ∧
    c_str (retbuf q) = take 255 (base ++ tail) ∧
    consistent q ∧
    last_error_text q = last_error_text p ∧
    debugger q = debugger sent ∧ console q = console sent.
Proof.
  intros Hc Hfit base tail sent.
  destruct (printError_any DEBUGGING_ON msg p Hc Hfit) as (buf & q & Hrun & Hh & Hl).
  cbv zeta in Hrun. fold sent in Hl.
  assert (take 255 (error_base msg p ++ error_tail p) = take 255 (base ++ tail))
    as Heq.
  { unfold error_base, error_tail, base, tail. destruct msg; [|done].
    apply take_take_app. }
  rewrite Heq in Hrun, Hh. exists (with_retbuf buf q).
  split; [done|]. split; [rewrite length_take; lia|].
  assert (consistent sent) as Hcs by (by apply echo_consistent).
  destruct (logged_facts sent q Hl Hcs) as (Hcq & Hu & _).
  split.
  { destruct Hh as (rest & -> & Hclean & _). cbn. by apply c_str_app_NUL. }
  split; [by eapply holds_consistent|].
  destruct Hu as (_ & _ & Hle & Hdbg & Hcon).
  split; [|by split].
  cbn [last_error_text with_retbuf]. rewrite Hle. unfold sent.
  by destruct DEBUGGING_ON.
Qed.

(** X16.  [retbuf] is static, so a call with a null message adds to what
    the call before left: after [printError (m)], [printError (NULL)]
    returns the message followed by the system's text twice, cut to 255
    characters.  This holds in a build without [DEBUGGING_ON], and in a
    build with it when the reports of the two calls fit the buffer of
    [PrintDebugString] and are printed by [printf] as they stand. *)
Theorem printError_null_accumulates (DEBUGGING_ON : bool) (m text : list ascii)
    (p : Process) :
  consistent p →
  last_error_text p = Some text →
  (DEBUGGING_ON = true →
   fits SEND_TO_CONSOLE
     (vformat (chars "  %s: %s") [ArgStr (Some m); ArgStr (Some text)]) ∧
   fits SEND_TO_CONSOLE
     (vformat (chars "  %s: %s") [ArgStr None; ArgStr (Some text)])) →
  ∃ q1 q2,
    printError ticks_per_ms DEBUGGING_ON SEND_TO_OUTPUT_DEBUG_STRING
      SEND_TO_CONSOLE vformat (Some m) p
    = Some (take 255 (c_str m ++ chars ": " ++ c_str text), q1) ∧
    printError ticks_per_ms DEBUGGING_ON SEND_TO_OUTPUT_DEBUG_STRING
      SEND_TO_CONSOLE vformat None q1
    = Some (take 255 (c_str m ++ (chars ": " ++ c_str text)
                      ++ chars ": " ++ c_str text), q2).
Proof.
  intros Hc Htext Hfit.
  assert (DEBUGGING_ON = true →
          fits SEND_TO_CONSOLE (error_report vformat (Some m) p)) as Hfit1.
  { intros Hon. unfold error_report. rewrite Htext. by apply Hfit. }
  destruct (printError_any DEBUGGING_ON (Some m) p Hc Hfit1)
    as (b1 & p1 & Hrun1 & Hh1 & Hl1).
  cbv zeta in Hrun1. unfold error_base, error_tail in Hrun1, Hh1.
  rewrite Htext, take_take_app in Hrun1, Hh1.
  destruct (logged_facts _ p1 Hl1
              (echo_consistent DEBUGGING_ON (error_report vformat (Some m) p) p Hc))
    as (Hc1 & Hu1 & _).
  assert (consistent (with_retbuf b1 p1)) as Hc1' by (by eapply holds_consistent).
  assert (last_error_text (with_retbuf b1 p1) = Some text) as Htext1.
  { destruct Hu1 as (_ & _ & Hle & _). cbn [last_error_text with_retbuf].
    rewrite Hle, <- Htext. by destruct DEBUGGING_ON. }
  assert (DEBUGGING_ON = true →
          fits SEND_TO_CONSOLE (error_report vformat None (with_retbuf b1 p1)))
    as Hfit2.
  { intros Hon. unfold error_report. rewrite Htext1. by apply Hfit. }
  destruct (printError_any DEBUGGING_ON None (with_retbuf b1 p1) Hc1' Hfit2)
    as (b2 & p2 & Hrun2 & _).
  cbv zeta in Hrun2. unfold error_base, error_tail in Hrun2.
  rewrite Htext1 in Hrun2. cbn [retbuf with_retbuf] in Hrun2.
  assert (c_str b1 = take 255 (c_str m ++ chars ": " ++ c_str text)) as Hb1.
  { destruct Hh1 as (rest & -> & Hclean & _). by apply c_str_app_NUL. }
  rewrite Hb1, take_take_app, <- app_assoc in Hrun2.
  by exists (with_retbuf b1 p1), (with_retbuf b2 p2).
Qed.

(** X17.  [initializeFileLogger] does not close a log that is open: when
    the process is logging and the logger is initialised again, [logFP]
    becomes a new stream, and the stream it was before is still open after
    [finalizeFileLogger], with [logFP] null. *)
Theorem reinitialize_leaks_the_stream (DEBUGGING_ON : bool)
    (suffix : option (list ascii)) (p : Process) (v : list ascii)
    (fp0 : positive) :
  consistent p →
  logFP p = Some fp0 →
  environ p !! logfile_variable = Some v →
  log_file_name (c_str v) (suffix_chars suffix) ∉ read_only p →
  ∃ q1 q2 fp1,
    initializeFileLogger ticks_per_ms DEBUGGING_ON SEND_TO_OUTPUT_DEBUG_STRING
      SEND_TO_CONSOLE vformat suffix p = Some (tt, q1) ∧
    logFP q1 = Some fp1 ∧ fp1 ≠ fp0 ∧
    finalizeFileLogger q1 = Some (tt, q2) ∧
    logFP q2 = None ∧
    is_Some (streams q2 !! fp0) ∧
    streams q2 !! fp0 = streams p !! fp0.
Proof.
  intros (Hopen & _ & _) Hfp Henv Hrw.
  destruct (Hopen fp0 Hfp) as [path0 Hpath0].
  set (name := log_file_name (c_str v) (suffix_chars suffix)) in *.
  set (fp1 := fresh (dom (streams p))).
  assert (fp1 ≠ fp0) as Hne.
  { intros Heq. apply (is_fresh (dom (streams p))). fold fp1. rewrite Heq.
    apply elem_of_dom. by eexists. }
  exists (opened name p),
    (with_logFP None (with_streams (delete fp1 (streams (opened name p)))
                        (opened name p))), fp1.
  split; [by apply initialize_opens|]. split; [done|]. split; [done|].
  split.
  { unfold finalizeFileLogger, bind, get, fclose. cbn. fold fp1.
    by rewrite lookup_insert_eq. }
  split; [done|].
  assert (streams (with_logFP None
                     (with_streams (delete fp1 (streams (opened name p)))
                        (opened name p))) !! fp0 = Some path0) as Hs.
  { cbn. fold fp1. rewrite lookup_delete_ne, lookup_insert_ne by done. done. }
  split; [by rewrite Hs|]. by rewrite Hs, Hpath0.
Qed.

End LoggerFacts.

(** ** Sample runs of the logger *)

Lemma start_consistent env ro fs (t : Z) err : consistent (start env ro fs t err).
Proof.
  split; [done|]. split; [reflexivity|]. by eexists.
Qed.

Lemma sample_logging_consistent : consistent sample_logging.
Proof.
  split; [|split; [reflexivity|by eexists]].
  intros fp [= <-]. by eexists.
Qed.

(** Initialise with the suffix [_java], print twice, finalise, print
    again: the file has the two lines, with and without the letter u. *)
Example run_sample_process :
  (run_ops 1000000 false false false false plain_format plain_wformat
     plain_narrow
     [OpInitialize (Some (chars "_java")); OpPrint (chars "hello") [];
      OpTick 5000000; OpPrintJava (chars "world") []; OpFinalize;
      OpPrint (chars "lost") []] sample_process)
  ≫= (λ r, files r.2 !! chars "C:\logs.d\bridge_java.txt")
  = Some (chars "[1u] hello" ++ [CR; LF] ++ chars "[6] world" ++ [CR; LF]).
Proof. vm_compute. reflexivity. Qed.

Lemma log_file_without_extension_witness :
  let name := c_str (chars "bridge") ++ suffix_chars (Some (chars "_java"))
              ++ chars ".log" in
  let fp := fresh (dom (streams sample_process_no_dot)) in
  initializeFileLogger 1000000 false false false plain_format
    (Some (chars "_java")) sample_process_no_dot
  = Some (tt, with_logFP (Some fp)
                (with_streams (<[fp := name]> (streams sample_process_no_dot))
                   (with_files (<[name := []]> (files sample_process_no_dot))
                      sample_process_no_dot))) ∧
  length name = (strlen (chars "bridge")
                 + length (suffix_chars (Some (chars "_java"))) + 4)%nat.
Proof.
  apply (log_file_without_extension 1000000 false false plain_format false
           (Some (chars "_java")) sample_process_no_dot (chars "bridge")).
  - vm_compute. reflexivity.
  - apply (bool_decide_unpack _). vm_compute. reflexivity.
  - apply not_elem_of_empty.
Defined.

Lemma log_file_with_extension_witness :
  let name := chars "C:\logs.d\bridge" ++ suffix_chars (Some (chars "_java"))
              ++ dot :: chars "txt" in
  let fp := fresh (dom (streams sample_process)) in
  initializeFileLogger 1000000 false false false plain_format
    (Some (chars "_java")) sample_process
  = Some (tt, with_logFP (Some fp)
                (with_streams (<[fp := name]> (streams sample_process))
                   (with_files (<[name := []]> (files sample_process))
                      sample_process))) ∧
  length name = (strlen (chars "C:\logs.d\bridge.txt")
                 + length (suffix_chars (Some (chars "_java"))))%nat ∧
  (suffix_chars (Some (chars "_java")) = [] →
   name = c_str (chars "C:\logs.d\bridge.txt")).
Proof.
  apply (log_file_with_extension 1000000 false false plain_format false
           (Some (chars "_java")) sample_process (chars "C:\logs.d\bridge.txt")
           (chars "C:\logs.d\bridge") (chars "txt")).
  - vm_compute. reflexivity.
  - vm_compute. reflexivity.
  - apply (bool_decide_unpack _). vm_compute. reflexivity.
  - apply not_elem_of_empty.
Defined.


Lemma finalize_stops_logging_witness :
  ∃ q,
    finalizeFileLogger sample_logging = Some (tt, q) ∧
    logFP q = None ∧
    files q = files sample_logging ∧
    streams q = match logFP sample_logging with
                | Some fp => delete fp (streams sample_logging)
                | None => streams sample_logging
                end ∧
    finalizeFileLogger q = Some (tt, q) ∧
    ∀ msg wmsg args,
      PrintDebugString 1000000 false false false plain_format msg args q
      = Some (tt, q) ∧
      PrintJavaDebugString2 1000000 false false false plain_format msg args q
      = Some (tt, q) ∧
      wPrintDebugString 1000000 false false false plain_format plain_wformat
        plain_narrow wmsg args q = Some (tt, q) ∧
      wPrintJavaDebugString 1000000 false false false plain_format plain_wformat
        plain_narrow wmsg args q = Some (tt, q).
Proof.
  apply (finalize_stops_logging 1000000 false false plain_format plain_wformat
           plain_narrow sample_logging).
  split; [|split; [reflexivity|by eexists]].
  intros fp [= <-]. vm_compute. by eexists.
Defined.


Lemma logger_is_safe_witness :
  let ops := [OpPrint (chars "early") []; OpPrintError None;
              OpInitialize (Some (chars "_java")); OpInitialize None;
              OpPrintError (Some (chars "open")); OpTick 7; OpFinalize;
              OpFinalize; OpWPrint [72%N; 105%N] []] in
  ∃ q,
    run_ops 1000000 false false false false plain_format plain_wformat
      plain_narrow ops sample_process = Some (tt, q) ∧
    consistent q ∧
    debugger q = debugger sample_process ∧ console q = console sample_process ∧
    environ q = environ sample_process ∧
    dom (files sample_process) ⊆ dom (files q).
Proof.
  apply (logger_is_safe 1000000 false false plain_format plain_wformat
           plain_narrow).
  split; [done|]. split; [reflexivity|]. by eexists.
Defined.

Lemma log_only_grows_witness :
  let ops := [OpPrint (chars "one") []; OpPrintError (Some (chars "open"));
              OpTick 1000000; OpPrintJava (chars "two") []; OpFinalize;
              OpPrint (chars "three") []] in
  ∃ q,
    run_ops 1000000 false false false false plain_format plain_wformat
      plain_narrow ops sample_logging = Some (tt, q) ∧
    ∀ path old, files sample_logging !! path = Some old →
                ∃ extra, files q !! path = Some (old ++ extra).
Proof.
  apply (log_only_grows 1000000 false false plain_format plain_wformat
           plain_narrow).
  - split; [|split; [reflexivity|by eexists]].
    intros fp [= <-]. vm_compute. by eexists.
  - repeat constructor; intros suffix; discriminate.
Defined.

Lemma printError_text_witness :
  let p := sample_logging in
  let msg := Some (chars "open") in
  let base := match msg with Some m => c_str m | None => c_str (retbuf p) end in
  let tail := match last_error_text p with
              | Some text => chars ": " ++ c_str text
              | None => []
              end in
  let sent := echoed true true (c_str (error_report string_format msg p)) p in
  ∃ q,
    printError 1000000 true true true string_format msg p
    = Some (take 255 (base ++ tail), q) ∧
    (length (take 255 (base ++ tail)) ≤ 255)%nat ∧
    c_str (retbuf q) = take 255 (base ++ tail) ∧
    consistent q ∧
    last_error_text q = last_error_text p ∧
    debugger q = debugger sent ∧ console q = console sent.
Proof.
  apply (printError_text 1000000 true true string_format plain_wformat
           plain_narrow true (Some (chars "open")) sample_logging).
  - split; [|split; [reflexivity|by eexists]].
    intros fp [= <-]. vm_compute. by eexists.
  - intros _. split; [vm_compute; lia|]. intros _.
    apply (bool_decide_unpack _). vm_compute. reflexivity.
Defined.

Lemma printError_null_accumulates_witness :
  ∃ q1 q2,
    printError 1000000 true true true string_format (Some (chars "open"))
      sample_logging
    = Some (take 255 (c_str (chars "open") ++ chars ": "
                      ++ c_str (chars "Access is denied.")), q1) ∧
    printError 1000000 true true true string_format None q1
    = Some (take 255 (c_str (chars "open")
                      ++ (chars ": " ++ c_str (chars "Access is denied."))
                      ++ chars ": " ++ c_str (chars "Access is denied.")), q2).
Proof.
  apply (printError_null_accumulates 1000000 true true string_format
           plain_wformat plain_narrow true (chars "open")
           (chars "Access is denied.") sample_logging).
  - split; [|split; [reflexivity|by eexists]].
    intros fp [= <-]. vm_compute. by eexists.
  - reflexivity.
  - intros _. split.
    + split; [vm_compute; lia|]. intros _.
      apply (bool_decide_unpack _). vm_compute. reflexivity.
    + split; [vm_compute; lia|]. intros _.
      apply (bool_decide_unpack _). vm_compute. reflexivity.
Defined.

Lemma reinitialize_leaks_the_stream_witness :
  ∃ q1 q2 fp1,
    initializeFileLogger 1000000 false false false plain_format None
      sample_logging = Some (tt, q1) ∧
    logFP q1 = Some fp1 ∧ fp1 ≠ 1%positive ∧
    finalizeFileLogger q1 = Some (tt, q2) ∧
    logFP q2 = None ∧
    is_Some (streams q2 !! 1%positive) ∧
    streams q2 !! 1%positive = streams sample_logging !! 1%positive.
Proof.
  apply (reinitialize_leaks_the_stream 1000000 false false plain_format false
           None sample_logging (chars "bridge") 1%positive).
  - split; [|split; [reflexivity|by eexists]].
    intros fp [= <-]. vm_compute. by eexists.
  - reflexivity.
  - vm_compute. reflexivity.
  - apply not_elem_of_empty.
Defined.

(** The string [printError] returns for the message [open]. *)
Example run_printError :
  fst <$> printError 1000000 false false false plain_format
            (Some (chars "open")) sample_logging
  = Some (chars "open: Access is denied.").
Proof. vm_compute. reflexivity. Qed.

(** The same call in a build with the three macros: the report has gone to
    the debugger and to standard output, and to the log after them. *)
Example run_printError_debug :
  (printError 1000000 true true true string_format (Some (chars "open"))
     sample_logging)
  ≫= (λ r, Some (r.1, debugger r.2, console r.2,
                 files r.2 !! chars "bridge.log"))
  = Some (chars "open: Access is denied.",
          [chars "  open: Access is denied."],
          chars "  open: Access is denied." ++ [CR; LF],
          Some (chars "started[1u]   open: Access is denied." ++ [CR; LF])).
Proof. vm_compute. reflexivity. Qed.

(** * More about the time stamp *)

(** X7.  The difference of two time stamps measures the time between the
    two calls to within a millisecond: for tick counts [t1 <= t2] of a
    clock past its epoch, the ticks between the calls lie strictly between
    one millisecond less and one millisecond more than the difference of
    the stamps.  In particular equal stamps mean that less than a
    millisecond has passed. *)
Theorem time_stamp_difference (ticks_per_ms t1 t2 : Z) :
  0 < ticks_per_ms →
  0 ≤ t1 → t1 ≤ t2 → t2 < 2 ^ 63 →
  let s1 := AccessBridgeDebug.getTimeStamp ticks_per_ms t1 in
  let s2 := AccessBridgeDebug.getTimeStamp ticks_per_ms t2 in
  (s2 - s1 - 1) * ticks_per_ms < t2 - t1 < (s2 - s1 + 1) * ticks_per_ms ∧
  (s1 = s2 → t2 - t1 < ticks_per_ms).
Proof.
  intros Hd H1 H12 H2 s1 s2.
  assert (∀ t, 0 ≤ t < 2 ^ 63 →
               AccessBridgeDebug.getTimeStamp ticks_per_ms t = t `div` ticks_per_ms)
    as Hstamp.
  { intros t Ht. unfold AccessBridgeDebug.getTimeStamp,
      AccessBridgeDebug.duration_cast_milliseconds. cbn zeta.
    rewrite wrap64_id by (apply quot_in_int64; unfold in_int64; lia).
    apply Z.quot_div_nonneg; lia. }
  unfold s1, s2. rewrite !Hstamp by lia.
  pose proof (Z.div_mod t1 ticks_per_ms ltac:(lia)).
  pose proof (Z.div_mod t2 ticks_per_ms ltac:(lia)).
  pose proof (Z.mod_pos_bound t1 ticks_per_ms Hd).
  pose proof (Z.mod_pos_bound t2 ticks_per_ms Hd).
  split; [nia|]. intros Heq. nia.
Qed.

Lemma time_stamp_difference_witness :
  let s1 := AccessBridgeDebug.getTimeStamp 1000000 1999999 in
  let s2 := AccessBridgeDebug.getTimeStamp 1000000 2000000 in
  (s2 - s1 - 1) * 1000000 < 2000000 - 1999999 < (s2 - s1 + 1) * 1000000 ∧
  (s1 = s2 → 2000000 - 1999999 < 1000000).
Proof.
  apply (time_stamp_difference 1000000 1999999 2000000); lia.
Defined.

(** * A build with the debugging macros *)

(** X18.  With [DEBUGGING_ON], [SEND_TO_OUTPUT_DEBUG_STRING] and
    [SEND_TO_CONSOLE] defined, [PrintDebugString] first formats the
    message into its buffer of 1024 characters.  A text that fits and has
    no percent sign (which [printf] would read as a format) is given to
    the debugger and written, with a carriage return and a line feed, to
    standard output; then the call goes on as in a build without the
    macros. *)
Theorem debug_build_echoes (ticks_per_ms : Z)
    (vformat : list ascii → list Arg → list ascii)
    (msg : list ascii) (args : list Arg) (p : Process) :
  let text := vformat msg args in
  (length text < 1024)%nat →
  clean text →
  (percent ∉ text) →
  PrintDebugString ticks_per_ms true true true vformat msg args p
  = PrintDebugString ticks_per_ms false true true vformat msg args
      (with_console (console p ++ text ++ crlf)
         (with_debugger (text :: debugger p) p)).
Proof.
  intros text Hshort Hclean Hplain.
  unfold PrintDebugString, bind at 1 2, vsprintf. fold text.
  rewrite decide_True by lia. unfold ret at 1. rewrite (c_str_clean text Hclean).
  unfold send, bind at 1 2, OutputDebugString, modify at 1.
  unfold bind at 1, printf at 1, bind at 1, lift at 1.
  rewrite (cformat_plain text [] Hplain). unfold modify at 1.
  unfold printf, bind at 1, lift at 1. rewrite cformat_crlf.
  unfold modify at 1. cbn [console with_console with_debugger debugger].
  unfold bind at 2, ret at 1. by rewrite <- app_assoc.
Qed.

Lemma debug_build_echoes_witness :
  let text := plain_format (chars "hello") [] in
  PrintDebugString 1000000 true true true plain_format (chars "hello") []
    sample_logging
  = PrintDebugString 1000000 false true true plain_format (chars "hello") []
      (with_console (console sample_logging ++ text ++ crlf)
         (with_debugger (text :: debugger sample_logging) sample_logging)).
Proof.
  apply (debug_build_echoes 1000000 plain_format (chars "hello") []
           sample_logging).
  - vm_compute. lia.
  - apply (bool_decide_unpack _). vm_compute. reflexivity.
  - apply (bool_decide_unpack _). vm_compute. reflexivity.
Defined.
